(** * AceBase storage core: a shallow embedding of [node.js]

    The development follows the source file of the storage core: the node
    address cache, storage allocations, the lock list, the child-entry codec,
    the record header with its chunk table, and the update entry point.

    Conventions of the embedding:
    - a JavaScript property that may hold [undefined] is an [option], with
      [None] for [undefined];
    - a JavaScript array of numbers is a [list Z]; a [Uint8Array] keeps each
      element modulo 256;
    - the module-level object [_nodeAddressCache] is an association list kept
      in the enumeration order of [Object.keys], a new key going last (keys
      that are array indices, which JavaScript lists first, get no special
      place);
    - a function that can throw returns a [Completion];
    - a promise is shown as it stands when the call that made it returns:
      resolved, rejected, or still waiting; the promise chain of
      [Node.update] carries with a waiting promise the callbacks that run
      once it is settled;
    - timers (the expiry of cache entries and of locks) are left out: a state
      is the state between two timer events;
    - helpers that live in other modules of the repository ([getPathKeys],
      [getPathInfo], [numberToBytes], [bytesToNumber], the text encoder and
      decoder, the sort of the lock queue) are section variables. *)

From Stdlib Require Import ZArith Bool List Lia Ascii String.
From Stdlib Require Import Floats.SpecFloat.
From stdpp Require Import base tactics option list strings pretty.
From Equations Require Import Equations.
From Equations.Prop Require Import Logic.

Set Warnings "-register-all".

Local Open Scope string_scope.
Local Open Scope Z_scope.
Local Open Scope list_scope.

(** ** Completions: normal return or a thrown value *)

Inductive JsError :=
| TypeError (msg : string)
| TruncatedDataError (msg : string)
| Error (msg : string)
| ThrownString (msg : string).

Inductive Completion (A : Type) :=
| Normal (a : A)
| Throw (e : JsError).
Arguments Normal {A} a.
Arguments Throw {A} e.

Definition bindC {A B} (c : Completion A) (k : A -> Completion B) : Completion B :=
  match c with
  | Normal a => k a
  | Throw e => Throw e
  end.

#[global] Instance Completion_ret : MRet Completion := fun A a => Normal a.
#[global] Instance Completion_bind : MBind Completion := fun A B k c => bindC c k.

(** A double quote, and a path as the messages and lock comments show it:
    a slash and the path between double quotes. *)
Definition dquote : string := String (ascii_of_nat 34) EmptyString.
Definition quoted_path (p : string) : string := dquote +:+ "/" +:+ p +:+ dquote.

(** ** Path keys

    [getPathKeys] of the utilities module returns the keys of a path, each a
    property name or an array index. *)

Inductive PathKey :=
| KeyName (name : string)
| KeyIndex (index : Z).

#[global] Instance PathKey_eq_dec : EqDecision PathKey.
Proof. solve_decision. Defined.

(** [keys.every((key, index) => other[index] === key)] *)
Fixpoint every_key_matches (ancestorKeys descendantKeys : list PathKey) : bool :=
  match ancestorKeys with
  | [] => true
  | key :: ancestorKeys' =>
      match descendantKeys with
      | [] => false
      | key' :: descendantKeys' =>
          bool_decide (key' = key) && every_key_matches ancestorKeys' descendantKeys'
      end
  end.

Module NodePath.
Section WithPathKeys.
Variable getPathKeys : string -> list PathKey.

(** [NodePath(path).isAncestorOf(otherPath)] *)
Definition isAncestorOf (path otherPath : string) : bool :=
  if bool_decide (path = "") then true
  else if bool_decide (path = otherPath) then false
  else
    let ancestorKeys := getPathKeys path in
    let descendantKeys := getPathKeys otherPath in
    if (length descendantKeys <? length ancestorKeys)%nat then false
    else every_key_matches ancestorKeys descendantKeys.

(** [NodePath(path).isDescendantOf(otherPath)] *)
Definition isDescendantOf (path otherPath : string) : bool :=
  if bool_decide (otherPath = "") then true
  else if bool_decide (path = otherPath) then false
  else
    let ancestorKeys := getPathKeys otherPath in
    let descendantKeys := getPathKeys path in
    if (length descendantKeys <? length ancestorKeys)%nat then false
    else every_key_matches ancestorKeys descendantKeys.
End WithPathKeys.
End NodePath.

(** A path splitter used to run the definitions on concrete paths: keys are
    separated by [/]; bracketed array indices are not recognised. *)
Fixpoint split_keys (cur : string) (s : string) : list PathKey :=
  match s with
  | EmptyString => if bool_decide (cur = "") then [] else [KeyName cur]
  | String c rest =>
      if bool_decide (c = "/"%char)
      then (if bool_decide (cur = "") then [] else [KeyName cur]) ++ split_keys "" rest
      else split_keys (cur +:+ String c EmptyString) rest
  end.

Definition slashPathKeys (path : string) : list PathKey := split_keys "" path.

(** ** Node addresses *)

Module NodeAddress.
(** [NodeAddress] and its subclass [RemovedNodeAddress]; [removed] records
    which constructor built the object. *)
Record t := mk {
  removed : bool;
  path : option string;
  pageNr : option Z;
  recordNr : option Z
}.

#[global] Instance eq_dec : EqDecision t.
Proof. solve_decision. Defined.

(** [new NodeAddress(path, pageNr, recordNr)] *)
Definition new (p : option string) (pg rc : option Z) : t := mk false p pg rc.

Definition at_ (p : string) (pg rc : Z) : t := new (Some p) (Some pg) (Some rc).

(** [this.equals(address)] *)
Definition equals (this address : t) : bool :=
  bool_decide (path this = path address)
  && bool_decide (pageNr this = pageNr address)
  && bool_decide (recordNr this = recordNr address).
End NodeAddress.

(** ** Node address cache *)

Module NodeCacheEntry.
Record t := mk {
  address : NodeAddress.t
}.

(** [entry.update(pageNr, recordNr)] *)
Definition update (entry : t) (pg rc : option Z) : t :=
  mk (NodeAddress.new (NodeAddress.path (address entry)) pg rc).
End NodeCacheEntry.

(** The objects that reach the cache functions: an address, or a cache
    entry (which has an [address] property and no [path], [pageNr] or
    [recordNr]). *)
Inductive CacheObject :=
| ObjAddress (a : NodeAddress.t)
| ObjEntry (e : NodeCacheEntry.t).

Definition prop_path (o : CacheObject) : option string :=
  match o with ObjAddress a => NodeAddress.path a | ObjEntry _ => None end.
Definition prop_pageNr (o : CacheObject) : option Z :=
  match o with ObjAddress a => NodeAddress.pageNr a | ObjEntry _ => None end.
Definition prop_recordNr (o : CacheObject) : option Z :=
  match o with ObjAddress a => NodeAddress.recordNr a | ObjEntry _ => None end.

(** [o instanceof RemovedNodeAddress] *)
Definition instanceof_RemovedNodeAddress (o : CacheObject) : bool :=
  match o with ObjAddress a => NodeAddress.removed a | ObjEntry _ => false end.

(** [new RemovedNodeAddress(address)] *)
Definition new_RemovedNodeAddress (o : CacheObject) : NodeAddress.t :=
  NodeAddress.mk true (prop_path o) (prop_pageNr o) (prop_recordNr o).

(** A property key: [undefined] is converted to the string ["undefined"]. *)
Definition propertyKey (k : option string) : string :=
  match k with Some s => s | None => "undefined" end.

(** The object [_nodeAddressCache]. *)
Definition Cache := list (string * NodeCacheEntry.t).

Fixpoint cache_get (c : Cache) (k : string) : option NodeCacheEntry.t :=
  match c with
  | [] => None
  | (k', e) :: c' => if bool_decide (k' = k) then Some e else cache_get c' k
  end.

(** [cache[k] = e]: replaces in place, a new key goes last. *)
Fixpoint cache_set (c : Cache) (k : string) (e : NodeCacheEntry.t) : Cache :=
  match c with
  | [] => [(k, e)]
  | (k', e') :: c' =>
      if bool_decide (k' = k) then (k, e) :: c' else (k', e') :: cache_set c' k e
  end.

(** [delete cache[k]] *)
Fixpoint cache_delete (c : Cache) (k : string) : Cache :=
  match c with
  | [] => []
  | (k', e') :: c' =>
      if bool_decide (k' = k) then c' else (k', e') :: cache_delete c' k
  end.

(** [Object.keys(cache)] *)
Definition Object_keys (c : Cache) : list string := map fst c.

Module NodeCache.
(** [NodeCache.update(address)] *)
Definition update (a : NodeAddress.t) (c : Cache) : Cache :=
  if bool_decide (NodeAddress.path a = Some "") then c
  else
    let key := propertyKey (NodeAddress.path a) in
    match cache_get c key with
    | Some entry =>
        cache_set c key
          (NodeCacheEntry.update entry (NodeAddress.pageNr a) (NodeAddress.recordNr a))
    | None => cache_set c key (NodeCacheEntry.mk a)
    end.

(** [NodeCache.remove(address)] *)
Definition remove (o : CacheObject) (c : Cache) : Cache :=
  match cache_get c (propertyKey (prop_path o)) with
  | Some _ => cache_delete c (propertyKey (prop_path o))
  | None => c
  end.

Section WithPathKeys.
Variable getPathKeys : string -> list PathKey.

(** The filter of [invalidate]. *)
Definition invalidate_filter (requestedPath cachedPath : string) : bool :=
  bool_decide (cachedPath = cachedPath)
  || NodePath.isAncestorOf getPathKeys requestedPath cachedPath.

(** The body of [paths.forEach] in [invalidate]; reading a property of
    [undefined] throws. *)
Definition invalidate_one (markAsDeleted : bool) (invalidatePath : string) (c : Cache)
  : Completion Cache :=
  match cache_get c invalidatePath with
  | None => Throw (TypeError "Cannot read property 'path' of undefined")
  | Some entry =>
      if markAsDeleted
      then Normal (update (new_RemovedNodeAddress (ObjEntry entry)) c)
      else Normal (remove (ObjEntry entry) c)
  end.

Fixpoint invalidate_each (markAsDeleted : bool) (paths : list string) (c : Cache)
  : Completion Cache :=
  match paths with
  | [] => Normal c
  | invalidatePath :: paths' =>
      c' ← invalidate_one markAsDeleted invalidatePath c;
      invalidate_each markAsDeleted paths' c'
  end.

(** [NodeCache.invalidate(path, markAsDeleted)] *)
Definition invalidate (p : string) (markAsDeleted : bool) (c : Cache)
  : Completion Cache :=
  let paths := List.filter (invalidate_filter p) (Object_keys c) in
  invalidate_each markAsDeleted paths c.
End WithPathKeys.

(** [NodeCache.find(path)]; [None] is [null]. *)
Definition find (p : string) (c : Cache) : option NodeAddress.t :=
  match cache_get c p with
  | None => None
  | Some entry =>
      if instanceof_RemovedNodeAddress (ObjEntry entry) then None
      else Some (NodeCacheEntry.address entry)
  end.
End NodeCache.

(** ** Storage allocations *)

Module StorageAddressRange.
Record t := mk {
  pageNr : Z;
  recordNr : Z;
  length : Z
}.

#[global] Instance eq_dec : EqDecision t.
Proof. solve_decision. Defined.
End StorageAddressRange.

Module StorageAddress.
Record t := mk {
  pageNr : Z;
  recordNr : Z
}.

#[global] Instance eq_dec : EqDecision t.
Proof. solve_decision. Defined.
End StorageAddress.

Module NodeChunkTableRange.
Record t := mk {
  type : Z;
  pageNr : Z;
  recordNr : Z;
  length : Z
}.
End NodeChunkTableRange.

Module NodeAllocation.
Import StorageAddressRange.

(** The [ranges] array of an allocation. *)
Definition t := list StorageAddressRange.t.

(** The loop [for (let i = 0; i < range.length; i++)] of [addresses]. *)
Definition range_addresses (range : StorageAddressRange.t) : list StorageAddress.t :=
  map (fun i => StorageAddress.mk (pageNr range) (recordNr range + Z.of_nat i))
      (seq 0 (Z.to_nat (length range))).

(** [get addresses()] *)
Definition addresses (ranges : t) : list StorageAddress.t :=
  concat (map range_addresses ranges).

(** [get totalAddresses()] *)
Definition totalAddresses (ranges : t) : Z :=
  fold_left (fun total nr => total + nr) (map length ranges) 0.

(** [toChunkTable()] *)
Definition toChunkTable (ranges : t) : list NodeChunkTableRange.t :=
  match ranges with
  | [range] =>
      if bool_decide (length range = 1)
      then [NodeChunkTableRange.mk 0 (pageNr range) (recordNr range) (length range)]
      else [NodeChunkTableRange.mk 1 (pageNr range) (recordNr range) (length range)]
  | _ =>
      imap (fun index range =>
              NodeChunkTableRange.mk (if bool_decide (index = 0%nat) then 1 else 2)
                (pageNr range) (recordNr range) (length range))
           ranges
  end.

(** The inner loop of [normalize]: looks through the ranges after [range]
    for the first one on the same page that touches it, and grows that
    one; [None] when the loop ends with [adjRange] unset. *)
Fixpoint merge_adjacent (range : StorageAddressRange.t) (others : list StorageAddressRange.t)
  : option (list StorageAddressRange.t) :=
  match others with
  | [] => None
  | otherRange :: others' =>
      if negb (bool_decide (pageNr otherRange = pageNr range))
      then cons otherRange <$> merge_adjacent range others'
      else if bool_decide (recordNr otherRange = recordNr range + length range)
      then Some (mk (pageNr otherRange) (recordNr range) (length otherRange + length range)
                   :: others')
      else if bool_decide (recordNr range = recordNr otherRange + length otherRange)
      then Some (mk (pageNr otherRange) (recordNr otherRange) (length otherRange + length range)
                   :: others')
      else cons otherRange <$> merge_adjacent range others'
  end.

Lemma merge_adjacent_length range others others' :
  merge_adjacent range others = Some others' ->
  List.length others' = List.length others.
Proof.
  revert others'. induction others as [|o os IH]; intros others' H; simpl in H.
  - discriminate.
  - destruct (merge_adjacent range os) as [os'|] eqn:E;
      repeat case_match; simpl in H; inversion H; subst; simpl;
      try reflexivity; f_equal; apply IH; reflexivity.
Qed.

(** [normalize()]: the outer loop from index [i], on the ranges from [i]
    on. When [ranges[i]] was merged into a later range it is spliced out
    and the same index is visited again. *)
Equations normalize_from (ranges : list StorageAddressRange.t)
  : list StorageAddressRange.t by wf (List.length ranges) lt :=
  normalize_from nil := nil;
  normalize_from (cons range others) with inspect (merge_adjacent range others) := {
    | exist _ (Some others') Hm => normalize_from others'
    | exist _ None _ => range :: normalize_from others
  }.
Next Obligation.
  intros. rewrite (merge_adjacent_length _ _ _ Hm). simpl. lia.
Qed.

Definition normalize (ranges : t) : t := normalize_from ranges.
End NodeAllocation.

(** The lengths of the ranges of an allocation are not negative. *)
Definition lengths_ok (ranges : NodeAllocation.t) : Prop :=
  forall r, In r ranges -> 0 <= StorageAddressRange.length r.

(** ** Lock manager *)

Definition SECOND : Z := 1000.
Definition MINUTE : Z := 60000.
Definition DEBUG_MODE : bool := true.
Definition LOCK_TIMEOUT : Z := if DEBUG_MODE then 15 * MINUTE else 5 * SECOND.

Module NodeLock.
Inductive LOCK_STATE := PENDING | LOCKED | EXPIRED | DONE.

#[global] Instance LOCK_STATE_eq_dec : EqDecision LOCK_STATE.
Proof. solve_decision. Defined.

(** A lock object. [id] is the identity of the object; [waitingFor] refers
    to another lock object by its identity. *)
Record t := mk {
  id : nat;
  tid : string;
  path : string;
  forWriting : bool;
  priority : bool;
  state : LOCK_STATE;
  requested : Z;
  granted : option Z;
  expires : option Z;
  comment : string;
  waitingFor : option nat
}.

Definition set_state (st : LOCK_STATE) (l : t) : t :=
  mk (id l) (tid l) (path l) (forWriting l) (priority l) st (requested l)
     (granted l) (expires l) (comment l) (waitingFor l).
Definition set_waitingFor (w : option nat) (l : t) : t :=
  mk (id l) (tid l) (path l) (forWriting l) (priority l) (state l) (requested l)
     (granted l) (expires l) (comment l) w.
Definition set_comment (c : string) (l : t) : t :=
  mk (id l) (tid l) (path l) (forWriting l) (priority l) (state l) (requested l)
     (granted l) (expires l) c (waitingFor l).
Definition set_granted (g e : option Z) (l : t) : t :=
  mk (id l) (tid l) (path l) (forWriting l) (priority l) (state l) (requested l)
     g e (comment l) (waitingFor l).
Definition set_path (p : string) (fw : bool) (l : t) : t :=
  mk (id l) (tid l) p fw (priority l) (state l) (requested l)
     (granted l) (expires l) (comment l) (waitingFor l).

(** The array [_locks], the counter that names new objects, and the value
    of [Date.now()]. A lock object that is not in [_locks] has been
    unlocked and is [DONE]. *)
Record Store := mkStore {
  _locks : list t;
  next_id : nat;
  now : Z
}.

Definition with_locks (ls : list t) (s : Store) : Store :=
  mkStore ls (next_id s) (now s).

Definition get (i : nat) (s : Store) : option t :=
  List.find (fun l => bool_decide (id l = i)) (_locks s).

(** The state of the object [i], inside [_locks] or not. *)
Definition state_of (i : nat) (s : Store) : LOCK_STATE :=
  match get i s with Some l => state l | None => DONE end.

(** An in-place change of the object [i]. *)
Definition modify (i : nat) (f : t -> t) (s : Store) : Store :=
  with_locks (map (fun l => if bool_decide (id l = i) then f l else l) (_locks s)) s.

(** A promise as it stands when the call returns. [Waiting]: not settled
    yet, as the promise of a queued lock that another transaction has to
    release first. *)
Inductive Promise (A : Type) :=
| Resolved (a : A)
| Rejected (reason : JsError)
| Waiting.
Arguments Resolved {A} a.
Arguments Rejected {A} reason.
Arguments Waiting {A}.

Section WithPathKeys.
Variable getPathKeys : string -> list PathKey.

(** The test of [find] in [_allowLock]. *)
Definition clashes (p : string) (forWriting_ : bool) (otherLock : t) : bool :=
  (forWriting_ || forWriting otherLock)
  && (bool_decide (p = path otherLock)
      || NodePath.isDescendantOf getPathKeys p (path otherLock)).

(** [_allowLock(path, tid, forWriting)]: the pair [(allow, conflict)]. *)
Definition _allowLock (p tid_ : string) (forWriting_ : bool) (s : Store)
  : bool * option t :=
  let conflict :=
    List.find (clashes p forWriting_)
      (List.filter
         (fun otherLock =>
            negb (bool_decide (tid otherLock = tid_))
            && bool_decide (state otherLock = LOCKED))
         (_locks s)) in
  (negb (bool_decide (is_Some conflict)), conflict).

(** The branch [if (proceed)] of [lock], on the object [i]. *)
Definition grant (noTimeout : bool) (i : nat) (s : Store) : Store :=
  modify i
    (fun l =>
       let l := set_state LOCKED l in
       match granted l with
       | Some _ => l
       | None =>
           set_granted (Some (now s))
             (if noTimeout then expires l else Some (now s + LOCK_TIMEOUT)) l
       end)
    s.

(** [NodeLock.lock(path, tid, forWriting, comment, options)] with a path. *)
Definition lock (p tid_ : string) (forWriting_ : bool) (comment_ : string)
    (withPriority noTimeout : bool) (s : Store) : Promise nat * Store :=
  if existsb (fun l => bool_decide (tid l = tid_) && bool_decide (state l = EXPIRED))
       (_locks s)
  then (Rejected (ThrownString
                    ("lock on tid " +:+ tid_ +:+ " has expired, not allowed to continue")), s)
  else
    let i := next_id s in
    let lock0 := mk i tid_ p forWriting_ withPriority PENDING (now s) None None "" None in
    let lock1 := set_comment comment_ lock0 in
    let s1 := mkStore (_locks s ++ [lock1]) (S (next_id s)) (now s) in
    let check := _allowLock p tid_ forWriting_ s1 in
    let s2 := modify i (set_waitingFor (id <$> snd check)) s1 in
    if fst check
    then (Resolved i, grant noTimeout i s2)
    else (Waiting, s2).

(** [NodeLock.lock(lock)] with a lock object: the retry from the queue. *)
Definition lock_retry (i : nat) (s : Store) : Promise nat * Store :=
  let s1 := modify i (fun l => set_comment ("(retry: " +:+ comment l +:+ ")") l) s in
  (Resolved i, grant false i s1).

Section WithSort.
(** [Array.prototype.sort] with the comparator of [_processLockQueue]. *)
Variable sort_pending : list t -> list t.

Definition process_one (i : nat) (s : Store) : Store :=
  match get i s with
  | None => s
  | Some l =>
      let check := _allowLock (path l) (tid l) (forWriting l) s in
      let s1 := modify i (set_waitingFor (id <$> snd check)) s in
      if fst check then snd (lock_retry i s1) else s1
  end.

(** [_processLockQueue()] *)
Definition _processLockQueue (s : Store) : Store :=
  let pending :=
    sort_pending
      (List.filter
         (fun l =>
            bool_decide (state l = PENDING)
            && match waitingFor l with
               | None => true
               | Some w => negb (bool_decide (state_of w s = LOCKED))
               end)
         (_locks s)) in
  fold_left (fun s' l => process_one (id l) s') pending s.

(** [NodeLock.unlock(lock, comment, processQueue)] *)
Definition unlock (i : nat) (processQueue : bool) (s : Store) : Promise nat * Store :=
  match get i s with
  | None => (Rejected (Error "lock wasn't found"), s)
  | Some _ =>
      let s1 := with_locks (List.filter (fun l => negb (bool_decide (id l = i))) (_locks s)) s in
      let s2 := if processQueue then _processLockQueue s1 else s1 in
      (Resolved i, s2)
  end.

(** [lock.release(comment)] *)
Definition release (i : nat) (s : Store) : Promise nat * Store := unlock i true s.

(** [lock.moveTo(otherPath, forWriting)] on the object [i], a lock that is
    in [_locks] (its callers move locks they hold). *)
Definition moveTo (i : nat) (otherPath : string) (forWriting_ : bool) (s : Store)
  : Promise nat * Store :=
  match get i s with
  | None => (Rejected (Error "lock wasn't found"), s)
  | Some this =>
      let check := _allowLock otherPath (tid this) (forWriting this) s in
      if fst check
      then
        (Resolved i,
         modify i
           (fun l =>
              set_comment ("moved to " +:+ quoted_path otherPath +:+ ": " +:+ comment l)
                (set_path otherPath forWriting_ (set_waitingFor None l)))
           s)
      else
        let s1 := snd (unlock i false s) in
        lock otherPath (tid this) forWriting_
          ("moved to " +:+ quoted_path otherPath +:+ " (queued): " +:+ comment this)
          true false s1
  end.

(** [lock.moveToParent()] on the object [i], with the parent path
    [getPathInfo(this.path).parent]. *)
Definition moveToParent (i : nat) (parentPath : string) (s : Store)
  : Promise nat * Store :=
  match get i s with
  | None => (Rejected (Error "lock wasn't found"), s)
  | Some this =>
      let check := _allowLock parentPath (tid this) (forWriting this) s in
      if fst check
      then
        (Resolved i,
         modify i
           (fun l =>
              set_comment ("moved to parent: " +:+ comment l)
                (set_path parentPath (forWriting l) (set_waitingFor None l)))
           s)
      else
        let s1 := snd (unlock i false s) in
        lock parentPath (tid this) (forWriting this)
          ("moved to parent (queued): " +:+ comment this)
          true false s1
  end.
End WithSort.
End WithPathKeys.
End NodeLock.

(** ** The grant policy in the words of its description *)

(** An existing lock stands in the way of a request for [p] by [tid_]: it
    belongs to another transaction, it is [LOCKED], its path is [p] or an
    ancestor of [p], and one of the two is for writing. *)
Definition conflicts_with (getPathKeys : string -> list PathKey)
    (p tid_ : string) (forWriting_ : bool) (l : NodeLock.t) : Prop :=
  NodeLock.tid l <> tid_
  /\ NodeLock.state l = NodeLock.LOCKED
  /\ (NodeLock.path l = p \/ NodePath.isAncestorOf getPathKeys (NodeLock.path l) p = true)
  /\ (forWriting_ = true \/ NodeLock.forWriting l = true).

(** The promise is already resolved when [lock] returns. *)
Definition granted_now {A} (r : NodeLock.Promise A) : Prop :=
  exists a, r = NodeLock.Resolved a.

(** ** JavaScript numbers and values *)

(** A JavaScript number is an IEEE-754 double. *)
Definition number : Type := spec_float.

(** The number with the value of an integer. *)
Definition number_of_Z (z : Z) : number := binary_normalize 53 1024 z 0 false.

(** [Math.floor(x)] *)
Definition Math_floor (x : number) : number :=
  match x with
  | S754_finite s m e =>
      if 0 <=? e then x
      else
        let q := Z.pos m / 2 ^ (- e) in
        let r := Z.pos m mod 2 ^ (- e) in
        if s then binary_normalize 53 1024 (- (if r =? 0 then q else q + 1)) 0 true
        else binary_normalize 53 1024 q 0 false
  | _ => x
  end.

(** The time value of [new Date(time)]: [NaN] for a time that is not finite
    or lies more than 8.64e15 milliseconds from the epoch, and the time cut
    to whole milliseconds otherwise, with plus zero for both zeros and for
    what is cut to zero. *)
Definition TimeClip (time : number) : number :=
  match time with
  | S754_nan | S754_infinity _ => S754_nan
  | S754_zero _ => S754_zero false
  | S754_finite s m e =>
      if 0 <=? e
      then if 8640000000000000 <? Z.pos m * 2 ^ e then S754_nan else time
      else if 8640000000000000 * 2 ^ (- e) <? Z.pos m then S754_nan
      else
        let q := Z.pos m / 2 ^ (- e) in
        if q =? 0 then S754_zero false
        else binary_normalize 53 1024 (if s then - q else q) 0 false
  end.

(** The conversion of the bitwise operators: truncate, then wrap to 32 bits;
    [NaN], zeros and infinities give 0. *)
Definition ToInt32 (x : number) : Z :=
  match x with
  | S754_finite s m e =>
      let a := if 0 <=? e then Z.pos m * 2 ^ e else Z.pos m / 2 ^ (- e) in
      let n := if s then - a else a in
      (n + 2 ^ 31) mod 2 ^ 32 - 2 ^ 31
  | _ => 0
  end.

(** An element stored into a [Uint8Array]. *)
Definition ToUint8 (z : Z) : Z := z mod 256.

(** [new Uint8Array(array)] *)
Definition new_Uint8Array (elems : list Z) : list Z := map ToUint8 elems.

(** [DataView.setUint32] and [setUint16], big-endian. *)
Definition uint32_bytes (v : Z) : list Z :=
  [(v / 2 ^ 24) mod 256; (v / 2 ^ 16) mod 256; (v / 2 ^ 8) mod 256; v mod 256].
Definition uint16_bytes (v : Z) : list Z :=
  [(v / 2 ^ 8) mod 256; v mod 256].

(** [data[i]] on an array of bytes, inside its bounds. *)
Definition byte_at (data : list Z) (i : Z) : Z := nth (Z.to_nat i) data 0.

(** [DataView.getUint32] and [getUint16], big-endian. *)
Definition getUint32 (data : list Z) (i : Z) : Z :=
  ToUint8 (byte_at data i) * 2 ^ 24 + ToUint8 (byte_at data (i + 1)) * 2 ^ 16
  + ToUint8 (byte_at data (i + 2)) * 2 ^ 8 + ToUint8 (byte_at data (i + 3)).
Definition getUint16 (data : list Z) (i : Z) : Z :=
  ToUint8 (byte_at data i) * 2 ^ 8 + ToUint8 (byte_at data (i + 1)).

(** [array.slice(from, to)] *)
Definition slice (data : list Z) (from to : Z) : list Z :=
  firstn (Z.to_nat (to - from)) (skipn (Z.to_nat from) data).

(** [array.length] *)
Definition len {A} (l : list A) : Z := Z.of_nat (length l).

Module VALUE_TYPES.
Definition OBJECT : Z := 1.
Definition ARRAY : Z := 2.
Definition NUMBER : Z := 3.
Definition BOOLEAN : Z := 4.
Definition STRING : Z := 5.
Definition DATETIME : Z := 6.
Definition BINARY : Z := 8.
Definition REFERENCE : Z := 9.
End VALUE_TYPES.

Definition FLAG_WRITE_LOCK : Z := 16.
Definition FLAG_READ_LOCK : Z := 32.
Definition FLAG_KEY_TREE : Z := 64.
Definition FLAG_VALUE_TYPE : Z := 15.

(** A [string] holds a JavaScript string as the bytes of its UTF-8 form.
    [utf16_units bytes] are the UTF-16 code units of the string with these
    bytes: one unit for a sequence of one, two or three bytes, two units (a
    surrogate pair) for a sequence of four. A byte that does not begin a
    well-formed sequence is taken as the code unit of its value. *)
Definition is_continuation (b : Z) : bool := (128 <=? b) && (b <? 192).

Fixpoint utf16_units (bytes : list Z) : list Z :=
  match bytes with
  | [] => []
  | b0 :: rest =>
      match rest with
      | [] => [b0]
      | b1 :: rest1 =>
          if (192 <=? b0) && (b0 <? 224) && is_continuation b1
          then (Z.land b0 31 * 64 + Z.land b1 63) :: utf16_units rest1
          else
            match rest1 with
            | [] => b0 :: utf16_units rest
            | b2 :: rest2 =>
                if (224 <=? b0) && (b0 <? 240) && is_continuation b1 && is_continuation b2
                then (Z.land b0 15 * 4096 + Z.land b1 63 * 64 + Z.land b2 63)
                     :: utf16_units rest2
                else
                  match rest2 with
                  | [] => b0 :: utf16_units rest
                  | b3 :: rest3 =>
                      if (240 <=? b0) && (b0 <? 248) && is_continuation b1
                         && is_continuation b2 && is_continuation b3
                      then
                        let codePoint :=
                          Z.land b0 7 * 262144 + Z.land b1 63 * 4096
                          + Z.land b2 63 * 64 + Z.land b3 63 in
                        (55296 + (codePoint - 65536) / 1024)
                        :: (56320 + (codePoint - 65536) mod 1024)
                        :: utf16_units rest3
                      else b0 :: utf16_units rest
                  end
            end
      end
  end.

(** [s.charCodeAt(i)] for each [i] from 0 to [s.length - 1]. *)
Definition charCodes (s : string) : list Z :=
  utf16_units (map (fun c => Z.of_nat (nat_of_ascii c)) (list_ascii_of_string s)).

(** [s.length] *)
Definition string_length (s : string) : Z := len (charCodes s).

(** [String.fromCharCode(code)], as UTF-8 bytes; the code is taken modulo
    65536. *)
Definition fromCharCode_bytes (code : Z) : list Z :=
  let unit := code mod 65536 in
  if unit <? 128 then [unit]
  else if unit <? 2048 then [192 + unit / 64; 128 + unit mod 64]
  else [224 + unit / 4096; 128 + (unit / 64) mod 64; 128 + unit mod 64].

(** The values that reach the storage functions. *)
Inductive JsValue :=
| VUndefined
| VNull
| VBoolean (b : bool)
| VNumber (n : number)
| VString (s : string)
| VDate (time : number)
| VArrayBuffer (bytes : list Z)
| VPathReference (path : string)
| VInternalNodeReference (type : Z) (address : NodeAddress.t)
| VArray (items : list JsValue)
| VObject (props : list (string * JsValue)).

(** [value.length]: [None] is [undefined]; reading a property of
    [undefined] or [null] throws. *)
Definition prop_length (v : JsValue) : Completion (option Z) :=
  match v with
  | VUndefined | VNull => Throw (TypeError "Cannot read property 'length'")
  | VString s => Normal (Some (string_length s))
  | VArray items => Normal (Some (len items))
  | _ => Normal None
  end.

(** [Object.keys(value).length] *)
Definition Object_keys_length (v : JsValue) : Completion Z :=
  match v with
  | VUndefined | VNull => Throw (TypeError "Cannot convert undefined or null to object")
  | VString s => Normal (string_length s)
  | VArray items => Normal (len items)
  | VObject props => Normal (len props)
  | VInternalNodeReference _ _ => Normal 2
  | VPathReference _ => Normal 1
  | _ => Normal 0
  end.

(** [a < b] with a left operand that may be [undefined]. *)
Definition js_lt (a : option Z) (b : Z) : bool :=
  match a with Some x => x <? b | None => false end.

(** ** Serialized children *)

(** What [kvp.bytes] can hold. *)
Inductive ByteData :=
| PlainArray (elems : list Z)
| TypedArray (elems : list Z)
| ArrayBufferData (bytes : list Z).

(** [data.length]: an [ArrayBuffer] has [byteLength] and no [length]. *)
Definition data_length (data : ByteData) : option Z :=
  match data with
  | PlainArray elems | TypedArray elems => Some (len elems)
  | ArrayBufferData _ => None
  end.

(** The elements [data.forEach] visits: an [ArrayBuffer] has no [forEach]. *)
Definition data_forEach (data : ByteData) : Completion (list Z) :=
  match data with
  | PlainArray elems | TypedArray elems => Normal elems
  | ArrayBufferData _ => Throw (TypeError "data.forEach is not a function")
  end.

Module SerializedKeyValue.
Record t := mk {
  key : option string;
  index : option Z;
  type : Z;
  bool_ : option bool;
  ref : JsValue;
  binary : option (list Z);
  record : option NodeAddress.t;
  bytes : option ByteData
}.
End SerializedKeyValue.

(** The result of [_serializeValue]: a serialized child, or the promise of
    one once the value has been written to a record of its own. *)
Inductive Serialized :=
| Kvp (kvp : SerializedKeyValue.t)
| RecordPromise (type : Z) (val : JsValue).

Section Codec.
(** [numberToBytes] and [bytesToNumber] of the utilities module. *)
Variable numberToBytes : number -> list Z.
Variable bytesToNumber : list Z -> number.
(** [textEncoder.encode] and [textDecoder.decode]. *)
Variable textEncoder_encode : string -> list Z.
Variable textDecoder_decode : list Z -> string.
(** [storage.settings.maxInlineValueSize] *)
Variable maxInlineValueSize : Z.

(** [_valueFitsInline(storage, value)] *)
Definition _valueFitsInline (value : JsValue) : Completion bool :=
  match value with
  | VNumber _ | VBoolean _ | VDate _ | VInternalNodeReference _ _ => Normal true
  | VString s => Normal (len (textEncoder_encode s) <? maxInlineValueSize)
  | VPathReference p => Normal (len (textEncoder_encode p) <? maxInlineValueSize)
  | VArrayBuffer b =>
      Normal (js_lt (data_length (ArrayBufferData b)) maxInlineValueSize)
  | VArray items => Normal (len items =? 0)
  | VObject props => Normal (len props =? 0)
  | VNull => Throw (TypeError "Cannot convert undefined or null to object")
  | VUndefined => Throw (TypeError "What else is there?")
  end.

(** The function [create] inside [_serializeValue]. *)
Definition create (keyOrIndex : PathKey) (val : JsValue) (type : Z) (bool_ : option bool)
    (binary : option (list Z)) (record : option NodeAddress.t) (bytes : option ByteData)
  : SerializedKeyValue.t :=
  SerializedKeyValue.mk
    (match keyOrIndex with KeyName k => Some k | KeyIndex _ => None end)
    (match keyOrIndex with KeyIndex i => Some i | KeyName _ => None end)
    type bool_ val binary record bytes.

(** [_serializeValue(storage, path, keyOrIndex, val, parentTid)] *)
Definition _serializeValue (keyOrIndex : PathKey) (val : JsValue) : Completion Serialized :=
  match val with
  | VDate ms =>
      Normal (Kvp (create keyOrIndex val VALUE_TYPES.DATETIME None None None
                     (Some (PlainArray (numberToBytes ms)))))
  | VArray items =>
      if len items =? 0
      then Normal (Kvp (create keyOrIndex val VALUE_TYPES.ARRAY None None None
                          (Some (PlainArray []))))
      else Normal (RecordPromise VALUE_TYPES.ARRAY val)
  | VInternalNodeReference type address =>
      Normal (Kvp (create keyOrIndex val type None None (Some address) None))
  | VArrayBuffer b =>
      if len b >? maxInlineValueSize
      then Normal (RecordPromise VALUE_TYPES.BINARY val)
      else Normal (Kvp (SerializedKeyValue.mk None None VALUE_TYPES.BINARY None VUndefined
                          None None (Some (ArrayBufferData b))))
  | VPathReference p =>
      let encoded := textEncoder_encode p in
      if len encoded >? maxInlineValueSize
      then Normal (RecordPromise VALUE_TYPES.REFERENCE val)
      else Normal (Kvp (create keyOrIndex val VALUE_TYPES.REFERENCE None (Some encoded)
                          None None))
  | VObject props =>
      if len props =? 0
      then Normal (Kvp (create keyOrIndex val VALUE_TYPES.OBJECT None None None
                          (Some (PlainArray []))))
      else Normal (RecordPromise VALUE_TYPES.OBJECT val)
  | VNull => Throw (TypeError "Cannot convert undefined or null to object")
  | VNumber n =>
      Normal (Kvp (create keyOrIndex val VALUE_TYPES.NUMBER None None None
                     (Some (PlainArray (numberToBytes n)))))
  | VBoolean b =>
      Normal (Kvp (create keyOrIndex val VALUE_TYPES.BOOLEAN (Some b) None None None))
  | VString s =>
      let encoded := textEncoder_encode s in
      if len encoded >? maxInlineValueSize
      then Normal (RecordPromise VALUE_TYPES.STRING val)
      else Normal (Kvp (create keyOrIndex val VALUE_TYPES.STRING None (Some encoded)
                          None None))
  | VUndefined => Throw (TypeError "Cannot read property 'toString' of undefined")
  end.
End Codec.

(** [kvp.ref >= 0 && kvp.ref <= 15 && Math.floor(kvp.ref) === kvp.ref]: the
    strict equality holds for numbers only. *)
Definition is_tiny_number (ref : JsValue) : bool :=
  match ref with
  | VNumber n =>
      SFleb (number_of_Z 0) n && SFleb n (number_of_Z 15) && SFeqb (Math_floor n) n
  | _ => false
  end.

(** The chain of tests that sets [tinyValue] in [_getValueBytes]; -1 when
    none applies. *)
Definition tiny_value_of (kvp : SerializedKeyValue.t) : Completion Z :=
  let type := SerializedKeyValue.type kvp in
  let ref := SerializedKeyValue.ref kvp in
  if type =? VALUE_TYPES.BOOLEAN
  then Normal (match SerializedKeyValue.bool_ kvp with Some true => 1 | _ => 0 end)
  else if (type =? VALUE_TYPES.NUMBER) && is_tiny_number ref
  then Normal (match ref with VNumber n => ToInt32 n | _ => -1 end)
  else if (type =? VALUE_TYPES.STRING)
          && match SerializedKeyValue.binary kvp with
             | Some b => len b =? 0
             | None => false
             end
  then Normal 0
  else
    array_empty ← (if type =? VALUE_TYPES.ARRAY
                   then l ← prop_length ref; Normal (bool_decide (l = Some 0))
                   else Normal false);
    if (array_empty : bool) then Normal 0
    else
      object_empty ← (if type =? VALUE_TYPES.OBJECT
                      then n ← Object_keys_length ref; Normal (n =? 0)
                      else Normal false);
      if (object_empty : bool) then Normal 0 else Normal (-1).

(** [_getValueBytes(kvp)]: the array of numbers it returns. *)
Definition _getValueBytes (kvp : SerializedKeyValue.t) : Completion (list Z) :=
  let byte0 := Z.shiftl (SerializedKeyValue.type kvp) 4 in
  tinyValue ← tiny_value_of kvp;
  if 0 <=? tinyValue
  then Normal [Z.lor byte0 tinyValue; 64]
  else
    match SerializedKeyValue.record kvp with
    | Some address =>
        Normal ([byte0; 192]
                ++ uint32_bytes (default 0 (NodeAddress.pageNr address))
                ++ uint16_bytes (default 0 (NodeAddress.recordNr address)))
    | None =>
        let data :=
          match SerializedKeyValue.bytes kvp with
          | Some d => Some d
          | None => TypedArray <$> SerializedKeyValue.binary kvp
          end in
        match data with
        | None => Throw (TypeError "Cannot read property 'length' of undefined")
        | Some d =>
            let inline_length :=
              match data_length d with Some n => n - 1 | None => 0 end in
            elems ← data_forEach d;
            Normal ([byte0; Z.lor 128 inline_length] ++ elems)
        end
    end.

(** ** Child entries *)

Module NodeInfo.
Record t := mk {
  path : option string;
  type : option Z;
  index : option Z;
  key : option string;
  exists_ : bool;
  address : option NodeAddress.t;
  value : option JsValue
}.

Definition set_type (ty : Z) (c : t) : t :=
  mk (path c) (Some ty) (index c) (key c) (exists_ c) (address c) (value c).
Definition set_value (v : JsValue) (c : t) : t :=
  mk (path c) (type c) (index c) (key c) (exists_ c) (address c) (Some v).
Definition set_address (a : NodeAddress.t) (c : t) : t :=
  mk (path c) (type c) (index c) (key c) (exists_ c) (Some a) (value c).
End NodeInfo.

(** A template literal prints [undefined] for a missing value. *)
Definition template_string (s : option string) : string :=
  match s with Some x => x | None => "undefined" end.
Definition template_number (n : option Z) : string :=
  match n with Some z => pretty z | None => "undefined" end.

Section ChildStream.
Variable bytesToNumber : list Z -> number.
Variable textDecoder_decode : list Z -> string.
(** [isArray] and [this.address] of the reader. *)
Variable isArray : bool.
Variable this_address : NodeAddress.t.

(** The function [assert] inside [getValueFromBinary]. *)
Definition assert_bytes (binary : list Z) (index bytes : Z) : Completion unit :=
  if index + bytes >? len binary
  then Throw (TruncatedDataError "truncated data")
  else Normal tt.

(** The path given to the address of a child stored in its own record. *)
Definition childPath_of (child : NodeInfo.t) : option string :=
  if isArray
  then Some (template_string (NodeAddress.path this_address) +:+ "["
             +:+ template_number (NodeInfo.index child) +:+ "]")
  else if bool_decide (NodeAddress.path this_address = Some "")
  then NodeInfo.key child
  else Some (template_string (NodeAddress.path this_address) +:+ "/"
             +:+ template_string (NodeInfo.key child)).

(** [getValueFromBinary(child, binary, index)]: the child as it is left and
    the [index] of the result. *)
Definition getValueFromBinary (child : NodeInfo.t) (binary : list Z) (index : Z)
  : Completion (NodeInfo.t * Z) :=
  _ ← assert_bytes binary index 2;
  let type := Z.shiftr (byte_at binary index) 4 in
  let child := NodeInfo.set_type type child in
  let tinyValue := Z.land (byte_at binary index) 15 in
  let valueInfo := byte_at binary (index + 1) in
  let isRemoved := type =? 0 in
  let isTinyValue := Z.land valueInfo 192 =? 64 in
  let isInlineValue := Z.land valueInfo 192 =? 128 in
  let isRecordValue := Z.land valueInfo 192 =? 192 in
  let index := index + 2 in
  if isRemoved
  then Throw (Error "corrupt: removed child data isn't implemented yet")
  else if isTinyValue
  then
    if type =? VALUE_TYPES.BOOLEAN
    then Normal (NodeInfo.set_value (VBoolean (tinyValue =? 1)) child, index)
    else if type =? VALUE_TYPES.NUMBER
    then Normal (NodeInfo.set_value (VNumber (number_of_Z tinyValue)) child, index)
    else if type =? VALUE_TYPES.STRING
    then Normal (NodeInfo.set_value (VString "") child, index)
    else if type =? VALUE_TYPES.ARRAY
    then Normal (NodeInfo.set_value (VArray []) child, index)
    else if type =? VALUE_TYPES.OBJECT
    then Normal (NodeInfo.set_value (VObject []) child, index)
    else if type =? VALUE_TYPES.BINARY
    then Normal (NodeInfo.set_value (VArrayBuffer []) child, index)
    else if type =? VALUE_TYPES.REFERENCE
    then Normal (NodeInfo.set_value (VPathReference "") child, index)
    else Throw (ThrownString
                  ("Tiny value deserialization method missing for value type " +:+ pretty type))
  else if isInlineValue
  then
    let length := Z.land valueInfo 63 + 1 in
    _ ← assert_bytes binary index length;
    let bytes := slice binary index (index + length) in
    if type =? VALUE_TYPES.NUMBER
    then Normal (NodeInfo.set_value (VNumber (bytesToNumber bytes)) child, index + length)
    else if type =? VALUE_TYPES.STRING
    then Normal (NodeInfo.set_value (VString (textDecoder_decode (new_Uint8Array bytes))) child,
                 index + length)
    else if type =? VALUE_TYPES.DATETIME
    then
      let time := bytesToNumber bytes in
      Normal (NodeInfo.set_value (VDate (TimeClip time)) child, index + length)
    else if type =? VALUE_TYPES.ARRAY
    then Throw (Error "Inline array deserialization not implemented")
    else if type =? VALUE_TYPES.OBJECT
    then Throw (Error "Inline object deserialization not implemented")
    else if type =? VALUE_TYPES.BINARY
    then Normal (NodeInfo.set_value (VArrayBuffer (new_Uint8Array bytes)) child, index + length)
    else if type =? VALUE_TYPES.REFERENCE
    then Normal (NodeInfo.set_value
                   (VPathReference (textDecoder_decode (new_Uint8Array bytes))) child,
                 index + length)
    else Throw (ThrownString
                  ("Inline value deserialization method missing for value type "
                   +:+ pretty type))
  else if isRecordValue
  then
    _ ← assert_bytes binary index 6;
    let pageNr := getUint32 binary index in
    let recordNr := getUint16 binary (index + 4) in
    let childAddress := NodeAddress.new (childPath_of child) (Some pageNr) (Some recordNr) in
    let child := NodeInfo.set_address childAddress child in
    if NodeAddress.equals childAddress this_address
    then Throw (Error "Circular reference in record data")
    else Normal (child, index + 6)
  else Throw (Error "corrupt").
End ChildStream.

(** ** Record header and chunk table *)

(** [Math.ceil(a / b)] for a size [a] and a positive record size [b]. *)
Definition ceil_div (a b : Z) : Z := (a + b - 1) / b.

Module StorageNeeds.
Record t := mk {
  headerBytes : Z;
  totalBytes : Z;
  requiredRecords : Z;
  lastChunkSize : Z
}.
End StorageNeeds.

(** [calculateStorageNeeds(nrOfChunks)] inside [_write], for a body of
    [bytes_length] bytes. *)
Definition calculateStorageNeeds (bytes_length bytesPerRecord nrOfChunks : Z) : StorageNeeds.t :=
  let headerBytes := 4 in
  let totalBytes := bytes_length + headerBytes in
  let requiredRecords := ceil_div totalBytes bytesPerRecord in
  let '(headerBytes, totalBytes, requiredRecords) :=
    if 1 <? requiredRecords
    then
      let headerBytes := headerBytes + 3 + (nrOfChunks - 1) * 9 in
      let totalBytes := bytes_length + headerBytes in
      (headerBytes, totalBytes, ceil_div totalBytes bytesPerRecord)
    else (headerBytes, totalBytes, requiredRecords) in
  let lastChunkSize :=
    if requiredRecords =? 1 then bytes_length else totalBytes mod bytesPerRecord in
  let lastChunkSize :=
    if (lastChunkSize =? 0) && (0 <? bytes_length) then bytesPerRecord else lastChunkSize in
  StorageNeeds.mk headerBytes totalBytes requiredRecords lastChunkSize.

(** A [DataView] setter: writes [bs] at [offset], or throws outside the view. *)
Definition view_set (header : list Z) (offset : Z) (bs : list Z) : Completion (list Z) :=
  if (offset <? 0) || (len header <? offset + len bs)
  then Throw (Error "RangeError: Offset is outside the bounds of the DataView")
  else Normal (firstn (Z.to_nat offset) header ++ bs
               ++ skipn (Z.to_nat (offset + len bs)) header).

(** The body of [chunkTable.ranges.forEach] in [_write], on the header and
    the running [offset]. *)
Definition write_chunk_entry (range : NodeChunkTableRange.t) (st : list Z * Z)
  : Completion (list Z * Z) :=
  let '(header, offset) := st in
  header ← view_set header offset [ToUint8 (NodeChunkTableRange.type range)];
  if NodeChunkTableRange.type range =? 0
  then Normal (header, offset)
  else if NodeChunkTableRange.type range =? 1
  then
    header ← view_set header (offset + 1) (uint16_bytes (NodeChunkTableRange.length range));
    Normal (header, offset + 3)
  else if NodeChunkTableRange.type range =? 2
  then
    header ← view_set header (offset + 1) (uint32_bytes (NodeChunkTableRange.pageNr range));
    header ← view_set header (offset + 5) (uint16_bytes (NodeChunkTableRange.recordNr range));
    header ← view_set header (offset + 7) (uint16_bytes (NodeChunkTableRange.length range));
    Normal (header, offset + 9)
  else Throw (ThrownString "Unsupported range type").

Fixpoint write_chunk_table (ranges : list NodeChunkTableRange.t) (st : list Z * Z)
  : Completion (list Z * Z) :=
  match ranges with
  | [] => Normal st
  | range :: ranges' =>
      st' ← write_chunk_entry range st;
      write_chunk_table ranges' st'
  end.

(** The header that [_write] builds for the allocation it writes to: the
    flags and value type, the chunk table, the terminator and the length of
    the last chunk. *)
Definition _write_header (type : Z) (hasKeyTree : bool) (allocation : NodeAllocation.t)
    (bytes_length bytesPerRecord : Z) : Completion (list Z) :=
  let needs := calculateStorageNeeds bytes_length bytesPerRecord (len allocation) in
  let header := repeat 0 (Z.to_nat (StorageNeeds.headerBytes needs)) in
  let byte0 := if hasKeyTree then Z.lor type FLAG_KEY_TREE else type in
  header ← view_set header 0 [ToUint8 byte0];
  let chunkTable := NodeAllocation.toChunkTable allocation in
  st ← write_chunk_table chunkTable (header, 1);
  let '(header, offset) := st in
  header ← view_set header offset [0];
  let offset := offset + 1 in
  header ← view_set header offset (uint16_bytes (StorageNeeds.lastChunkSize needs));
  Normal header.

(** The state of the loop in [readHeader]: the bytes read so far, the read
    position, the first range and the ranges pushed after it, and the index
    of the last record read. *)
Module HeaderReader.
Record t := mk {
  data : list Z;
  offset : Z;
  firstRange : StorageAddressRange.t;
  moreRanges : list StorageAddressRange.t;
  readingRecordIndex : Z
}.

Definition ranges (st : t) : NodeAllocation.t := firstRange st :: moreRanges st.
End HeaderReader.

Inductive LoopStep (A : Type) :=
| Continue (a : A)
| Break (a : A)
| Fault (e : JsError).
Arguments Continue {A} a.
Arguments Break {A} a.
Arguments Fault {A} e.

Section ReadHeader.
(** [storage.readData] of one record, and the settings of the storage. *)
Variable readRecord : Z -> Z -> list Z.
Variable bytesPerRecord : Z.
Variable pageSize : Z.

(** One turn of the [while (true)] loop of [readAllocationTable]. *)
Definition readAllocationTable_step (st : HeaderReader.t) : LoopStep HeaderReader.t :=
  let data := HeaderReader.data st in
  let offset := HeaderReader.offset st in
  if len data <=? offset + 9 + 2
  then
    let readingRecordIndex := HeaderReader.readingRecordIndex st + 1 in
    match nth_error (NodeAllocation.addresses (HeaderReader.ranges st))
            (Z.to_nat readingRecordIndex) with
    | None => Fault (TypeError "Cannot read property 'pageNr' of undefined")
    | Some address =>
        let moreData :=
          readRecord (StorageAddress.pageNr address) (StorageAddress.recordNr address) in
        Continue (HeaderReader.mk (data ++ moreData) offset (HeaderReader.firstRange st)
                    (HeaderReader.moreRanges st) readingRecordIndex)
    end
  else
    let type := byte_at data offset in
    if type =? 0
    then Break (HeaderReader.mk data (offset + 1) (HeaderReader.firstRange st)
                  (HeaderReader.moreRanges st) (HeaderReader.readingRecordIndex st))
    else if type =? 1
    then
      let first := HeaderReader.firstRange st in
      Continue (HeaderReader.mk data (offset + 3)
                  (StorageAddressRange.mk (StorageAddressRange.pageNr first)
                     (StorageAddressRange.recordNr first) (getUint16 data (offset + 1)))
                  (HeaderReader.moreRanges st) (HeaderReader.readingRecordIndex st))
    else if type =? 2
    then
      let range :=
        StorageAddressRange.mk (getUint32 data (offset + 1)) (getUint16 data (offset + 5))
          (getUint16 data (offset + 7)) in
      Continue (HeaderReader.mk data (offset + 9) (HeaderReader.firstRange st)
                  (HeaderReader.moreRanges st ++ [range]) (HeaderReader.readingRecordIndex st))
    else if type =? 3
    then
      let range :=
        StorageAddressRange.mk (getUint32 data (offset + 1)) 0
          (getUint16 data (offset + 5) * pageSize) in
      Continue (HeaderReader.mk data (offset + 7) (HeaderReader.firstRange st)
                  (HeaderReader.moreRanges st ++ [range]) (HeaderReader.readingRecordIndex st))
    else Continue st.

(** [readAllocationTable()]: the loop, for at most [fuel] turns; [None] when
    the loop has not ended by then. *)
Fixpoint readAllocationTable (fuel : nat) (st : HeaderReader.t)
  : option (Completion HeaderReader.t) :=
  match fuel with
  | O => None
  | S fuel' =>
      match readAllocationTable_step st with
      | Continue st' => readAllocationTable fuel' st'
      | Break st' => Some (Normal st')
      | Fault e => Some (Throw e)
      end
  end.

(** The start of [readHeader]: the first record has been read into [data]. *)
Definition readHeader_start (address : StorageAddress.t) (data : list Z) : HeaderReader.t :=
  HeaderReader.mk data 1
    (StorageAddressRange.mk (StorageAddress.pageNr address) (StorageAddress.recordNr address) 1)
    [] 0.

(** [hasKeyIndex] as [readHeader] computes it. *)
Definition header_hasKeyIndex (data : list Z) : bool :=
  Z.land (byte_at data 0) FLAG_KEY_TREE =? FLAG_KEY_TREE.

(** [valueType] as [readHeader] computes it. *)
Definition header_valueType (data : list Z) : Z :=
  Z.land (byte_at data 0) FLAG_VALUE_TYPE.
End ReadHeader.

(** ** Layout of a node's children *)

Definition BINARY_TREE_FILL_FACTOR_50 : Z := 50.
Definition BINARY_TREE_FILL_FACTOR_95 : Z := 95.

Definition is_digit (c : ascii) : bool :=
  (48 <=? nat_of_ascii c)%nat && (nat_of_ascii c <=? 57)%nat.

(** [/^[0-9]+$/.test(s)] *)
Definition regex_digits_test (s : string) : bool :=
  match list_ascii_of_string s with
  | [] => false
  | cs => forallb is_digit cs
  end.

(** The test of [serialized.every] in [_writeNode]. *)
Definition kvp_numeric (kvp : SerializedKeyValue.t) : bool :=
  bool_decide (is_Some (SerializedKeyValue.index kvp))
  || match SerializedKeyValue.key kvp with
     | Some k => regex_digits_test k
     | None => false
     end.

Inductive NodeLayout :=
| KeyTree (fillFactor : Z)
| LinearList.

Definition minKeysForTreeCreation : Z := 100.

(** The choice [_writeNode] makes once the children are serialized. *)
Definition _writeNode_layout (serialized : list SerializedKeyValue.t) : NodeLayout :=
  if minKeysForTreeCreation <? len serialized
  then KeyTree (if forallb kvp_numeric serialized
                then BINARY_TREE_FILL_FACTOR_50
                else BINARY_TREE_FILL_FACTOR_95)
  else LinearList.

(** The argument [hasKeyTree] that [_writeNode] passes to [_write]. *)
Definition layout_keyTree (layout : NodeLayout) : bool :=
  match layout with KeyTree _ => true | LinearList => false end.

(** The header of the record [_writeNode] writes for an object or an array. *)
Definition _writeNode_header (isArray : bool) (serialized : list SerializedKeyValue.t)
    (allocation : NodeAllocation.t) (bytes_length bytesPerRecord : Z) : Completion (list Z) :=
  _write_header (if isArray then VALUE_TYPES.ARRAY else VALUE_TYPES.OBJECT)
    (layout_keyTree (_writeNode_layout serialized)) allocation bytes_length bytesPerRecord.

Module NodeChange.
Inductive CHANGE_TYPE := UPDATE | DELETE | INSERT.

#[global] Instance CHANGE_TYPE_eq_dec : EqDecision CHANGE_TYPE.
Proof. solve_decision. Defined.

Record t := mk {
  keyOrIndex : PathKey;
  changeType : CHANGE_TYPE;
  oldValue : JsValue;
  newValue : JsValue
}.
End NodeChange.

(** The test of [changes.all.every] in [_mergeNode]. *)
Definition change_numeric (ch : NodeChange.t) : bool :=
  match NodeChange.keyOrIndex ch with
  | KeyIndex _ => true
  | KeyName k => regex_digits_test k
  end.

(** The fill factor [_mergeNode] passes to [tree.toTreeBuilder] when the tree
    has to be rebuilt. *)
Definition _mergeNode_fillFactor (changes : list NodeChange.t) : Z :=
  if forallb change_numeric changes
  then BINARY_TREE_FILL_FACTOR_50
  else BINARY_TREE_FILL_FACTOR_95.

Definition key_numeric (k : PathKey) : bool :=
  match k with
  | KeyIndex _ => true
  | KeyName s => regex_digits_test s
  end.

(** Modelled from the spec: the tree builder of the B+tree module, as far as
    its keys go. [toTreeBuilder] enumerates all entries of the tree into the
    builder, and the pending changes are applied to it: a delete removes the
    key, an update removes and adds it, an insert adds it. *)
Definition builder_remove (k : PathKey) (keys : list PathKey) : list PathKey :=
  List.filter (fun k' => negb (bool_decide (k' = k))) keys.
Definition builder_add (k : PathKey) (keys : list PathKey) : list PathKey := keys ++ [k].

Definition changes_of (ct : NodeChange.CHANGE_TYPE) (changes : list NodeChange.t)
  : list NodeChange.t :=
  List.filter (fun ch => bool_decide (NodeChange.changeType ch = ct)) changes.

(** The keys of the tree that [_mergeNode] rebuilds. *)
Definition rebuilt_tree_keys (treeKeys : list PathKey) (changes : list NodeChange.t)
  : list PathKey :=
  let keys :=
    fold_left (fun ks ch => builder_remove (NodeChange.keyOrIndex ch) ks)
      (changes_of NodeChange.DELETE changes) treeKeys in
  let keys :=
    fold_left (fun ks ch =>
                 builder_add (NodeChange.keyOrIndex ch)
                   (builder_remove (NodeChange.keyOrIndex ch) ks))
      (changes_of NodeChange.UPDATE changes) keys in
  fold_left (fun ks ch => builder_add (NodeChange.keyOrIndex ch) ks)
    (changes_of NodeChange.INSERT changes) keys.

(** ** Keys that look numeric, in the words of the fill factor policy *)

(** A key looks numeric when it is an array index, or a name made of one or
    more decimal digits. *)
Definition numeric_looking (k : PathKey) : Prop :=
  match k with
  | KeyIndex _ => True
  | KeyName s =>
      s <> EmptyString
      /\ forall c, In c (list_ascii_of_string s) -> (48 <= nat_of_ascii c <= 57)%nat
  end.

(** The key of a serialized child: its index, or else its name. *)
Definition kvp_key (kvp : SerializedKeyValue.t) : option PathKey :=
  match SerializedKeyValue.index kvp with
  | Some i => Some (KeyIndex i)
  | None => KeyName <$> SerializedKeyValue.key kvp
  end.

Definition kvp_numeric_looking (kvp : SerializedKeyValue.t) : Prop :=
  exists k, kvp_key kvp = Some k /\ numeric_looking k.

(** ** The update entry point *)

Module PathInfo.
(** The result of [getPathInfo]: [parent] is [None] for [null]. *)
Record t := mk {
  parent : option string;
  key : PathKey
}.
End PathInfo.

Module UpdateOptions.
Record t := mk {
  merge : bool;
  tid : option string;
  _internal : bool
}.
End UpdateOptions.

Module WriteResult.
(** What [_mergeNode] and [_createNode] resolve with. *)
Record t := mk {
  recordMoved : bool;
  valueType : Z;
  address : NodeAddress.t;
  deallocate : option NodeAllocation.t
}.
End WriteResult.

(** A computed property name: [{ [key]: value }]. *)
Definition property_name (k : PathKey) : string :=
  match k with KeyName s => s | KeyIndex i => pretty i end.

(** [Object.keys(value)] *)
Definition Object_keys_value (v : JsValue) : Completion (list string) :=
  match v with
  | VUndefined | VNull => Throw (TypeError "Cannot convert undefined or null to object")
  | VObject props => Normal (map fst props)
  | VArray items => Normal (map (fun i => pretty (Z.of_nat i)) (seq 0 (length items)))
  | VString s => Normal (map (fun i => pretty (Z.of_nat i)) (seq 0 (length (charCodes s))))
  | VInternalNodeReference _ _ => Normal ["type"; "_address"]
  | VPathReference _ => Normal ["path"]
  | _ => Normal []
  end.

(** A promise with the callbacks chained on it, and what becomes of it.
    [Fulfilled a v s]: resolved with [a] when the call that made it returns,
    in the state [s]. [Failed e v s]: rejected with [e]. [Pending v s k]:
    not settled when the call returns, in the state [s], as the promise of a
    queued lock is; when it is settled later, in the state [s'] of that
    moment, the callbacks chained on it run, and [k s'] is the promise from
    there on. [v] holds the variables that the callbacks share. [OutOfFuel]:
    the promise depends on a call of [Node.update] that the fuel of the
    model does not reach. *)
Inductive Outcome (V S A : Type) : Type :=
| Fulfilled (a : A) (v : V) (s : S)
| Failed (e : JsError) (v : V) (s : S)
| Pending (v : V) (s : S) (k : S -> Outcome V S A)
| OutOfFuel.
Arguments Fulfilled {V S A} a v s.
Arguments Failed {V S A} e v s.
Arguments Pending {V S A} v s k.
Arguments OutOfFuel {V S A}.

(** [promise.then(callback)] *)
Fixpoint then_ {V S A B} (o : Outcome V S A) (callback : A -> V -> S -> Outcome V S B)
  : Outcome V S B :=
  match o with
  | Fulfilled a v s => callback a v s
  | Failed e v s => Failed e v s
  | Pending v s k => Pending v s (fun s' => then_ (k s') callback)
  | OutOfFuel => OutOfFuel
  end.

(** [promise.catch(callback)] *)
Fixpoint catch_ {V S A} (o : Outcome V S A) (callback : JsError -> V -> S -> Outcome V S A)
  : Outcome V S A :=
  match o with
  | Fulfilled a v s => Fulfilled a v s
  | Failed e v s => callback e v s
  | Pending v s k => Pending v s (fun s' => catch_ (k s') callback)
  | OutOfFuel => OutOfFuel
  end.

(** A promise made by a function with variables of its own, adopted by
    callbacks whose variables are [v]. *)
Fixpoint with_var {V V' S A} (v : V') (o : Outcome V S A) : Outcome V' S A :=
  match o with
  | Fulfilled a _ s => Fulfilled a v s
  | Failed e _ s => Failed e v s
  | Pending _ s k => Pending v s (fun s' => with_var v (k s'))
  | OutOfFuel => OutOfFuel
  end.


(** What a call of [Node.update] gives back: it throws before a promise
    exists, or it returns a promise. *)
Inductive UpdateResult (S : Type) :=
| Threw (e : JsError)
| Returned (o : Outcome unit S bool).
Arguments Threw {S} e.
Arguments Returned {S} o.

Section NodeUpdate.
(** Everything outside the lock list: the file, the address cache, the
    free-space table, subscriptions and indexes. *)
Variable World : Type.
Variable getPathKeys : string -> list PathKey.
Variable sort_pending : list NodeLock.t -> list NodeLock.t.
Variable getPathInfo : string -> PathInfo.t.
Variable textEncoder_encode : string -> list Z.
Variable maxInlineValueSize : Z.
Variable ID_generate : World -> string.
(** [storage.subscriptions]: the data paths of the subscriptions found. *)
Variable getValueSubscribersForPath : World -> string -> list string.

Definition State : Type := World * NodeLock.Store.
Definition Async (A : Type) : Type := State -> Outcome unit State A.

(** [Node.locate], [reader.getValue], [_mergeNode], [_createNode]. *)
Variable Node_locate : string -> string -> Async NodeInfo.t.
Variable reader_getValue : option NodeAddress.t -> nat -> option (list string) -> Async JsValue.
Variable _mergeNode : NodeInfo.t -> JsValue -> nat -> Async WriteResult.t.
Variable _createNode : NodeInfo.t -> JsValue -> nat -> Async WriteResult.t.
(** [storage.FST.release] and the block that fires index updates and events. *)
Variable FST_release : list StorageAddressRange.t -> World -> World.
Variable fire_events : string -> string -> JsValue -> JsValue -> bool -> World -> Completion World.

(** A step of the promise chain: it reads and assigns the variable [lock]
    that the callbacks of [Node.update] share. *)
Definition Chain (A : Type) : Type := option nat -> State -> Outcome (option nat) State A.

Definition chain_ret {A} (a : A) : Chain A :=
  fun lock s => Fulfilled a lock s.

(** [.then(callback)] *)
Definition chain_then {A B} (c : Chain A) (k : A -> Chain B) : Chain B :=
  fun lock s => then_ (c lock s) k.

(** [.catch(callback)] *)
Definition chain_catch {A} (c : Chain A) (h : JsError -> Chain A) : Chain A :=
  fun lock s => catch_ (c lock s) h.

Definition chain_async {A} (f : Async A) : Chain A :=
  fun lock s => with_var lock (f s).

(** The promise of [NodeLock.lock], [lock.moveTo] and [lock.moveToParent].
    When the request is queued, the lock object is the one that the call
    has just made, with the identity [next_id] of the state it was called
    in; [_processLockQueue] resolves the promise with that object once it
    has granted it ([.then(lock.resolve)]), and the callbacks run in the
    state of that moment. The retry of a queued lock does not reject, so
    [lock.reject] is not called. *)
Definition chain_locks (f : NodeLock.Store -> NodeLock.Promise nat * NodeLock.Store)
  : Chain nat :=
  fun lock s =>
    let queued := NodeLock.next_id (snd s) in
    match f (snd s) with
    | (NodeLock.Resolved l, ls) => Fulfilled l lock (fst s, ls)
    | (NodeLock.Rejected e, ls) => Failed e lock (fst s, ls)
    | (NodeLock.Waiting, ls) => Pending lock (fst s, ls) (fun s' => Fulfilled queued lock s')
    end.

(** A callback that throws rejects the promise of its [then]. *)
Definition chain_completion {A} (c : Completion A) : Chain A :=
  fun lock s =>
    match c with
    | Normal a => Fulfilled a lock s
    | Throw e => Failed e lock s
    end.

Definition set_lock (l : nat) : Chain unit :=
  fun _ s => Fulfilled tt (Some l) s.

Definition get_lock : Chain (option nat) :=
  fun lock s => Fulfilled lock lock s.

Definition get_state : Chain State :=
  fun lock s => Fulfilled s lock s.

Definition set_world (w : World) : Chain unit :=
  fun lock s => Fulfilled tt lock (w, snd s).

(** [lock && lock.release(comment)]: the promise of [release] is dropped. *)
Definition release_if_set : Chain unit :=
  fun lock s =>
    match lock with
    | Some l =>
        Fulfilled tt lock (fst s, snd (NodeLock.release getPathKeys sort_pending l (snd s)))
    | None => Fulfilled tt lock s
    end.

(** The path of the first element of [eventPaths] once sorted by number of
    keys: the first data path with the fewest keys. *)
Fixpoint first_shortest (best : string) (dataPaths : list string) : string :=
  match dataPaths with
  | [] => best
  | p :: dataPaths' =>
      if (length (getPathKeys p) <? length (getPathKeys best))%nat
      then first_shortest p dataPaths'
      else first_shortest best dataPaths'
  end.

(** [topEventPath] and [hasValueSubscribers]. *)
Definition top_event (p : string) (options : UpdateOptions.t) (w : World) : string * bool :=
  let eventSubscriptions :=
    if UpdateOptions._internal options then [] else getValueSubscribersForPath w p in
  match eventSubscriptions with
  | [] => (p, false)
  | first :: others => (first_shortest first others, true)
  end.

(** The callbacks of the chain up to the point where the target node has
    been located under the moved lock: they give the node and the value read
    at the top event path. *)
Definition update_prepare (p : string) (value : JsValue) (options : UpdateOptions.t)
    (tid : string) (topEventPath : string) (hasValueSubscribers : bool)
  : Chain (NodeInfo.t * JsValue) :=
  chain_then
    (chain_locks (NodeLock.lock getPathKeys topEventPath tid true
                    ("Node.update (get topEventPath " +:+ quoted_path topEventPath +:+ ")")
                    false false))
    (fun l =>
  chain_then (set_lock l) (fun _ =>
  chain_then (chain_async (Node_locate topEventPath tid)) (fun eventNodeInfo =>
  chain_then
    (if negb (NodeInfo.exists_ eventNodeInfo) || UpdateOptions._internal options
     then chain_ret VNull
     else
       chain_then
         (if negb hasValueSubscribers && UpdateOptions.merge options
          then chain_then (chain_completion (Object_keys_value value))
                 (fun keys => chain_ret (Some keys))
          else chain_ret None)
         (fun include =>
            chain_async (reader_getValue (NodeInfo.address eventNodeInfo) l include)))
    (fun topEventData =>
  chain_then (chain_locks (NodeLock.moveTo getPathKeys sort_pending l p true)) (fun l' =>
  chain_then (set_lock l') (fun _ =>
  chain_then (chain_async (Node_locate p tid)) (fun nodeInfo =>
  chain_ret (nodeInfo, topEventData)))))))).

(** The callback that merges into the record of the node or overwrites it. *)
Definition update_write (value : JsValue) (options : UpdateOptions.t) (nodeInfo : NodeInfo.t)
  : Chain WriteResult.t :=
  chain_then get_lock (fun lock =>
    match lock with
    | None => chain_completion (Throw (TypeError "lock is undefined"))
    | Some l =>
        if NodeInfo.exists_ nodeInfo
           && bool_decide (is_Some (NodeInfo.address nodeInfo))
           && UpdateOptions.merge options
        then chain_async (_mergeNode nodeInfo value l)
        else chain_async (_createNode nodeInfo value l)
    end).

Section WithRecursion.
(** The calls of [Node.update] from inside [Node.update]; [None] when the
    fuel does not reach the call. *)
Variable recur : string -> JsValue -> UpdateOptions.t -> State -> option (UpdateResult State).

(** A call of [Node.update] from a callback: its promise is adopted, and a
    throw rejects. *)
Definition chain_recur (p : string) (value : JsValue) (options : UpdateOptions.t)
  : Chain bool :=
  fun lock s =>
    match recur p value options s with
    | None => OutOfFuel
    | Some (Threw e) => Failed e lock s
    | Some (Returned o) => with_var lock o
    end.

(** [parentUpdatePromise]: the parent is updated when the record moved. The
    lock is on [p] when it is moved to the parent, so that
    [getPathInfo(this.path).parent] is the parent of [p]. *)
Definition update_parent (p : string) (result : WriteResult.t) : Chain bool :=
  let pathInfo := getPathInfo p in
  match PathInfo.parent pathInfo with
  | Some parentPath =>
      if WriteResult.recordMoved result
      then
        chain_then get_lock (fun lock =>
          match lock with
          | None => chain_completion (Throw (TypeError "lock is undefined"))
          | Some l =>
              chain_then
                (chain_locks (NodeLock.moveToParent getPathKeys sort_pending l parentPath))
                (fun parentLock =>
              chain_then (set_lock parentLock) (fun _ =>
              chain_then get_state (fun st =>
              let tid := match NodeLock.get parentLock (snd st) with
                         | Some this => NodeLock.tid this
                         | None => EmptyString
                         end in
              chain_then
                (chain_recur parentPath
                   (VObject [(property_name (PathInfo.key pathInfo),
                              VInternalNodeReference (WriteResult.valueType result)
                                (WriteResult.address result))])
                   (UpdateOptions.mk true (Some tid) true))
                (fun _ => chain_ret true))))
          end)
      else chain_ret false
  | None => chain_ret false
  end.

(** The callback that runs once the record is written: after the parent
    update the lock is released, freed records go back to the free-space
    table and events fire. *)
Definition update_finish (p : string) (value : JsValue) (options : UpdateOptions.t)
    (topEventPath : string) (topEventData : JsValue) (result : WriteResult.t)
  : Chain bool :=
  chain_then (update_parent p result) (fun parentUpdated =>
  chain_then release_if_set (fun _ =>
  chain_then get_state (fun st =>
  chain_then
    (match WriteResult.deallocate result with
     | Some deallocate =>
         if 0 <? NodeAllocation.totalAddresses deallocate
         then set_world (FST_release deallocate (fst st))
         else chain_ret tt
     | None => chain_ret tt
     end)
    (fun _ =>
  chain_then get_state (fun st =>
  chain_then
    (if negb (UpdateOptions._internal options)
     then chain_then
            (chain_completion
               (fire_events p topEventPath topEventData value
                  (UpdateOptions.merge options) (fst st)))
            set_world
     else chain_ret tt)
    (fun _ => chain_ret true)))))).

(** The handler of the final [.catch]. *)
Definition update_catch (err : JsError) : Chain bool :=
  chain_then release_if_set (fun _ => chain_ret false).

(** The promise chain of [Node.update], from [NodeLock.lock] to [.catch],
    with the variable [lock] not yet assigned. *)
Definition update_callbacks (p : string) (value : JsValue) (options : UpdateOptions.t)
    (tid : string) (topEventPath : string) (hasValueSubscribers : bool) : Chain bool :=
  chain_catch
    (chain_then
       (update_prepare p value options tid topEventPath hasValueSubscribers)
       (fun prepared =>
     chain_then (update_write value options (fst prepared)) (fun result =>
     update_finish p value options topEventPath (snd prepared) result)))
    update_catch.

(** The promise that [Node.update] returns. *)
Definition update_chain (p : string) (value : JsValue) (options : UpdateOptions.t)
    (tid : string) (s : State) : Outcome unit State bool :=
  let '(topEventPath, hasValueSubscribers) := top_event p options (fst s) in
  with_var tt
    (update_callbacks p value options tid topEventPath hasValueSubscribers None s).

(** [Node.update(storage, path, value, options)], with its own calls of
    [Node.update] given by [recur]. A parent path of [null] is not a path of
    this model: the call on it is rendered as a throw. *)
Definition update_body (p : string) (value : JsValue) (options : UpdateOptions.t) (s : State)
  : option (UpdateResult State) :=
  let tid := match UpdateOptions.tid options with
             | Some t => if bool_decide (t = EmptyString) then ID_generate (fst s) else t
             | None => ID_generate (fst s)
             end in
  let pathInfo := getPathInfo p in
  let on_parent (v : JsValue) :=
    match PathInfo.parent pathInfo with
    | Some parentPath =>
        recur parentPath (VObject [(property_name (PathInfo.key pathInfo), v)])
          (UpdateOptions.mk true (Some tid) false) s
    | None => Some (Threw (TypeError "path is null"))
    end in
  match value with
  | VNull => on_parent VNull
  | _ =>
      match
        (if bool_decide (p = EmptyString) then Normal false
         else _valueFitsInline textEncoder_encode maxInlineValueSize value)
      with
      | Throw e => Some (Threw e)
      | Normal true => on_parent value
      | Normal false => Some (Returned (update_chain p value options tid s))
      end
  end.
End WithRecursion.

(** [Node.update], each call inside it spending one unit of [fuel]. *)
Fixpoint update (fuel : nat) (p : string) (value : JsValue) (options : UpdateOptions.t)
    (s : State) : option (UpdateResult State) :=
  match fuel with
  | O => None
  | S fuel' => update_body (update fuel') p value options s
  end.
End NodeUpdate.




(** ** An inline child written and read back *)

(** Text as the sequence of its UTF-8 bytes: a [string] holds the bytes, the
    encoder lists them and the decoder collects them. Used to run the codec
    on concrete text. *)
Definition text_bytes (s : string) : list Z :=
  map (fun c => Z.of_nat (nat_of_ascii c)) (list_ascii_of_string s).
Definition bytes_text (bs : list Z) : string :=
  string_of_list_ascii (map (fun b => ascii_of_nat (Z.to_nat b)) bs).

Section RoundTrip.
Variable numberToBytes : number -> list Z.
Variable bytesToNumber : list Z -> number.
Variable textEncoder_encode : string -> list Z.
Variable textDecoder_decode : list Z -> string.
Variable maxInlineValueSize : Z.
Variable this_address : NodeAddress.t.

(** The value of the child [key] of an object is serialized with
    [_serializeValue] and [_getValueBytes], the bytes are stored in the
    record of the parent, and the child entry is decoded from them. The
    result is the [value] of the decoded child. *)
Definition write_then_read (key : string) (v : JsValue) : Completion (option JsValue) :=
  s ← _serializeValue numberToBytes textEncoder_encode maxInlineValueSize (KeyName key) v;
  match s with
  | RecordPromise _ _ => Throw (Error "the value goes to a record of its own")
  | Kvp kvp =>
      bytes ← _getValueBytes kvp;
      r ← getValueFromBinary bytesToNumber textDecoder_decode false this_address
            (NodeInfo.mk None None None (Some key) true None None)
            (new_Uint8Array bytes) 0;
      Normal (NodeInfo.value (fst r))
  end.
End RoundTrip.

(** ** More of allocations and record info *)

(** The loop of [NodeAllocation.fromAdresses] from index [i] on: [range] is
    the range being grown, the last one of [ranges]. *)
Fixpoint fromAdresses_from (range : StorageAddressRange.t) (records : list StorageAddress.t)
  : list StorageAddressRange.t :=
  match records with
  | [] => [range]
  | record :: records' =>
      if negb (bool_decide (StorageAddress.pageNr record = StorageAddressRange.pageNr range))
         || negb (bool_decide (StorageAddress.recordNr record
                               = StorageAddressRange.recordNr range
                                 + StorageAddressRange.length range))
      then range
           :: fromAdresses_from
                (StorageAddressRange.mk (StorageAddress.pageNr record)
                   (StorageAddress.recordNr record) 1)
                records'
      else fromAdresses_from
             (StorageAddressRange.mk (StorageAddressRange.pageNr range)
                (StorageAddressRange.recordNr range) (StorageAddressRange.length range + 1))
             records'
  end.

(** [NodeAllocation.fromAdresses(records)]; [records[0]] is [undefined] on
    an empty array, and reading its [pageNr] throws. *)
Definition fromAdresses (records : list StorageAddress.t) : Completion NodeAllocation.t :=
  match records with
  | [] => Throw (TypeError "Cannot read property 'pageNr' of undefined")
  | record :: records' =>
      Normal (fromAdresses_from
                (StorageAddressRange.mk (StorageAddress.pageNr record)
                   (StorageAddress.recordNr record) 1)
                records')
  end.

Module RecordInfo.
(** The fields of [RecordInfo] that the byte counts are computed from. *)
Record t := mk {
  allocation : NodeAllocation.t;
  headerLength : Z;
  lastRecordLength : Z;
  bytesPerRecord : Z
}.

(** [get totalByteLength()] *)
Definition totalByteLength (this : t) : Z :=
  match allocation this with
  | [range] =>
      if bool_decide (StorageAddressRange.length range = 1)
      then lastRecordLength this
      else (NodeAllocation.totalAddresses (allocation this) - 1) * bytesPerRecord this
           + lastRecordLength this
  | _ =>
      (NodeAllocation.totalAddresses (allocation this) - 1) * bytesPerRecord this
      + lastRecordLength this
  end.
End RecordInfo.

Definition maxRecordsPerChunk : Z := 200.

(** The loop [while (chunk.length > maxRecordsPerChunk)] of [getDataStream],
    with the [chunks.push(chunk)] that follows it: the chunks pushed for
    [chunk]. *)
Equations split_chunk (chunk : StorageAddressRange.t) : list StorageAddressRange.t
  by wf (Z.to_nat (StorageAddressRange.length chunk)) lt :=
  split_chunk chunk with inspect (maxRecordsPerChunk <? StorageAddressRange.length chunk) := {
    | exist _ true Hlt =>
        StorageAddressRange.mk (StorageAddressRange.pageNr chunk)
          (StorageAddressRange.recordNr chunk) maxRecordsPerChunk
        :: split_chunk
             (StorageAddressRange.mk (StorageAddressRange.pageNr chunk)
                (StorageAddressRange.recordNr chunk + maxRecordsPerChunk)
                (StorageAddressRange.length chunk - maxRecordsPerChunk))
    | exist _ false _ => [chunk]
  }.
Next Obligation.
  intros. apply Z.ltb_lt in Hlt. unfold maxRecordsPerChunk in *. simpl. lia.
Qed.

(** The body of [ranges.forEach((range, i) => ...)] in [getDataStream]: the
    chunks pushed for the range at index [i]. *)
Definition range_chunks (i : nat) (range : StorageAddressRange.t)
  : list StorageAddressRange.t :=
  if bool_decide (i = 0%nat) && (1 <? StorageAddressRange.length range)
  then StorageAddressRange.mk (StorageAddressRange.pageNr range)
         (StorageAddressRange.recordNr range) 1
       :: split_chunk
            (StorageAddressRange.mk (StorageAddressRange.pageNr range)
               (StorageAddressRange.recordNr range + 1)
               (StorageAddressRange.length range - 1))
  else split_chunk range.

(** The array [chunks] that [getDataStream] builds from the ranges of the
    allocation. *)
Definition dataStream_chunks (ranges : NodeAllocation.t) : list StorageAddressRange.t :=
  concat (imap range_chunks ranges).

(** [chunkLength] for the range at index [i]. *)
Definition chunkLength (ranges : NodeAllocation.t) (bytesPerRecord lastRecordLength : Z)
    (i : nat) (range : StorageAddressRange.t) : Z :=
  let chunkLength := StorageAddressRange.length range * bytesPerRecord in
  if bool_decide (Z.of_nat i = len ranges - 1)
  then chunkLength - bytesPerRecord + lastRecordLength
  else chunkLength.

(** [totalBytes] as [getDataStream] adds it up. *)
Definition dataStream_totalBytes (ranges : NodeAllocation.t)
    (bytesPerRecord lastRecordLength : Z) : Z :=
  fold_left (fun totalBytes c => totalBytes + c)
    (imap (chunkLength ranges bytesPerRecord lastRecordLength) ranges) 0.

(** ** The cache and the lock list: what their callers rely on *)

(** The names that the object literal [_nodeAddressCache] inherits from
    [Object.prototype]. Looked up in the cache they give the inherited value
    and not [undefined]; the cache is modelled for the other keys. *)
Definition Object_prototype_names : list string :=
  ["constructor"; "__defineGetter__"; "__defineSetter__"; "hasOwnProperty";
   "__lookupGetter__"; "__lookupSetter__"; "isPrototypeOf"; "propertyIsEnumerable";
   "toString"; "valueOf"; "__proto__"; "toLocaleString"].

(** An own property name occurs once in an object. *)
Definition cache_ok (c : Cache) : Prop := NoDup (Object_keys c).


(** Two locks that are both [LOCKED], of different transactions and on the
    same path are both for reading. *)
Definition exclusive (ls : list NodeLock.t) : Prop :=
  forall l1 l2, In l1 ls -> In l2 ls ->
    NodeLock.state l1 = NodeLock.LOCKED -> NodeLock.state l2 = NodeLock.LOCKED ->
    NodeLock.tid l1 <> NodeLock.tid l2 -> NodeLock.path l1 = NodeLock.path l2 ->
    NodeLock.forWriting l1 = false /\ NodeLock.forWriting l2 = false.

(** The locks of the list are distinct objects, and the counter that names
    new objects is above their identities. *)
Definition ids_ok (s : NodeLock.Store) : Prop :=
  NoDup (map NodeLock.id (NodeLock._locks s))
  /\ Forall (fun l => (NodeLock.id l < NodeLock.next_id s)%nat) (NodeLock._locks s).

(** A lock list to run the lock manager on: transaction [t1] holds a read
    lock on [users], and its write lock on [users/ewout] is queued behind
    the write lock of [t2]. *)
Definition sample_locks : NodeLock.Store :=
  NodeLock.mkStore
    [NodeLock.mk 0 "t1" "users" false false NodeLock.LOCKED 10 (Some 10) (Some 900010)
       "read users" None;
     NodeLock.mk 1 "t2" "users/ewout" true false NodeLock.LOCKED 11 (Some 11) (Some 900011)
       "write ewout" None;
     NodeLock.mk 2 "t1" "users/ewout" true false NodeLock.PENDING 12 None None
       "write ewout" (Some 1%nat)]
    3 20.

(** ** A child written and read back, with its address *)

Section RoundTripInfo.
Variable numberToBytes : number -> list Z.
Variable bytesToNumber : list Z -> number.
Variable textEncoder_encode : string -> list Z.
Variable textDecoder_decode : list Z -> string.
Variable maxInlineValueSize : Z.
Variable isArray : bool.
Variable this_address : NodeAddress.t.

(** As [write_then_read], giving the child as [getValueFromBinary] leaves it
    and the index after the entry. [child] is the [NodeInfo] the reader has
    set up for the entry. *)
Definition write_then_read_info (keyOrIndex : PathKey) (v : JsValue) (child : NodeInfo.t)
  : Completion (NodeInfo.t * Z) :=
  s ← _serializeValue numberToBytes textEncoder_encode maxInlineValueSize keyOrIndex v;
  match s with
  | RecordPromise _ _ => Throw (Error "the value goes to a record of its own")
  | Kvp kvp =>
      bytes ← _getValueBytes kvp;
      getValueFromBinary bytesToNumber textDecoder_decode isArray this_address
        child (new_Uint8Array bytes) 0
  end.
End RoundTripInfo.

(** The values of a byte array. *)
Definition is_bytes (bs : list Z) : Prop := Forall (fun b => 0 <= b < 256) bs.

(** ** The chunk table as bytes *)

(** A range whose page number fits four bytes, and whose record number and
    length fit two. *)
Definition encodable (r : StorageAddressRange.t) : Prop :=
  0 <= StorageAddressRange.pageNr r < 2 ^ 32
  /\ 0 <= StorageAddressRange.recordNr r < 2 ^ 16
  /\ 0 <= StorageAddressRange.length r < 2 ^ 16.

(** The bytes of [data] from [offset] on hold one entry of type 2 for each
    of [ranges], in order. *)
Fixpoint table_at (data : list Z) (offset : Z) (ranges : list StorageAddressRange.t) : Prop :=
  match ranges with
  | [] => True
  | range :: ranges' =>
      byte_at data offset = 2
      /\ getUint32 data (offset + 1) = StorageAddressRange.pageNr range
      /\ getUint16 data (offset + 5) = StorageAddressRange.recordNr range
      /\ getUint16 data (offset + 7) = StorageAddressRange.length range
      /\ table_at data (offset + 9) ranges'
  end.

(** The entry of type 2 that [toChunkTable] makes for a range. *)
Definition entry2 (range : StorageAddressRange.t) : NodeChunkTableRange.t :=
  NodeChunkTableRange.mk 2 (StorageAddressRange.pageNr range)
    (StorageAddressRange.recordNr range) (StorageAddressRange.length range).

(** ** Children stored as a linear list *)

(** [String.fromCharCode] on each of [codes], joined. *)
Definition String_fromCharCodes (codes : list Z) : string :=
  string_of_list_ascii
    (map (fun b => ascii_of_nat (Z.to_nat b)) (concat (map fromCharCode_bytes codes))).

Section LinearWriter.
(** [storage.KIT.getOrAdd(key)]: the index the key index table has for the
    key, -1 when it has none. *)
Variable KIT_getOrAdd : string -> Z.

(** The loop over the characters of a key that is written inline, from the
    character [i] on: the char codes it pushes. *)
Fixpoint key_name_bytes (key : string) (i : Z) (codes : list Z) : Completion (list Z) :=
  match codes with
  | [] => Normal []
  | charCode :: codes' =>
      if charCode >? 255
      then Throw (ThrownString ("Invalid character in key " +:+ key +:+ " at char "
                                +:+ pretty (i + 1)))
      else
        bytes ← key_name_bytes key (i + 1) codes';
        Normal (charCode :: bytes)
  end.

(** The bytes [key_info] of an object property in [_writeNode]. *)
Definition key_info_bytes (key : string) : Completion (list Z) :=
  if string_length key >? 128
  then Throw (ThrownString ("Key " +:+ key +:+ " is too long to store. Max length=128"))
  else
    let keyIndex := KIT_getOrAdd key in
    if 0 <=? keyIndex
    then Normal [Z.lor 128 (Z.land (Z.shiftr keyIndex 8) 127); Z.land keyIndex 255]
    else
      bytes ← key_name_bytes key 0 (charCodes key);
      Normal ((string_length key - 1) :: bytes).

(** The body of [serialized.reduce] in [_writeNode]: the bytes of one
    child. *)
Definition entry_bytes (isArray : bool) (kvp : SerializedKeyValue.t) : Completion (list Z) :=
  keyBytes ← (if isArray then Normal []
              else match SerializedKeyValue.key kvp with
                   | None => Throw (TypeError "Cannot read property 'length' of undefined")
                   | Some key => key_info_bytes key
                   end);
  binaryValue ← _getValueBytes kvp;
  Normal (keyBytes ++ binaryValue).

(** [serialized.reduce(..., new Uint8Array())]: the data of a node whose
    children are stored as a linear list. *)
Fixpoint linear_data (isArray : bool) (serialized : list SerializedKeyValue.t)
    (binary : list Z) : Completion (list Z) :=
  match serialized with
  | [] => Normal binary
  | kvp :: serialized' =>
      bytes ← entry_bytes isArray kvp;
      linear_data isArray serialized' (binary ++ new_Uint8Array bytes)
  end.
End LinearWriter.

Module ChunkReader.
(** The variables of [getChildStream] that outlive a chunk:
    [incompleteData] ([None] is [null]) and [childCount]. *)
Record t := mk {
  incompleteData : option (list Z);
  childCount : Z
}.
End ChunkReader.

Section LinearReader.
Variable bytesToNumber : list Z -> number.
Variable textDecoder_decode : list Z -> string.
Variable this_address : NodeAddress.t.
(** [storage.KIT.keys[keyIndex]] *)
Variable KIT_keys : Z -> option string.
(** [getChildPath] of the utilities module. *)
Variable getChildPath : option string -> option PathKey -> string.
(** [options.keyFilter] *)
Variable keyFilter : option (list PathKey).

(** The [try] block of the loop in [getChildrenFromChunk] up to the call of
    [getValueFromBinary], and that call: the child and the index after it.
    [childCount] has been incremented. *)
Definition read_child (isArray : bool) (binary : list Z) (index childCount : Z)
  : Completion (NodeInfo.t * Z) :=
  if isArray
  then
    let child :=
      NodeInfo.mk
        (Some (getChildPath (NodeAddress.path this_address) (Some (KeyIndex (childCount - 1)))))
        None (Some (childCount - 1)) None true None None in
    getValueFromBinary bytesToNumber textDecoder_decode isArray this_address child binary index
  else
    _ ← assert_bytes binary index 2;
    let keyIndex :=
      if Z.land (byte_at binary index) 128 =? 0 then -1
      else Z.lor (Z.shiftl (Z.land (byte_at binary index) 127) 8)
             (byte_at binary (index + 1)) in
    if 0 <=? keyIndex
    then
      let key := KIT_keys keyIndex in
      let child :=
        NodeInfo.mk (Some (getChildPath (NodeAddress.path this_address) (KeyName <$> key)))
          None None key true None None in
      getValueFromBinary bytesToNumber textDecoder_decode isArray this_address child binary
        (index + 2)
    else
      let keyLength := Z.land (byte_at binary index) 127 + 1 in
      let index := index + 1 in
      _ ← assert_bytes binary index keyLength;
      let key := String_fromCharCodes (slice binary index (index + keyLength)) in
      let child :=
        NodeInfo.mk
          (Some (getChildPath (NodeAddress.path this_address) (Some (KeyName key))))
          None None (Some key) true None None in
      getValueFromBinary bytesToNumber textDecoder_decode isArray this_address child binary
        (index + keyLength).

(** The tests before [children.push(child)]: [false] when the child is
    left out. *)
Definition passes_keyFilter (isArray : bool) (child : NodeInfo.t) : bool :=
  match keyFilter with
  | None => true
  | Some filter =>
      if isArray
      then match NodeInfo.index child with
           | Some i => bool_decide (KeyIndex i ∈ filter)
           | None => false
           end
      else match NodeInfo.key child with
           | Some k => bool_decide (KeyName k ∈ filter)
           | None => false
           end
  end.

Lemma read_child_advances (isArray : bool) (binary : list Z) (index childCount : Z)
    (child : NodeInfo.t) (index' : Z) :
  read_child isArray binary index childCount = Normal (child, index') ->
  index < index' <= len binary.
Proof.
  assert (G : forall c i c' i',
             getValueFromBinary bytesToNumber textDecoder_decode isArray this_address
               c binary i = Normal (c', i') -> i + 2 <= i' <= len binary).
  { intros c i c' i'. unfold getValueFromBinary, assert_bytes.
    destruct (i + 2 >? len binary) eqn:E2; cbn [mbind Completion_bind bindC];
      [discriminate|].
    assert (0 <= Z.land (byte_at binary (i + 1)) 63).
    { apply Z.land_nonneg. right. lia. }
    repeat (case_match; cbn [mbind Completion_bind bindC]; try discriminate);
      intros Hret; inversion Hret; subst; lia. }
  unfold read_child, assert_bytes. destruct isArray.
  - intros H. apply G in H. lia.
  - destruct (index + 2 >? len binary); cbn [mbind Completion_bind bindC]; [discriminate|].
    assert (0 <= Z.land (byte_at binary index) 127).
    { apply Z.land_nonneg. right. lia. }
    destruct (0 <=? _).
    + intros H'. apply G in H'. lia.
    + destruct (_ >? len binary); cbn [mbind Completion_bind bindC]; [discriminate|].
      intros H'. apply G in H'. lia.
Qed.

(** The loop [while (index < binary.length)] of [getChildrenFromChunk]: the
    children pushed, and [incompleteData] and [childCount] as the loop
    leaves them. *)
Equations children_loop (isArray : bool) (binary : list Z) (index childCount : Z)
    (children : list NodeInfo.t) : Completion (list NodeInfo.t * ChunkReader.t)
  by wf (Z.to_nat (len binary - index)) lt :=
  children_loop isArray binary index childCount children
    with inspect (index <? len binary) := {
    | exist _ false _ => Normal (children, ChunkReader.mk None childCount)
    | exist _ true Hlt
        with inspect (read_child isArray binary index (childCount + 1)) := {
        | exist _ (Normal (child, index')) Hread =>
            children_loop isArray binary index' (childCount + 1)
              (if passes_keyFilter isArray child then children ++ [child] else children)
        | exist _ (Throw (TruncatedDataError _)) _ =>
            Normal (children,
                    ChunkReader.mk (Some (skipn (Z.to_nat index) binary)) (childCount + 1))
        | exist _ (Throw err) _ => Throw err
      }
  }.
Next Obligation.
  intros. apply read_child_advances in Hread. apply Z.ltb_lt in Hlt. lia.
Qed.

(** [getChildrenFromChunk(valueType, binary)]: the children it returns and
    the variables it leaves. *)
Definition getChildrenFromChunk (valueType : Z) (binary : list Z) (st : ChunkReader.t)
  : Completion (list NodeInfo.t * ChunkReader.t) :=
  let binary :=
    match ChunkReader.incompleteData st with
    | Some incompleteData => incompleteData ++ binary
    | None => binary
    end in
  if (valueType =? VALUE_TYPES.OBJECT) || (valueType =? VALUE_TYPES.ARRAY)
  then children_loop (valueType =? VALUE_TYPES.ARRAY) binary 0 (ChunkReader.childCount st) []
  else Normal ([], ChunkReader.mk None (ChunkReader.childCount st)).
End LinearReader.

(** Two results of reading children that give the same children and leave
    the same [incompleteData], or throw the same error; [childCount] may
    differ. *)
Definition same_children (r1 r2 : Completion (list NodeInfo.t * ChunkReader.t)) : Prop :=
  match r1, r2 with
  | Normal (c1, s1), Normal (c2, s2) =>
      c1 = c2 /\ ChunkReader.incompleteData s1 = ChunkReader.incompleteData s2
  | Throw e1, Throw e2 => e1 = e2
  | _, _ => False
  end.

(** The children [acc] pushed before those of [r]. *)
Definition with_children (acc : list NodeInfo.t)
    (r : Completion (list NodeInfo.t * ChunkReader.t))
  : Completion (list NodeInfo.t * ChunkReader.t) :=
  match r with
  | Normal (children, st) => Normal (acc ++ children, st)
  | Throw e => Throw e
  end.

Section LinearRoundTrip.
Variable bytesToNumber : list Z -> number.
Variable textDecoder_decode : list Z -> string.
Variable this_address : NodeAddress.t.
Variable KIT_getOrAdd : string -> Z.
Variable KIT_keys : Z -> option string.
Variable getChildPath : option string -> option PathKey -> string.

(** The serialized property [kvp] of an object can be stored in the linear
    list and read back as [child]: it has a key of 1 to 128 code units; if
    the key index table has an index for the key, the index fits 15 bits
    and the table gives the key back for it; if it has none, every char
    code of the key is at most 255 and the key is the string of its char
    codes (its bytes are well-formed UTF-8); and the bytes of its value, as
    [_getValueBytes] writes them, are decoded to [child] by
    [getValueFromBinary] called for that key. *)
Definition kvp_decodes (kvp : SerializedKeyValue.t) (child : NodeInfo.t) : Prop :=
  exists key valueBytes,
    SerializedKeyValue.key kvp = Some key
    /\ 1 <= string_length key <= 128
    /\ (0 <= KIT_getOrAdd key ->
        KIT_getOrAdd key < 32768 /\ KIT_keys (KIT_getOrAdd key) = Some key)
    /\ (KIT_getOrAdd key < 0 ->
        is_bytes (charCodes key) /\ String_fromCharCodes (charCodes key) = key)
    /\ _getValueBytes kvp = Normal valueBytes
    /\ getValueFromBinary bytesToNumber textDecoder_decode false this_address
         (NodeInfo.mk
            (Some (getChildPath (NodeAddress.path this_address) (Some (KeyName key))))
            None None (Some key) true None None)
         (new_Uint8Array valueBytes) 0
       = Normal (child, len valueBytes).
End LinearRoundTrip.

(** A decoding result with its end index moved by [k]. *)
Definition shift_index (k : Z) (r : Completion (NodeInfo.t * Z)) : Completion (NodeInfo.t * Z) :=
  match r with
  | Normal (child, index) => Normal (child, k + index)
  | Throw e => Throw e
  end.

(** A key index table, a [getChildPath] and two serialized properties to
    run the linear list on: the table knows the key [age] only. *)
Definition sample_getOrAdd (key : string) : Z :=
  if bool_decide (key = "age") then 3 else -1.
Definition sample_keys (keyIndex : Z) : option string :=
  if keyIndex =? 3 then Some "age" else None.
Definition sample_getChildPath (path : option string) (key : option PathKey) : string :=
  template_string path +:+ "/"
  +:+ match key with
      | Some k => property_name k
      | None => "undefined"
      end.
Definition sample_serialized : list SerializedKeyValue.t :=
  [create (KeyName "name") (VString "Ewout") VALUE_TYPES.STRING None
     (Some (text_bytes "Ewout")) None None;
   create (KeyName "age") (VNumber (number_of_Z 7)) VALUE_TYPES.NUMBER None None None
     (Some (PlainArray []))].
Definition sample_children : list NodeInfo.t :=
  [NodeInfo.mk (Some "users/ewout/name") (Some VALUE_TYPES.STRING) None (Some "name") true
     None (Some (VString "Ewout"));
   NodeInfo.mk (Some "users/ewout/age") (Some VALUE_TYPES.NUMBER) None (Some "age") true
     None (Some (VNumber (number_of_Z 7)))].

(** ** Tree data in the records of a node *)

(** [array.slice(from, to)] on an array of any elements, for indexes that
    are not negative. *)
Definition array_slice {A} (l : list A) (from to : Z) : list A :=
  firstn (Z.to_nat (to - from)) (skipn (Z.to_nat from) l).

Module DataTransfer.
(** The arguments of one [storage.writeData(fIndex, binary, bOffset, bLength)]
    or [storage.readData(fIndex, binary, bOffset, bLength)]; [binary] is the
    same buffer in all of them. *)
Record t := mk {
  fIndex : Z;
  bOffset : Z;
  bLength : Z
}.
End DataTransfer.

Section TreeData.

(** [this.storage.getRecordFileIndex], [this.storage.settings.recordSize] (a
    positive number), [this.recordInfo.headerLength] and
    [this.recordInfo.allocation]. *)
Variable getRecordFileIndex : Z -> Z -> Z.
Variable recordSize : Z.
Variable headerLength : Z.
Variable allocation : NodeAllocation.t.

(** The loop over [writeRanges] of [_treeDataWriter] from range [i] on, with
    [first] for [i === 0]: the calls of [storage.writeData] it makes. *)
Fixpoint tree_writes (length startOffset : Z) (first : bool)
    (writeRanges : list StorageAddressRange.t) (bOffset : Z) : list DataTransfer.t :=
  match writeRanges with
  | [] => []
  | range :: writeRanges' =>
      let fIndex := getRecordFileIndex (StorageAddressRange.pageNr range)
                      (StorageAddressRange.recordNr range) in
      let bLength := StorageAddressRange.length range * recordSize in
      let fIndex := if first then fIndex + startOffset else fIndex in
      let bLength := if first then bLength - startOffset else bLength in
      let bLength := if bOffset + bLength >? length then length - bOffset else bLength in
      DataTransfer.mk fIndex bOffset bLength
      :: tree_writes length startOffset false writeRanges' (bOffset + bLength)
  end.

(** [_treeDataWriter(data, index)] with [length] for [data.length]: the
    writes started, or the error of [fromAdresses]. *)
Definition _treeDataWriter (length index : Z) : Completion (list DataTransfer.t) :=
  let startRecord_nr := (headerLength + index) / recordSize in
  let startRecord_offset := Z.rem (headerLength + index) recordSize in
  let endRecord_nr := (headerLength + index + length) / recordSize in
  let writeRecords :=
    array_slice (NodeAllocation.addresses allocation) startRecord_nr (endRecord_nr + 1) in
  writeRanges ← fromAdresses writeRecords;
  Normal (tree_writes length startRecord_offset true writeRanges 0).

(** The loop over [readRanges] of [_treeDataReader]: the calls of
    [storage.readData] it makes. *)
Fixpoint tree_reads (startOffset : Z) (first : bool)
    (readRanges : list StorageAddressRange.t) (bOffset : Z) : list DataTransfer.t :=
  match readRanges with
  | [] => []
  | range :: readRanges' =>
      let fIndex := getRecordFileIndex (StorageAddressRange.pageNr range)
                      (StorageAddressRange.recordNr range) in
      let bLength := StorageAddressRange.length range * recordSize in
      let fIndex := if first then fIndex + startOffset else fIndex in
      let bLength := if first then bLength - startOffset else bLength in
      DataTransfer.mk fIndex bOffset bLength
      :: tree_reads startOffset false readRanges' (bOffset + bLength)
  end.

(** [_treeDataReader(index, length)]: the length of the buffer it allocates
    ([totalLength]) and the reads into it, or the error of [fromAdresses]. *)
Definition _treeDataReader (index length : Z) : Completion (Z * list DataTransfer.t) :=
  let startRecord_nr := (headerLength + index) / recordSize in
  let startRecord_offset := Z.rem (headerLength + index) recordSize in
  let endRecord_nr := (headerLength + index + length) / recordSize in
  let readRecords :=
    array_slice (NodeAllocation.addresses allocation) startRecord_nr (endRecord_nr + 1) in
  readRanges ← fromAdresses readRecords;
  let totalLength := len readRecords * recordSize - startRecord_offset in
  Normal (totalLength, tree_reads startRecord_offset true readRanges 0).

End TreeData.

(** The bytes moved by a list of transfers. *)
Definition transferred (ts : list DataTransfer.t) : Z :=
  fold_right Z.add 0 (map DataTransfer.bLength ts).

(** Every transfer starts in the buffer where the one before it ended, the
    first one at [start]; no transfer has a negative length. *)
Fixpoint consecutive (start : Z) (ts : list DataTransfer.t) : Prop :=
  match ts with
  | [] => True
  | t :: ts' =>
      DataTransfer.bOffset t = start /\ 0 <= DataTransfer.bLength t
      /\ consecutive (start + DataTransfer.bLength t) ts'
  end.

(** [never_throws e r]: the completion [r] is not the error [e]. *)
Definition never_throws {A} (e : JsError) (r : Completion A) : Prop :=
  r <> Throw e.

(** * Properties *)

(** ** Allocations *)

Lemma sum_from (l : list Z) (a : Z) :
  fold_left (fun total nr => total + nr) l a
  = a + fold_left (fun total nr => total + nr) l 0.
Proof.
  revert a. induction l as [|x l IH]; intros a; simpl.
  - lia.
  - rewrite (IH (a + x)), (IH (0 + x)). lia.
Qed.

Lemma totalAddresses_cons (range : StorageAddressRange.t) (ranges : NodeAllocation.t) :
  NodeAllocation.totalAddresses (range :: ranges)
  = StorageAddressRange.length range + NodeAllocation.totalAddresses ranges.
Proof.
  unfold NodeAllocation.totalAddresses. simpl. rewrite sum_from. lia.
Qed.

(** Growing the adjacent range by the length of [range] moves the records of
    [range] into it: the ranges after [range] gain exactly its length. *)
Lemma merge_adjacent_total range others others' :
  NodeAllocation.merge_adjacent range others = Some others' ->
  NodeAllocation.totalAddresses others'
  = NodeAllocation.totalAddresses others + StorageAddressRange.length range.
Proof.
  revert others'. induction others as [|o os IH]; intros others' H; simpl in H.
  - discriminate.
  - destruct (NodeAllocation.merge_adjacent range os) as [os'|] eqn:E;
      repeat case_match; simpl in H; inversion H; subst;
      rewrite !totalAddresses_cons; simpl;
      try (rewrite (IH os' eq_refl)); lia.
Qed.

(** C10. [normalize()] keeps the total number of addresses of an allocation:
    [totalAddresses] after the call equals [totalAddresses] before it, as the
    assertion at the end of [normalize()] says. *)
Theorem normalize_preserves_totalAddresses (ranges : NodeAllocation.t) :
  NodeAllocation.totalAddresses (NodeAllocation.normalize ranges)
  = NodeAllocation.totalAddresses ranges.
Proof.
  unfold NodeAllocation.normalize.
  funelim (NodeAllocation.normalize_from ranges).
  - reflexivity.
  - rewrite H. rewrite (merge_adjacent_total _ _ _ Hm), totalAddresses_cons. lia.
  - rewrite !totalAddresses_cons, H. reflexivity.
Qed.

(** *** The addresses themselves *)

Lemma addresses_cons (range : StorageAddressRange.t) (ranges : NodeAllocation.t) :
  NodeAllocation.addresses (range :: ranges)
  = NodeAllocation.range_addresses range ++ NodeAllocation.addresses ranges.
Proof. reflexivity. Qed.

(** A range of [la + lb] records is its first [la] records followed by the
    [lb] records after them. *)
Lemma range_addresses_split (pg rc la lb : Z) :
  0 <= la -> 0 <= lb ->
  NodeAllocation.range_addresses (StorageAddressRange.mk pg rc (la + lb))
  = NodeAllocation.range_addresses (StorageAddressRange.mk pg rc la)
    ++ NodeAllocation.range_addresses (StorageAddressRange.mk pg (rc + la) lb).
Proof.
  intros Ha Hb. unfold NodeAllocation.range_addresses. simpl.
  rewrite Z2Nat.inj_add by lia. rewrite seq_app, map_app. f_equal.
  simpl.
  replace (seq (Z.to_nat la) (Z.to_nat lb))
    with (map (Nat.add (Z.to_nat la)) (seq 0 (Z.to_nat lb)))
    by (rewrite <- (Nat.add_0_r (Z.to_nat la)) at 2; apply fmap_add_seq).
  rewrite map_map. apply map_ext. intros i. f_equal. lia.
Qed.

Lemma merge_adjacent_addresses range others others' :
  0 <= StorageAddressRange.length range ->
  lengths_ok others ->
  NodeAllocation.merge_adjacent range others = Some others' ->
  lengths_ok others'
  /\ Permutation (NodeAllocation.addresses others')
       (NodeAllocation.range_addresses range ++ NodeAllocation.addresses others).
Proof.
  intros Hr. revert others'.
  induction others as [|o os IH]; intros others' Hok H; simpl in H; [discriminate|].
  assert (Ho : 0 <= StorageAddressRange.length o) by (apply Hok; left; reflexivity).
  assert (Hos : lengths_ok os) by (intros r Hin; apply Hok; right; exact Hin).
  assert (Hrec : forall os', NodeAllocation.merge_adjacent range os = Some os' ->
                             lengths_ok (o :: os')
                             /\ Permutation (NodeAllocation.addresses (o :: os'))
                                  (NodeAllocation.range_addresses range
                                   ++ NodeAllocation.addresses (o :: os))).
  { intros os' E. destruct (IH os' Hos E) as [Hok' Hperm]. split.
    - intros r [<-|Hin]; [exact Ho | apply Hok', Hin].
    - rewrite !addresses_cons, Hperm.
      rewrite !app_assoc. apply Permutation_app_tail, Permutation_app_comm. }
  destruct (negb (bool_decide (StorageAddressRange.pageNr o = StorageAddressRange.pageNr range)))
    eqn:Epage.
  - destruct (NodeAllocation.merge_adjacent range os) as [os'|]; [|discriminate].
    inversion H; subst. apply Hrec. reflexivity.
  - apply negb_false_iff, bool_decide_eq_true_1 in Epage.
    destruct (bool_decide (StorageAddressRange.recordNr o
                           = StorageAddressRange.recordNr range
                             + StorageAddressRange.length range)) eqn:Eafter.
    + apply bool_decide_eq_true_1 in Eafter. inversion H; subst. clear H. split.
      * intros r [<-|Hin]; [simpl; lia | apply Hos, Hin].
      * rewrite !addresses_cons, app_assoc. apply Permutation_app_tail.
        rewrite (Z.add_comm (StorageAddressRange.length o)).
        rewrite range_addresses_split by lia.
        rewrite Epage, <- Eafter. destruct range, o; simpl in *. subst. reflexivity.
    + destruct (bool_decide (StorageAddressRange.recordNr range
                             = StorageAddressRange.recordNr o
                               + StorageAddressRange.length o)) eqn:Ebefore.
      * apply bool_decide_eq_true_1 in Ebefore. inversion H; subst. clear H. split.
        -- intros r [<-|Hin]; [simpl; lia | apply Hos, Hin].
        -- rewrite !addresses_cons, app_assoc. apply Permutation_app_tail.
           rewrite range_addresses_split by lia.
           rewrite <- Ebefore. destruct range, o; simpl in *. subst.
           apply Permutation_app_comm.
      * destruct (NodeAllocation.merge_adjacent range os) as [os'|]; [|discriminate].
        inversion H; subst. apply Hrec. reflexivity.
Qed.

(** X4. With lengths that are not negative, [normalize()] neither gains nor
    loses a record address: the addresses after the call are those before
    it, in another order. *)
Lemma normalize_keeps_addresses (ranges : NodeAllocation.t) :
  lengths_ok ranges ->
  Permutation (NodeAllocation.addresses (NodeAllocation.normalize ranges))
    (NodeAllocation.addresses ranges).
Proof.
  unfold NodeAllocation.normalize.
  funelim (NodeAllocation.normalize_from ranges); intros Hok.
  - reflexivity.
  - destruct (merge_adjacent_addresses range others others') as [Hok' Hperm];
      [apply Hok; left; reflexivity
      | intros r Hin; apply Hok; right; exact Hin
      | exact Hm |].
    rewrite (H Hok'), Hperm. reflexivity.
  - rewrite !addresses_cons. apply Permutation_app_head. apply H.
    intros r Hin. apply Hok. right. exact Hin.
Qed.

(** ** Node address cache *)

Lemma invalidate_filter_true getPathKeys (requestedPath cachedPath : string) :
  NodeCache.invalidate_filter getPathKeys requestedPath cachedPath = true.
Proof.
  unfold NodeCache.invalidate_filter. rewrite bool_decide_eq_true_2; reflexivity.
Qed.

Lemma filter_all {A} (f : A -> bool) (l : list A) :
  (forall x, f x = true) -> List.filter f l = l.
Proof.
  intros Hf. induction l as [|x l IH]; simpl; [reflexivity|].
  rewrite Hf, IH. reflexivity.
Qed.

(** The filter keeps every cached path: [invalidate] visits all of them. *)
Lemma invalidate_visits_all getPathKeys (p : string) (markAsDeleted : bool) (c : Cache) :
  NodeCache.invalidate getPathKeys p markAsDeleted c
  = NodeCache.invalidate_each markAsDeleted (Object_keys c) c.
Proof.
  unfold NodeCache.invalidate. rewrite filter_all; [reflexivity|].
  intros x. apply invalidate_filter_true.
Qed.

Lemma cache_get_key (c : Cache) (k : string) :
  In k (Object_keys c) -> is_Some (cache_get c k).
Proof.
  induction c as [|[k' e] c IH]; simpl; [tauto|].
  intros [->|Hin].
  - rewrite bool_decide_eq_true_2 by reflexivity. eauto.
  - case_bool_decide; eauto.
Qed.

Lemma invalidate_each_remove_nothing (paths : list string) (c : Cache) :
  cache_get c "undefined" = None ->
  (forall k, In k paths -> is_Some (cache_get c k)) ->
  NodeCache.invalidate_each false paths c = Normal c.
Proof.
  intros Hu. induction paths as [|k paths IH]; intros Hin; simpl; [reflexivity|].
  unfold NodeCache.invalidate_one.
  destruct (Hin k (or_introl eq_refl)) as [entry ->].
  unfold NodeCache.remove. simpl. rewrite Hu. simpl.
  apply IH. intros k' Hk'. apply Hin. right. exact Hk'.
Qed.

(** Unless a node with the path [undefined] is cached, [invalidate] without
    [markAsDeleted] removes no entry at all, whatever the requested path. *)
Lemma invalidate_removes_nothing getPathKeys (p : string) (c : Cache) :
  cache_get c "undefined" = None ->
  NodeCache.invalidate getPathKeys p false c = Normal c.
Proof.
  intros Hu. rewrite invalidate_visits_all.
  apply invalidate_each_remove_nothing; [exact Hu|].
  intros k. apply cache_get_key.
Qed.

(** C3. On a cache holding [a], its descendant [a/b] and the unrelated [c],
    [invalidate("a")] leaves all three entries cached, where the claim has
    [a] and [a/b] removed; and on a cache holding the paths [c] and
    [undefined], it removes the entry of [undefined], which is neither [a]
    nor below it. *)
Theorem invalidate_misses_requested_path :
  let ea := NodeCacheEntry.mk (NodeAddress.at_ "a" 1 1) in
  let eab := NodeCacheEntry.mk (NodeAddress.at_ "a/b" 1 2) in
  let ec := NodeCacheEntry.mk (NodeAddress.at_ "c" 3 4) in
  let eu := NodeCacheEntry.mk (NodeAddress.at_ "undefined" 5 6) in
  NodeCache.invalidate slashPathKeys "a" false [("a", ea); ("a/b", eab); ("c", ec)]
  = Normal [("a", ea); ("a/b", eab); ("c", ec)]
  /\ NodeCache.invalidate slashPathKeys "a" false [("undefined", eu); ("c", ec)]
     = Normal [("c", ec)].
Proof. split; reflexivity. Qed.

(** [find] never looks at the address it returns: every cached entry is a
    hit. *)
Lemma find_ignores_tombstones (p : string) (c : Cache) :
  NodeCache.find p c = NodeCacheEntry.address <$> cache_get c p.
Proof.
  unfold NodeCache.find. destruct (cache_get c p); reflexivity.
Qed.

Lemma cache_get_set_ne (c : Cache) (k k' : string) (e : NodeCacheEntry.t) :
  k <> k' -> cache_get (cache_set c k e) k' = cache_get c k'.
Proof.
  intros Hne. induction c as [|[k0 e0] c IH]; simpl.
  - rewrite bool_decide_eq_false_2 by exact Hne. reflexivity.
  - destruct (bool_decide (k0 = k)) eqn:E; simpl.
    + apply bool_decide_eq_true_1 in E. subst k0.
      rewrite !bool_decide_eq_false_2 by exact Hne. reflexivity.
    + rewrite IH. reflexivity.
Qed.

Lemma cache_get_set_keys (c : Cache) (k k' : string) (e : NodeCacheEntry.t) :
  is_Some (cache_get c k') -> is_Some (cache_get (cache_set c k e) k').
Proof.
  intros H. destruct (decide (k = k')) as [->|Hne].
  - clear H. induction c as [|[k0 e0] c IH]; simpl.
    + rewrite bool_decide_eq_true_2 by reflexivity. eauto.
    + destruct (bool_decide (k0 = k')) eqn:E; simpl.
      * rewrite bool_decide_eq_true_2 by reflexivity. eauto.
      * rewrite E. exact IH.
  - rewrite cache_get_set_ne by exact Hne. exact H.
Qed.

Lemma tombstone_update_get (entry : NodeCacheEntry.t) (c : Cache) (k : string) :
  k <> "undefined" ->
  cache_get (NodeCache.update (new_RemovedNodeAddress (ObjEntry entry)) c) k = cache_get c k.
Proof.
  intros Hk. unfold NodeCache.update. simpl.
  destruct (cache_get c "undefined"); apply cache_get_set_ne; congruence.
Qed.

Lemma tombstone_update_keys (entry : NodeCacheEntry.t) (c : Cache) (k : string) :
  is_Some (cache_get c k) ->
  is_Some (cache_get (NodeCache.update (new_RemovedNodeAddress (ObjEntry entry)) c) k).
Proof.
  intros H. unfold NodeCache.update. simpl.
  destruct (cache_get c "undefined"); apply cache_get_set_keys; exact H.
Qed.

Lemma invalidate_each_tombstone (paths : list string) (c : Cache) :
  (forall k, In k paths -> is_Some (cache_get c k)) ->
  exists c', NodeCache.invalidate_each true paths c = Normal c'
             /\ forall k, k <> "undefined" -> cache_get c' k = cache_get c k.
Proof.
  revert c. induction paths as [|k0 paths IH]; intros c Hin; simpl.
  - exists c. split; [reflexivity|]. reflexivity.
  - unfold NodeCache.invalidate_one.
    destruct (Hin k0 (or_introl eq_refl)) as [entry ->]. simpl.
    destruct (IH (NodeCache.update (new_RemovedNodeAddress (ObjEntry entry)) c))
      as [c' [Hrun Hget]].
    { intros k Hk. apply tombstone_update_keys. apply Hin. right. exact Hk. }
    exists c'. split; [exact Hrun|].
    intros k Hk. rewrite Hget by exact Hk. apply tombstone_update_get. exact Hk.
Qed.

(** For every path other than [undefined], [invalidate] with [markAsDeleted]
    ends normally and [find] answers afterwards what it answered before. *)
Lemma invalidate_markAsDeleted_keeps_find getPathKeys (p : string) (c : Cache) :
  p <> "undefined" ->
  exists c', NodeCache.invalidate getPathKeys p true c = Normal c'
             /\ NodeCache.find p c' = NodeCache.find p c.
Proof.
  intros Hp. rewrite invalidate_visits_all.
  destruct (invalidate_each_tombstone (Object_keys c) c) as [c' [Hrun Hget]].
  { intros k. apply cache_get_key. }
  exists c'. split; [exact Hrun|].
  rewrite !find_ignores_tombstones, Hget by exact Hp. reflexivity.
Qed.

(** A tombstone that is cached under its path is returned by [find] like
    any address. *)
Lemma find_returns_cached_tombstone :
  let tombstone := new_RemovedNodeAddress (ObjAddress (NodeAddress.at_ "a" 1 1)) in
  NodeAddress.removed tombstone = true
  /\ NodeCache.find "a" (NodeCache.update tombstone []) = Some tombstone.
Proof. split; reflexivity. Qed.









(** ** Values that fit inline *)

(** C6. [_valueFitsInline] returns [false] for every [ArrayBuffer], whatever
    its byte length and whatever [maxInlineValueSize] is, where the claim has
    [true] for a binary shorter than [maxInlineValueSize]: the test reads
    [value.length], which an [ArrayBuffer] does not have. *)
Theorem valueFitsInline_rejects_every_ArrayBuffer
    (textEncoder_encode : string -> list Z) (maxInlineValueSize : Z) (bytes : list Z) :
  _valueFitsInline textEncoder_encode maxInlineValueSize (VArrayBuffer bytes) = Normal false.
Proof. reflexivity. Qed.

(** X20. On every other value the function answers as described: [true] for
    numbers, booleans, dates and internal references, for text shorter than
    [maxInlineValueSize] once encoded, and for empty arrays and objects. *)
Lemma valueFitsInline_other_values
    (textEncoder_encode : string -> list Z) (maxInlineValueSize : Z) (v : JsValue) :
  _valueFitsInline textEncoder_encode maxInlineValueSize v = Normal true <->
  match v with
  | VNumber _ | VBoolean _ | VDate _ | VInternalNodeReference _ _ => True
  | VString s | VPathReference s => len (textEncoder_encode s) < maxInlineValueSize
  | VArray items => items = []
  | VObject props => props = []
  | VArrayBuffer _ | VNull | VUndefined => False
  end.
Proof.
  destruct v as [| | | | s | | | s | | items | props]; simpl;
    try (split; [discriminate || tauto | tauto || reflexivity]).
  - split; intros H; [inversion H as [H1]; lia | f_equal; lia].
  - split; intros H; [inversion H as [H1]; lia | f_equal; lia].
  - destruct items; simpl; split; intros H; try reflexivity; try discriminate.
  - destruct props; simpl; split; intros H; try reflexivity; try discriminate.
Qed.

(** ** Child entries *)

(** C9. A child entry of the record at page 1, record 2 (path [a]) whose
    stored address is again page 1, record 2 is decoded and delivered with
    that address; no error is raised. [equals] also compares the paths, and
    the child address carries the path [a/b]. *)
Theorem circular_address_is_delivered
    (bytesToNumber : list Z -> number) (textDecoder_decode : list Z -> string) :
  let parent := NodeAddress.at_ "a" 1 2 in
  let child := NodeInfo.mk None None None (Some "b") true None None in
  getValueFromBinary bytesToNumber textDecoder_decode false parent child
    [16; 192; 0; 0; 0; 1; 0; 2] 0
  = Normal (NodeInfo.mk None (Some VALUE_TYPES.OBJECT) None (Some "b") true
              (Some (NodeAddress.at_ "a/b" 1 2)) None, 8).
Proof. reflexivity. Qed.

Lemma string_length_app (s1 s2 : string) :
  String.length (s1 +:+ s2) = (String.length s1 + String.length s2)%nat.
Proof. induction s1 as [|c s1 IH]; simpl; [reflexivity | rewrite IH; reflexivity]. Qed.

Lemma childPath_differs (isArray : bool) (p : string) (pg rc : option Z) (child : NodeInfo.t) :
  p <> "" ->
  childPath_of isArray (NodeAddress.new (Some p) pg rc) child <> Some p.
Proof.
  intros Hp. unfold childPath_of. simpl. destruct isArray.
  - intros H. inversion H as [H1].
    apply (f_equal String.length) in H1. rewrite !string_length_app in H1. simpl in H1. lia.
  - rewrite bool_decide_eq_false_2 by congruence.
    intros H. inversion H as [H1].
    apply (f_equal String.length) in H1. rewrite !string_length_app in H1. simpl in H1. lia.
Qed.

(** X15. Below the root the check can never fire: no input makes
    [getValueFromBinary] raise the circular-reference error. *)
Lemma no_circular_error_below_root
    (bytesToNumber : list Z -> number) (textDecoder_decode : list Z -> string)
    (isArray : bool) (p : string) (pg rc : option Z)
    (child : NodeInfo.t) (binary : list Z) (index : Z) :
  p <> "" ->
  getValueFromBinary bytesToNumber textDecoder_decode isArray (NodeAddress.new (Some p) pg rc)
    child binary index
  <> Throw (Error "Circular reference in record data").
Proof.
  intros Hp. unfold getValueFromBinary, assert_bytes.
  repeat (case_match; simpl; try discriminate).
  exfalso.
  match goal with
  | H : NodeAddress.equals _ _ = true |- _ =>
      unfold NodeAddress.equals in H; simpl in H;
      apply andb_true_iff in H; destruct H as [H _];
      apply andb_true_iff in H; destruct H as [H _];
      apply bool_decide_eq_true_1 in H
  end.
  eapply childPath_differs; eauto.
Qed.

(** ** Inline children written and read back *)

(** C2. Three values that are stored inline do not come back: the empty path
    reference is written with the value-info byte 255 and decoding fails on
    it; serializing a binary throws; minus zero is written as the tiny value
    0 and comes back as plus zero. The claim has each of them decode to an
    equal value. *)
Theorem inline_values_that_do_not_round_trip
    (numberToBytes : number -> list Z) (bytesToNumber : list Z -> number) :
  let run := write_then_read numberToBytes bytesToNumber text_bytes bytes_text 16
               (NodeAddress.at_ "a" 1 2) "k" in
  run (VPathReference "") = Throw (TruncatedDataError "truncated data")
  /\ run (VArrayBuffer [1; 2; 3]) = Throw (TypeError "data.forEach is not a function")
  /\ run (VNumber (S754_zero true)) = Normal (Some (VNumber (S754_zero false))).
Proof. repeat split; reflexivity. Qed.

(** The bytes behind the first failure: type 9 with no tiny value, then
    [128 | (0 - 1)]. *)
Lemma empty_reference_bytes
    (numberToBytes : number -> list Z) (keyOrIndex : PathKey) :
  _serializeValue numberToBytes text_bytes 16 keyOrIndex (VPathReference "")
  = Normal (Kvp (create keyOrIndex (VPathReference "") VALUE_TYPES.REFERENCE None (Some [])
                   None None))
  /\ _getValueBytes (create keyOrIndex (VPathReference "") VALUE_TYPES.REFERENCE None (Some [])
                       None None)
     = Normal [144; -1]
  /\ new_Uint8Array [144; -1] = [144; 255].
Proof. repeat split; reflexivity. Qed.

(** Booleans and non-empty short text do come back. *)
Lemma boolean_round_trip
    (numberToBytes : number -> list Z) (bytesToNumber : list Z -> number)
    (encode : string -> list Z) (decode : list Z -> string)
    (maxInlineValueSize : Z) (this_address : NodeAddress.t) (key : string) (b : bool) :
  write_then_read numberToBytes bytesToNumber encode decode maxInlineValueSize this_address
    key (VBoolean b)
  = Normal (Some (VBoolean b)).
Proof. destruct b; reflexivity. Qed.

(** ** Lock manager *)

Lemma isDescendantOf_isAncestorOf getPathKeys (p other : string) :
  NodePath.isDescendantOf getPathKeys p other = NodePath.isAncestorOf getPathKeys other p.
Proof.
  unfold NodePath.isDescendantOf, NodePath.isAncestorOf.
  destruct (bool_decide (other = "")); [reflexivity|].
  destruct (decide (p = other)) as [->|Hne].
  - rewrite !bool_decide_eq_true_2 by reflexivity. reflexivity.
  - rewrite !bool_decide_eq_false_2 by congruence. reflexivity.
Qed.

(** The two filters of [_allowLock] select the locks that conflict. *)
Lemma clashes_conflicts getPathKeys (p tid_ : string) (fw : bool) (l : NodeLock.t) :
  (negb (bool_decide (NodeLock.tid l = tid_))
   && bool_decide (NodeLock.state l = NodeLock.LOCKED))
  && NodeLock.clashes getPathKeys p fw l = true
  <-> conflicts_with getPathKeys p tid_ fw l.
Proof.
  unfold NodeLock.clashes, conflicts_with.
  rewrite isDescendantOf_isAncestorOf.
  rewrite !andb_true_iff, !orb_true_iff, negb_true_iff,
    bool_decide_eq_false, !bool_decide_eq_true.
  split.
  - intros [[Ht Hs] [Hw Hp]]. repeat split; try assumption.
    destruct Hp as [Hp|Hp]; [left; congruence | right; exact Hp].
  - intros (Ht & Hs & Hp & Hw). repeat split; try assumption.
    destruct Hp as [Hp|Hp]; [left; congruence | right; exact Hp].
Qed.

Lemma find_filter_None {A} (P Q : A -> bool) (l : list A) :
  List.find P (List.filter Q l) = None <-> forall x, In x l -> Q x && P x = false.
Proof.
  induction l as [|a l IH]; simpl.
  - split; [intros _ x [] | reflexivity].
  - destruct (Q a) eqn:EQ; simpl.
    + destruct (P a) eqn:EP.
      * split; [discriminate|]. intros H. specialize (H a (or_introl eq_refl)).
        rewrite EQ, EP in H. discriminate.
      * rewrite IH. split.
        -- intros H x [<-|Hx]; [rewrite EQ, EP; reflexivity | apply H, Hx].
        -- intros H x Hx. apply H. right. exact Hx.
    + rewrite IH. split.
      * intros H x [<-|Hx]; [rewrite EQ; reflexivity | apply H, Hx].
      * intros H x Hx. apply H. right. exact Hx.
Qed.

Lemma find_filter_Some {A} (P Q : A -> bool) (l : list A) (c : A) :
  List.find P (List.filter Q l) = Some c ->
  exists before after,
    l = before ++ c :: after
    /\ Q c && P c = true
    /\ forall x, In x before -> Q x && P x = false.
Proof.
  induction l as [|a l IH]; simpl; [discriminate|].
  destruct (Q a) eqn:EQ; simpl.
  - destruct (P a) eqn:EP.
    + intros H. inversion H; subst. exists [], l. simpl.
      rewrite EQ, EP. repeat split. intros x [].
    + intros H. destruct (IH H) as (before & after & -> & Hc & Hb).
      exists (a :: before), after. repeat split; [exact Hc|].
      intros x [<-|Hx]; [rewrite EQ, EP; reflexivity | apply Hb, Hx].
  - intros H. destruct (IH H) as (before & after & -> & Hc & Hb).
    exists (a :: before), after. repeat split; [exact Hc|].
    intros x [<-|Hx]; [rewrite EQ; reflexivity | apply Hb, Hx].
Qed.

Lemma filter_app_last {A} (Q : A -> bool) (l : list A) (x : A) :
  Q x = false -> List.filter Q (l ++ [x]) = List.filter Q l.
Proof.
  intros H. rewrite List.filter_app. simpl. rewrite H. apply app_nil_r.
Qed.

(** A change of the object with a fresh identity touches the last lock only. *)
Lemma modify_last (i : nat) (f : NodeLock.t -> NodeLock.t) (ls : list NodeLock.t)
    (n : NodeLock.t) (next : nat) (t : Z) :
  (forall l, In l ls -> NodeLock.id l <> i) ->
  NodeLock.id n = i ->
  NodeLock.modify i f (NodeLock.mkStore (ls ++ [n]) next t)
  = NodeLock.mkStore (ls ++ [f n]) next t.
Proof.
  intros Hls Hn. unfold NodeLock.modify, NodeLock.with_locks. simpl. f_equal.
  rewrite map_app. simpl. rewrite bool_decide_eq_true_2 by exact Hn. f_equal.
  induction ls as [|a ls IH]; simpl; [reflexivity|].
  rewrite bool_decide_eq_false_2 by (apply Hls; left; reflexivity).
  f_equal. apply IH. intros l Hl. apply Hls. right. exact Hl.
Qed.

Lemma existsb_false_iff {A} (f : A -> bool) (l : list A) :
  existsb f l = false <-> forall x, In x l -> f x = false.
Proof.
  induction l as [|a l IH]; simpl.
  - split; [intros _ x [] | reflexivity].
  - rewrite orb_false_iff, IH. split.
    + intros [Ha Hl] x [<-|Hx]; [exact Ha | apply Hl, Hx].
    + intros H. split; [apply H; left; reflexivity | intros x Hx; apply H; right; exact Hx].
Qed.

(** C1 (amended). In a lock list where no lock of the requesting transaction
    is [EXPIRED], [NodeLock.lock] grants the request at once exactly when no
    lock conflicts with it: a lock of another transaction that is [LOCKED],
    on the requested path or an ancestor of it, with one of the two for
    writing. When granted, the new lock is appended as [LOCKED]. Otherwise
    the promise stays pending and the new lock is appended as [PENDING] with
    [waitingFor] set to the first conflicting lock of the list. The first
    hypothesis says that the new lock is a new object: the identities in the
    list are below the counter that names it. *)
Theorem lock_grant_policy (getPathKeys : string -> list PathKey) (s : NodeLock.Store)
    (p tid_ : string) (fw : bool) (comment_ : string) (withPriority noTimeout : bool) :
  (forall l, In l (NodeLock._locks s) -> (NodeLock.id l < NodeLock.next_id s)%nat) ->
  (forall l, In l (NodeLock._locks s) ->
             NodeLock.tid l = tid_ -> NodeLock.state l <> NodeLock.EXPIRED) ->
  let r := NodeLock.lock getPathKeys p tid_ fw comment_ withPriority noTimeout s in
  let request st granted_ expires_ waitingFor_ :=
    NodeLock.mk (NodeLock.next_id s) tid_ p fw withPriority st (NodeLock.now s)
      granted_ expires_ comment_ waitingFor_ in
  (granted_now (fst r) <->
   ~ exists l, In l (NodeLock._locks s) /\ conflicts_with getPathKeys p tid_ fw l)
  /\ (granted_now (fst r) ->
      fst r = NodeLock.Resolved (NodeLock.next_id s)
      /\ NodeLock._locks (snd r)
         = NodeLock._locks s
           ++ [request NodeLock.LOCKED (Some (NodeLock.now s))
                 (if noTimeout then None else Some (NodeLock.now s + LOCK_TIMEOUT)) None])
  /\ (~ granted_now (fst r) ->
      fst r = NodeLock.Waiting
      /\ exists before c after,
           NodeLock._locks s = before ++ c :: after
           /\ conflicts_with getPathKeys p tid_ fw c
           /\ (forall l, In l before -> ~ conflicts_with getPathKeys p tid_ fw l)
           /\ NodeLock._locks (snd r)
              = NodeLock._locks s
                ++ [request NodeLock.PENDING None None (Some (NodeLock.id c))]).
Proof.
  intros Hfresh Hexp r request.
  assert (Hids : forall l, In l (NodeLock._locks s) -> NodeLock.id l <> NodeLock.next_id s).
  { intros l Hl. specialize (Hfresh l Hl). lia. }
  assert (Hex : existsb (fun l => bool_decide (NodeLock.tid l = tid_)
                                  && bool_decide (NodeLock.state l = NodeLock.EXPIRED))
                  (NodeLock._locks s) = false).
  { apply existsb_false_iff. intros l Hl.
    destruct (bool_decide (NodeLock.tid l = tid_)) eqn:Et; [|reflexivity].
    apply bool_decide_eq_true_1 in Et. simpl.
    apply bool_decide_eq_false_2. apply Hexp; assumption. }
  subst r. unfold NodeLock.lock. rewrite Hex.
  unfold NodeLock._allowLock. cbn [NodeLock._locks NodeLock.set_comment].
  rewrite filter_app_last by (simpl; rewrite andb_false_r; reflexivity).
  destruct (List.find (NodeLock.clashes getPathKeys p fw) _) as [c|] eqn:Efind.
  - (* a conflicting lock is found: the request waits *)
    apply find_filter_Some in Efind.
    destruct Efind as (before & after & Hsplit & Hc & Hbefore).
    apply clashes_conflicts in Hc.
    rewrite bool_decide_eq_true_2 by eauto. cbn [negb fst snd].
    cbn [NodeLock.id fmap option_fmap option_map].
    rewrite modify_last by (try exact Hids; reflexivity).
    cbn [fst snd NodeLock._locks].
    assert (Hno : ~ granted_now (@NodeLock.Waiting nat)).
    { intros [a Ha]. discriminate. }
    split; [|split].
    + split; [intros H; destruct (Hno H)|].
      intros Hnone. exfalso. apply Hnone. exists c. split; [|exact Hc].
      rewrite Hsplit. apply in_or_app. right. left. reflexivity.
    + intros H. destruct (Hno H).
    + intros _. split; [reflexivity|].
      exists before, c, after.
      split; [exact Hsplit|]. split; [exact Hc|]. split; [|reflexivity].
      intros l Hl Hcl. apply clashes_conflicts in Hcl.
      rewrite (Hbefore l Hl) in Hcl. discriminate.
  - (* no conflicting lock: the request is granted *)
    rewrite bool_decide_eq_false_2 by (intros [x Hx]; discriminate).
    cbn [negb fst snd fmap option_fmap option_map].
    rewrite modify_last by (try exact Hids; reflexivity).
    unfold NodeLock.grant. cbn [NodeLock.now].
    rewrite modify_last by (try exact Hids; reflexivity).
    cbn [fst snd NodeLock._locks NodeLock.set_waitingFor NodeLock.set_state
         NodeLock.set_granted NodeLock.granted NodeLock.expires NodeLock.id NodeLock.tid
         NodeLock.path NodeLock.forWriting NodeLock.priority NodeLock.requested
         NodeLock.comment NodeLock.waitingFor NodeLock.state].
    assert (Hyes : granted_now (NodeLock.Resolved (NodeLock.next_id s))).
    { eexists. reflexivity. }
    assert (Hnone : ~ exists l, In l (NodeLock._locks s)
                                /\ conflicts_with getPathKeys p tid_ fw l).
    { intros [l [Hl Hcl]]. apply clashes_conflicts in Hcl.
      rewrite (proj1 (find_filter_None _ _ _) Efind l Hl) in Hcl. discriminate. }
    split; [|split].
    + split; intros _; assumption.
    + intros _. split; reflexivity.
    + intros H. destruct (H Hyes).
Qed.

(** The theorem at work: transaction [t2] holds a write lock on [a], and
    [t1] asks for [a/b]. *)
Lemma lock_grant_policy_witness :
  let held := NodeLock.mk 0 "t2" "a" true false NodeLock.LOCKED 0 (Some 0) (Some 900000)
                EmptyString None in
  let s := NodeLock.mkStore [held] 1 5 in
  (forall l, In l (NodeLock._locks s) -> (NodeLock.id l < NodeLock.next_id s)%nat)
  /\ (forall l, In l (NodeLock._locks s) ->
                NodeLock.tid l = "t1" -> NodeLock.state l <> NodeLock.EXPIRED)
  /\ (granted_now (fst (NodeLock.lock slashPathKeys "a/b" "t1" false EmptyString false false s))
      <-> ~ exists l, In l (NodeLock._locks s)
                      /\ conflicts_with slashPathKeys "a/b" "t1" false l).
Proof.
  intros held s.
  assert (H1 : forall l, In l (NodeLock._locks s) -> (NodeLock.id l < NodeLock.next_id s)%nat).
  { intros l [<-|[]]. simpl. lia. }
  assert (H2 : forall l, In l (NodeLock._locks s) ->
                         NodeLock.tid l = "t1" -> NodeLock.state l <> NodeLock.EXPIRED).
  { intros l [<-|[]] _. simpl. discriminate. }
  split; [exact H1|]. split; [exact H2|].
  exact (proj1 (lock_grant_policy slashPathKeys s "a/b" "t1" false EmptyString false false
                  H1 H2)).
Defined.

(** C1, as stated, fails on a lock list that holds an [EXPIRED] lock of the
    requesting transaction: no lock conflicts with the request, and the
    request is rejected instead of granted; no lock is added. *)
Lemma lock_refused_without_conflict :
  let expired := NodeLock.mk 0 "t1" "a" true false NodeLock.EXPIRED 0 (Some 0) (Some 900000)
                   EmptyString None in
  let s := NodeLock.mkStore [expired] 1 5 in
  let r := NodeLock.lock slashPathKeys "b" "t1" true EmptyString false false s in
  (~ exists l, In l (NodeLock._locks s) /\ conflicts_with slashPathKeys "b" "t1" true l)
  /\ ~ granted_now (fst r)
  /\ snd r = s.
Proof.
  intros expired s r. split; [|split].
  - intros [l [[<-|[]] (Ht & _)]]. apply Ht. reflexivity.
  - intros [a Ha]. vm_compute in Ha. discriminate.
  - reflexivity.
Qed.

(** ** Record header and chunk table *)

#[local] Arguments view_set : simpl never.
#[local] Arguments uint16_bytes : simpl never.
#[local] Arguments uint32_bytes : simpl never.
#[local] Arguments ToUint8 : simpl never.

Lemma view_set_spec (h : list Z) (o : Z) (bs h' : list Z) :
  view_set h o bs = Normal h' ->
  0 <= o /\ o + len bs <= len h /\ len h' = len h
  /\ (forall i, 0 <= i < o -> byte_at h' i = byte_at h i)
  /\ (forall j, 0 <= j < len bs -> byte_at h' (o + j) = byte_at bs j).
Proof.
  unfold view_set, len.
  destruct ((o <? 0) || (Z.of_nat (length h) <? o + Z.of_nat (length bs))) eqn:E;
    [discriminate|].
  apply orb_false_iff in E. destruct E as [E1 E2].
  apply Z.ltb_ge in E1. apply Z.ltb_ge in E2.
  intros H. inversion H as [H']. clear H.
  assert (Htake : length (take (Z.to_nat o) h) = Z.to_nat o).
  { rewrite length_take_le by lia. reflexivity. }
  repeat split; try lia.
  - rewrite !length_app, Htake, length_drop. lia.
  - intros i Hi. unfold byte_at. rewrite !nth_lookup.
    rewrite lookup_app_l by (rewrite Htake; lia).
    rewrite lookup_take_lt by lia. reflexivity.
  - intros j Hj. unfold byte_at. rewrite !nth_lookup.
    rewrite lookup_app_r by (rewrite Htake; lia).
    rewrite lookup_app_l by (rewrite Htake; lia).
    rewrite Htake. do 2 f_equal. lia.
Qed.

Lemma view_set_below (h : list Z) (o : Z) (bs h' : list Z) (n : Z) :
  view_set h o bs = Normal h' -> n <= o ->
  forall i, 0 <= i < n -> byte_at h' i = byte_at h i.
Proof.
  intros H Hn i Hi. apply view_set_spec in H.
  destruct H as (_ & _ & _ & Hb & _). apply Hb. lia.
Qed.

(** An entry of the chunk table is written at the running offset and leaves
    the bytes before it as they are. *)
Lemma write_chunk_entry_below (range : NodeChunkTableRange.t) (h : list Z) (o : Z)
    (h' : list Z) (o' : Z) :
  write_chunk_entry range (h, o) = Normal (h', o') ->
  o <= o' /\ forall i, 0 <= i < o -> byte_at h' i = byte_at h i.
Proof.
  unfold write_chunk_entry.
  destruct (view_set h o _) as [h0|] eqn:E0; simpl; [|discriminate].
  pose proof (view_set_below _ _ _ _ o E0 ltac:(lia)) as B0.
  repeat case_match; simpl; try discriminate.
  - intros Hw. inversion Hw; subst. split; [lia|exact B0].
  - destruct (view_set h0 (o + 1) _) as [h1|] eqn:E1; simpl; [|discriminate].
    intros Hw. inversion Hw; subst. split; [lia|].
    intros i Hi. rewrite (view_set_below _ _ _ _ o E1) by lia. apply B0. exact Hi.
  - destruct (view_set h0 (o + 1) _) as [h1|] eqn:E1; simpl; [|discriminate].
    destruct (view_set h1 (o + 5) _) as [h2|] eqn:E2; simpl; [|discriminate].
    destruct (view_set h2 (o + 7) _) as [h3|] eqn:E3; simpl; [|discriminate].
    intros Hw. inversion Hw; subst. split; [lia|].
    intros i Hi.
    rewrite (view_set_below _ _ _ _ o E3) by lia.
    rewrite (view_set_below _ _ _ _ o E2) by lia.
    rewrite (view_set_below _ _ _ _ o E1) by lia.
    apply B0. exact Hi.
Qed.

Lemma write_chunk_table_cons (range : NodeChunkTableRange.t)
    (ranges : list NodeChunkTableRange.t) (st : list Z * Z) :
  write_chunk_table (range :: ranges) st
  = bindC (write_chunk_entry range st) (write_chunk_table ranges).
Proof. reflexivity. Qed.

Lemma write_chunk_table_below (ranges : list NodeChunkTableRange.t) (h : list Z) (o : Z)
    (h' : list Z) (o' : Z) :
  write_chunk_table ranges (h, o) = Normal (h', o') ->
  o <= o' /\ forall i, 0 <= i < o -> byte_at h' i = byte_at h i.
Proof.
  revert h o. induction ranges as [|range ranges IH]; intros h o.
  - simpl. intros H. inversion H; subst. split; [lia|reflexivity].
  - rewrite write_chunk_table_cons.
    destruct (write_chunk_entry range (h, o)) as [[h1 o1]|] eqn:E; simpl; [|discriminate].
    intros H. apply write_chunk_entry_below in E. destruct E as [Ho B1].
    apply IH in H. destruct H as [Ho' B2].
    split; [lia|]. intros i Hi. rewrite B2 by lia. apply B1. exact Hi.
Qed.

(** The entry of type 1: the type byte, then the length of the range in two
    bytes. *)
Lemma write_first_entry (pg rc L : Z) (h : list Z) (h' : list Z) (o' : Z) :
  write_chunk_entry (NodeChunkTableRange.mk 1 pg rc L) (h, 1) = Normal (h', o') ->
  o' = 4 /\ byte_at h' 1 = 1
  /\ byte_at h' 2 = (L / 2 ^ 8) mod 256 /\ byte_at h' 3 = L mod 256.
Proof.
  unfold write_chunk_entry. simpl.
  destruct (view_set h 1 _) as [h0|] eqn:E0; simpl; [|discriminate].
  destruct (view_set h0 _ _) as [h1|] eqn:E1; simpl; [|discriminate].
  intros H. inversion H; subst. split; [reflexivity|].
  apply view_set_spec in E0. destruct E0 as (_ & _ & _ & _ & A0).
  pose proof (view_set_below _ _ _ _ 2 E1 ltac:(lia)) as B1.
  apply view_set_spec in E1. destruct E1 as (_ & _ & _ & _ & A1).
  split; [|split].
  - rewrite B1 by lia. exact (A0 0 ltac:(unfold len; simpl; lia)).
  - exact (A1 0 ltac:(unfold len, uint16_bytes; simpl; lia)).
  - exact (A1 1 ltac:(unfold len, uint16_bytes; simpl; lia)).
Qed.

(** An allocation of more than one record gets a chunk table that starts
    with an entry of type 1 for its first range. *)
Lemma toChunkTable_first (first : StorageAddressRange.t) (rest : list StorageAddressRange.t) :
  1 < NodeAllocation.totalAddresses (first :: rest) ->
  exists tail,
    NodeAllocation.toChunkTable (first :: rest)
    = NodeChunkTableRange.mk 1 (StorageAddressRange.pageNr first)
        (StorageAddressRange.recordNr first) (StorageAddressRange.length first) :: tail.
Proof.
  intros Htotal. destruct rest as [|second rest]; simpl.
  - rewrite totalAddresses_cons in Htotal.
    unfold NodeAllocation.totalAddresses in Htotal. simpl in Htotal.
    rewrite bool_decide_eq_false_2 by lia. eexists. reflexivity.
  - eexists. reflexivity.
Qed.

(** What the code does for every record whose allocation spans more than
    one record: the two bytes after the type-1 entry of the chunk table that
    [_write] builds hold the length of the first range itself, the first
    record included, and [readHeader] takes these two bytes as the length of
    the first range. The length fits the two bytes, and the first record read by
    [readHeader] (the header followed by [body]) is longer than the 12 bytes
    its loop wants in hand. *)
Theorem chunk_table_first_range_length
    (readRecord : Z -> Z -> list Z) (pageSize : Z)
    (type : Z) (hasKeyTree : bool)
    (first : StorageAddressRange.t) (rest : list StorageAddressRange.t)
    (bytes_length bytesPerRecord : Z) (header body : list Z) :
  1 < NodeAllocation.totalAddresses (first :: rest) ->
  0 <= StorageAddressRange.length first < 65536 ->
  _write_header type hasKeyTree (first :: rest) bytes_length bytesPerRecord = Normal header ->
  12 < len (header ++ body) ->
  byte_at header 1 = 1
  /\ getUint16 header 2 = StorageAddressRange.length first
  /\ readAllocationTable_step readRecord pageSize
       (readHeader_start
          (StorageAddress.mk (StorageAddressRange.pageNr first)
             (StorageAddressRange.recordNr first))
          (header ++ body))
     = Continue (HeaderReader.mk (header ++ body) 4 first [] 0).
Proof.
  intros Htotal HL Hwrite Hlen.
  destruct (toChunkTable_first first rest Htotal) as [tail Htable].
  unfold _write_header in Hwrite. cbv zeta in Hwrite.
  destruct (view_set _ 0 _) as [h0|] eqn:E0;
    cbn [mbind Completion_bind bindC] in Hwrite; [|discriminate].
  rewrite Htable, write_chunk_table_cons in Hwrite.
  destruct (write_chunk_entry _ (h0, 1)) as [[h1 o1]|] eqn:E1; simpl in Hwrite;
    [|discriminate].
  destruct (write_chunk_table tail (h1, o1)) as [[h2 o2]|] eqn:E2; simpl in Hwrite;
    [|discriminate].
  destruct (view_set h2 o2 _) as [h3|] eqn:E3; simpl in Hwrite; [|discriminate].
  destruct (view_set h3 (o2 + 1) _) as [h4|] eqn:E4; simpl in Hwrite; [|discriminate].
  inversion Hwrite; subst h4. clear Hwrite.
  apply write_first_entry in E1. destruct E1 as (-> & F1 & F2 & F3).
  apply write_chunk_table_below in E2. destruct E2 as [Ho2 B2].
  pose proof (view_set_below _ _ _ _ 4 E3 ltac:(lia)) as B3.
  pose proof (view_set_below _ _ _ _ 4 E4 ltac:(lia)) as B4.
  assert (G1 : byte_at header 1 = 1).
  { rewrite B4, B3, B2 by lia. exact F1. }
  assert (G2 : getUint16 header 2 = StorageAddressRange.length first).
  { unfold getUint16, ToUint8. replace (2 + 1) with 3 by lia.
    rewrite !B4, !B3, !B2 by lia. rewrite F2, F3.
    rewrite !Z.mod_mod by lia.
    rewrite (Z.mod_small (StorageAddressRange.length first / 2 ^ 8) 256).
    - change (2 ^ 8) with 256.
      pose proof (Z.div_mod (StorageAddressRange.length first) 256 ltac:(lia)). lia.
    - change (2 ^ 8) with 256. split.
      + apply Z.div_pos; lia.
      + apply Z.div_lt_upper_bound; lia. }
  split; [exact G1|]. split; [exact G2|].
  assert (Hhead : forall i, 0 <= i < len header ->
                            byte_at (header ++ body) i = byte_at header i).
  { intros i Hi. unfold byte_at. rewrite !nth_lookup.
    rewrite lookup_app_l by (unfold len in Hi; lia). reflexivity. }
  assert (Hheader : 4 <= len header).
  { apply view_set_spec in E4. destruct E4 as (_ & Hb & Hl & _).
    unfold len in *. simpl in Hb. lia. }
  unfold readAllocationTable_step, readHeader_start. simpl.
  destruct (len (header ++ body) <=? 1 + 9 + 2) eqn:Eq; [apply Z.leb_le in Eq; lia|].
  rewrite Hhead by lia. rewrite G1. simpl.
  unfold getUint16 in *. replace (1 + 1 + 1) with 3 by lia. replace (1 + 1) with 2 by lia.
  replace (2 + 1) with 3 in G2 by lia.
  rewrite !Hhead by lia. rewrite G2. destruct first; reflexivity.
Qed.

(** The theorem at work: one range of three records, a body of 300 bytes in
    records of 128 bytes. *)
Lemma chunk_table_first_range_length_witness :
  let first := StorageAddressRange.mk 1 0 3 in
  let header := [1; 1; 0; 3; 0; 0; 51] in
  1 < NodeAllocation.totalAddresses [first]
  /\ 0 <= StorageAddressRange.length first < 65536
  /\ _write_header 1 false [first] 300 128 = Normal header
  /\ 12 < len (header ++ repeat 7 (10%nat))
  /\ getUint16 header 2 = 3.
Proof.
  intros first header.
  assert (H1 : 1 < NodeAllocation.totalAddresses [first]) by (vm_compute; reflexivity).
  assert (H2 : 0 <= StorageAddressRange.length first < 65536) by (simpl; lia).
  assert (H3 : _write_header 1 false [first] 300 128 = Normal header) by reflexivity.
  assert (H4 : 12 < len (header ++ repeat 7 (10%nat))) by (vm_compute; reflexivity).
  repeat (split; [assumption|]).
  exact (proj1 (proj2 (chunk_table_first_range_length (fun _ _ => []) 1 1 false first []
                         300 128 header (repeat 7 (10%nat)) H1 H2 H3 H4))).
Defined.

(** C7. On an allocation of one range of three records, the two bytes of
    the type-1 entry that [_write] builds hold 3, the length of the range,
    where the claim and the layout comment of [_write] ([nr_records]: the
    actual number minus one) have the 2 records beyond the first; and
    [readHeader] sets the length to these 3, adding nothing. *)
Lemma chunk_table_payload_is_not_length_minus_one :
  let first := StorageAddressRange.mk 1 0 3 in
  let header := [1; 1; 0; 3; 0; 0; 51] in
  _write_header 1 false [first] 300 128 = Normal header
  /\ getUint16 header 2 = 3
  /\ getUint16 header 2 <> StorageAddressRange.length first - 1
  /\ readAllocationTable_step (fun _ _ => []) 1
       (readHeader_start (StorageAddress.mk 1 0) (header ++ repeat 7 (10%nat)))
     = Continue (HeaderReader.mk (header ++ repeat 7 (10%nat)) 4
                   (StorageAddressRange.mk 1 0 (getUint16 header 2)) [] 0).
Proof.
  intros first header. repeat split; try reflexivity.
  vm_compute. discriminate.
Qed.

(** ** Layout of a node's children *)

Lemma is_digit_spec (c : ascii) :
  is_digit c = true <-> (48 <= nat_of_ascii c <= 57)%nat.
Proof.
  unfold is_digit. rewrite andb_true_iff, !Nat.leb_le. reflexivity.
Qed.

Lemma regex_digits_numeric (s : string) :
  regex_digits_test s = true <-> numeric_looking (KeyName s).
Proof.
  unfold numeric_looking. destruct s as [|c s].
  - split; [discriminate | intros [H _]; congruence].
  - change (regex_digits_test (String c s))
      with (forallb is_digit (list_ascii_of_string (String c s))).
    rewrite forallb_forall. split.
    + intros H. split; [discriminate|].
      intros c' Hin. apply is_digit_spec, H, Hin.
    + intros [_ H] c' Hin. apply is_digit_spec, H, Hin.
Qed.

Lemma key_numeric_looking (k : PathKey) :
  key_numeric k = true <-> numeric_looking k.
Proof.
  destruct k as [s|i]; simpl.
  - apply regex_digits_numeric.
  - tauto.
Qed.

Lemma change_numeric_looking (ch : NodeChange.t) :
  change_numeric ch = true <-> numeric_looking (NodeChange.keyOrIndex ch).
Proof.
  unfold change_numeric. destruct (NodeChange.keyOrIndex ch) as [s|i]; simpl.
  - apply regex_digits_numeric.
  - tauto.
Qed.

Lemma kvp_numeric_numeric_looking (kvp : SerializedKeyValue.t) :
  kvp_numeric kvp = true <-> kvp_numeric_looking kvp.
Proof.
  unfold kvp_numeric, kvp_numeric_looking, kvp_key.
  destruct (SerializedKeyValue.index kvp) as [i|].
  - split; [|reflexivity].
    intros _. exists (KeyIndex i). split; [reflexivity | exact I].
  - change (bool_decide (is_Some (@None Z))) with false. cbn [orb].
    destruct (SerializedKeyValue.key kvp) as [k|]; cbn [fmap option_fmap option_map].
    + rewrite regex_digits_numeric. split.
      * intros H. exists (KeyName k). split; [reflexivity | exact H].
      * intros [k' [Hk' H]]. inversion Hk'; subst. exact H.
    + split; [discriminate | intros [k' [Hk' _]]; discriminate].
Qed.

Lemma forallb_Forall_iff {A} (f : A -> bool) (P : A -> Prop) (l : list A) :
  (forall x, f x = true <-> P x) ->
  forallb f l = true <-> (forall x, In x l -> P x).
Proof.
  intros Hf. rewrite forallb_forall. split; intros H x Hx; apply Hf, H, Hx.
Qed.

(** The first byte of the header is the one [_write] puts there: the chunk
    table and the last-chunk length are written after it. *)
Lemma write_header_byte0 (type : Z) (hasKeyTree : bool) (allocation : NodeAllocation.t)
    (bytes_length bytesPerRecord : Z) (header : list Z) :
  _write_header type hasKeyTree allocation bytes_length bytesPerRecord = Normal header ->
  byte_at header 0 = ToUint8 (if hasKeyTree then Z.lor type FLAG_KEY_TREE else type).
Proof.
  intros Hwrite. unfold _write_header in Hwrite. cbv zeta in Hwrite.
  destruct (view_set _ 0 _) as [h0|] eqn:E0;
    cbn [mbind Completion_bind bindC] in Hwrite; [|discriminate].
  destruct (write_chunk_table _ (h0, 1)) as [[h2 o2]|] eqn:E2;
    cbn [mbind Completion_bind bindC] in Hwrite; [|discriminate].
  destruct (view_set h2 o2 _) as [h3|] eqn:E3;
    cbn [mbind Completion_bind bindC] in Hwrite; [|discriminate].
  destruct (view_set h3 (o2 + 1) _) as [h4|] eqn:E4;
    cbn [mbind Completion_bind bindC] in Hwrite; [|discriminate].
  inversion Hwrite; subst h4. clear Hwrite.
  apply write_chunk_table_below in E2. destruct E2 as [Ho2 B2].
  pose proof (view_set_below _ _ _ _ 1 E3 ltac:(lia)) as B3.
  pose proof (view_set_below _ _ _ _ 1 E4 ltac:(lia)) as B4.
  apply view_set_spec in E0. destruct E0 as (_ & _ & _ & _ & A0).
  rewrite B4, B3, B2 by lia.
  exact (A0 0 ltac:(unfold len; simpl; lia)).
Qed.

(** C5 (amended). [_writeNode] writes the children as an embedded tree, with
    [FLAG_KEY_TREE] set in the header, exactly when the serialized child list
    has more than 100 entries, and as the linear list otherwise. The tree
    built on write gets fill factor 50 if every serialized child has a key
    that looks numeric, and 95 otherwise. The tree rebuilt on merge gets fill
    factor 50 if every key of the change set looks numeric, and 95 otherwise;
    the keys the tree already holds are not looked at. *)
Theorem tree_layout_policy (isArray : bool) (serialized : list SerializedKeyValue.t)
    (allocation : NodeAllocation.t) (bytes_length bytesPerRecord : Z) (header : list Z)
    (changes : list NodeChange.t) :
  _writeNode_header isArray serialized allocation bytes_length bytesPerRecord = Normal header ->
  (header_hasKeyIndex header = true <-> 100 < len serialized)
  /\ (_writeNode_layout serialized = LinearList <-> len serialized <= 100)
  /\ (100 < len serialized ->
      ((forall kvp, In kvp serialized -> kvp_numeric_looking kvp) ->
       _writeNode_layout serialized = KeyTree 50)
      /\ (~ (forall kvp, In kvp serialized -> kvp_numeric_looking kvp) ->
          _writeNode_layout serialized = KeyTree 95))
  /\ ((forall ch, In ch changes -> numeric_looking (NodeChange.keyOrIndex ch)) ->
      _mergeNode_fillFactor changes = 50)
  /\ (~ (forall ch, In ch changes -> numeric_looking (NodeChange.keyOrIndex ch)) ->
      _mergeNode_fillFactor changes = 95).
Proof.
  intros Hwrite.
  pose proof (forallb_Forall_iff kvp_numeric kvp_numeric_looking serialized
                kvp_numeric_numeric_looking) as Hser.
  pose proof (forallb_Forall_iff change_numeric
                (fun ch => numeric_looking (NodeChange.keyOrIndex ch)) changes
                change_numeric_looking) as Hch.
  split; [|split; [|split; [|split]]].
  - apply write_header_byte0 in Hwrite.
    unfold header_hasKeyIndex. rewrite Hwrite.
    unfold _writeNode_layout, minKeysForTreeCreation.
    destruct (100 <? len serialized) eqn:E.
    + apply Z.ltb_lt in E. destruct isArray; simpl; split; intros; [lia|reflexivity|lia|reflexivity].
    + apply Z.ltb_ge in E. destruct isArray; simpl; split; intros; try discriminate; lia.
  - unfold _writeNode_layout, minKeysForTreeCreation.
    destruct (100 <? len serialized) eqn:E.
    + apply Z.ltb_lt in E. split; [discriminate|lia].
    + apply Z.ltb_ge in E. split; [lia|reflexivity].
  - intros Hmany. unfold _writeNode_layout, minKeysForTreeCreation.
    apply Z.ltb_lt in Hmany. rewrite Hmany. split.
    + intros Hall. apply Hser in Hall. rewrite Hall. reflexivity.
    + intros Hnot. destruct (forallb kvp_numeric serialized) eqn:E; [|reflexivity].
      exfalso. apply Hnot. apply Hser. reflexivity.
  - intros Hall. apply Hch in Hall. unfold _mergeNode_fillFactor. rewrite Hall. reflexivity.
  - intros Hnot. unfold _mergeNode_fillFactor.
    destruct (forallb change_numeric changes) eqn:E; [|reflexivity].
    exfalso. apply Hnot. apply Hch. reflexivity.
Qed.

(** The theorem at work: an object with the two children [name] and [7],
    stored in one record. *)
Lemma tree_layout_policy_witness :
  let child k := SerializedKeyValue.mk (Some k) None VALUE_TYPES.BOOLEAN (Some true)
                   (VBoolean true) None None None in
  let serialized := [child "name"; child "7"] in
  _writeNode_header false serialized [StorageAddressRange.mk 1 0 1] 12 128
  = Normal [1; 0; 0; 12]
  /\ (header_hasKeyIndex [1; 0; 0; 12] = true <-> 100 < len serialized).
Proof.
  intros child serialized.
  assert (H : _writeNode_header false serialized [StorageAddressRange.mk 1 0 1] 12 128
              = Normal [1; 0; 0; 12]) by reflexivity.
  split; [exact H|].
  exact (proj1 (tree_layout_policy false serialized [StorageAddressRange.mk 1 0 1] 12 128
                  [1; 0; 0; 12] [] H)).
Defined.

(** C5, as stated, fails on a merge that inserts the key [1] into a tree that
    holds the key [abc]: the rebuilt tree holds [abc], which does not look
    numeric, and the fill factor is 50. *)
Lemma merge_fill_factor_ignores_tree_keys :
  let treeKeys := [KeyName "abc"] in
  let changes := [NodeChange.mk (KeyName "1") NodeChange.INSERT VNull (VBoolean true)] in
  rebuilt_tree_keys treeKeys changes = [KeyName "abc"; KeyName "1"]
  /\ ~ (forall k, In k (rebuilt_tree_keys treeKeys changes) -> numeric_looking k)
  /\ _mergeNode_fillFactor changes = 50.
Proof.
  intros treeKeys changes. split; [reflexivity|]. split; [|reflexivity].
  intros H. specialize (H (KeyName "abc") (or_introl eq_refl)).
  destruct H as [_ H]. specialize (H "a"%char (or_introl eq_refl)).
  destruct H as [_ H]. apply Nat.leb_le in H. vm_compute in H. discriminate.
Qed.

(** ** The update entry point *)







(** *** Promises that settle later *)





Section UpdateFacts.
Variable World : Type.
Variable getPathKeys : string -> list PathKey.
Variable sort_pending : list NodeLock.t -> list NodeLock.t.
Variable getPathInfo : string -> PathInfo.t.
Variable textEncoder_encode : string -> list Z.
Variable maxInlineValueSize : Z.
Variable ID_generate : World -> string.
Variable getValueSubscribersForPath : World -> string -> list string.
Variable Node_locate : string -> string -> Async World NodeInfo.t.
Variable reader_getValue :
  option NodeAddress.t -> nat -> option (list string) -> Async World JsValue.
Variable _mergeNode : NodeInfo.t -> JsValue -> nat -> Async World WriteResult.t.
Variable _createNode : NodeInfo.t -> JsValue -> nat -> Async World WriteResult.t.
Variable FST_release : list StorageAddressRange.t -> World -> World.
Variable fire_events :
  string -> string -> JsValue -> JsValue -> bool -> World -> Completion World.

End UpdateFacts.



(** ** More on allocations *)

Lemma range_addresses_grow (range : StorageAddressRange.t) :
  0 <= StorageAddressRange.length range ->
  NodeAllocation.range_addresses
    (StorageAddressRange.mk (StorageAddressRange.pageNr range)
       (StorageAddressRange.recordNr range) (StorageAddressRange.length range + 1))
  = NodeAllocation.range_addresses range
    ++ [StorageAddress.mk (StorageAddressRange.pageNr range)
          (StorageAddressRange.recordNr range + StorageAddressRange.length range)].
Proof.
  intros H. unfold NodeAllocation.range_addresses. simpl.
  replace (Z.to_nat (StorageAddressRange.length range + 1))
    with (Z.to_nat (StorageAddressRange.length range) + 1)%nat by lia.
  rewrite seq_app, map_app. simpl. do 3 f_equal. lia.
Qed.

Lemma range_addresses_one (pg rc : Z) :
  NodeAllocation.range_addresses (StorageAddressRange.mk pg rc 1) = [StorageAddress.mk pg rc].
Proof.
  unfold NodeAllocation.range_addresses. simpl. rewrite Z.add_0_r. reflexivity.
Qed.

Lemma fromAdresses_from_addresses (records : list StorageAddress.t) :
  forall range, 0 <= StorageAddressRange.length range ->
  NodeAllocation.addresses (fromAdresses_from range records)
  = NodeAllocation.range_addresses range ++ records.
Proof.
  induction records as [|record records IH]; intros range Hlen; simpl.
  - rewrite addresses_cons. reflexivity.
  - case_match eqn:E.
    + rewrite addresses_cons, IH by (simpl; lia). f_equal.
      rewrite range_addresses_one. destruct record. reflexivity.
    + apply orb_false_iff in E. destruct E as [E1 E2].
      apply negb_false_iff, bool_decide_eq_true in E1.
      apply negb_false_iff, bool_decide_eq_true in E2.
      rewrite IH by (simpl; lia). rewrite range_addresses_grow by exact Hlen.
      rewrite <- app_assoc. simpl. do 2 f_equal.
      destruct record. simpl in *. subst. reflexivity.
Qed.

(** X1. [fromAdresses] followed by [addresses] gives back the records it was
    called with, in their order; on an empty array of records it throws a
    [TypeError]. *)
Theorem fromAdresses_addresses_round_trip (records : list StorageAddress.t) :
  match fromAdresses records with
  | Normal allocation => NodeAllocation.addresses allocation = records
  | Throw e => records = [] /\ exists msg, e = TypeError msg
  end.
Proof.
  destruct records as [|record records]; simpl.
  - split; [reflexivity | eexists; reflexivity].
  - rewrite fromAdresses_from_addresses by (simpl; lia).
    rewrite range_addresses_one. destruct record. reflexivity.
Qed.

Lemma fromAdresses_from_positive (records : list StorageAddress.t) :
  forall range, 1 <= StorageAddressRange.length range ->
  Forall (fun r => 1 <= StorageAddressRange.length r) (fromAdresses_from range records).
Proof.
  induction records as [|record records IH]; intros range Hlen; simpl.
  - constructor; [exact Hlen | constructor].
  - case_match.
    + constructor; [exact Hlen | apply IH; simpl; lia].
    + apply IH. simpl. lia.
Qed.

Lemma fromAdresses_from_not_adjacent (records : list StorageAddress.t) :
  forall range,
  let ranges := fromAdresses_from range records in
  forall (i : nat) r1 r2,
    ranges !! i = Some r1 -> ranges !! S i = Some r2 ->
    StorageAddressRange.pageNr r2 <> StorageAddressRange.pageNr r1
    \/ StorageAddressRange.recordNr r2
       <> StorageAddressRange.recordNr r1 + StorageAddressRange.length r1.
Proof.
  induction records as [|record records IH]; intros range; simpl.
  - intros i r1 r2 H1 H2. destruct i; discriminate.
  - case_match eqn:E.
    + intros i r1 r2 H1 H2. destruct i as [|i].
      * simpl in H1. inversion H1; subst. clear H1.
        change ((fromAdresses_from
                   (StorageAddressRange.mk (StorageAddress.pageNr record)
                      (StorageAddress.recordNr record) 1) records) !! 0%nat = Some r2) in H2.
        assert (Hhead : StorageAddressRange.pageNr r2 = StorageAddress.pageNr record
                        /\ StorageAddressRange.recordNr r2 = StorageAddress.recordNr record).
        { clear -H2.
          assert (G : forall rs rg, fromAdresses_from rg rs !! 0%nat = Some r2 ->
                        StorageAddressRange.pageNr r2 = StorageAddressRange.pageNr rg
                        /\ StorageAddressRange.recordNr r2 = StorageAddressRange.recordNr rg).
          { induction rs as [|x rs IHrs]; intros rg; simpl.
            - intros Hg; inversion Hg; subst; split; reflexivity.
            - destruct (_ || _).
              + intros Hg; inversion Hg; subst; split; reflexivity.
              + intros Hg. apply IHrs in Hg. simpl in Hg. exact Hg. }
          apply G in H2. simpl in H2. exact H2. }
        destruct Hhead as [Hp Hr]. rewrite Hp, Hr.
        apply orb_true_iff in E. destruct E as [E|E];
          apply negb_true_iff, bool_decide_eq_false in E; [left|right]; exact E.
      * simpl in H1. exact (IH _ i r1 r2 H1 H2).
    + apply IH.
Qed.

(** X2. The ranges [fromAdresses] builds are never empty, and no range is
    continued by the one that follows it: consecutive records on a page end
    up in one range. *)
Theorem fromAdresses_ranges_maximal (records : list StorageAddress.t)
    (allocation : NodeAllocation.t) :
  fromAdresses records = Normal allocation ->
  Forall (fun r => 1 <= StorageAddressRange.length r) allocation
  /\ forall (i : nat) r1 r2,
       allocation !! i = Some r1 -> allocation !! S i = Some r2 ->
       StorageAddressRange.pageNr r2 <> StorageAddressRange.pageNr r1
       \/ StorageAddressRange.recordNr r2
          <> StorageAddressRange.recordNr r1 + StorageAddressRange.length r1.
Proof.
  destruct records as [|record records]; simpl; [discriminate|].
  intros H. inversion H; subst. split.
  - apply fromAdresses_from_positive. simpl. lia.
  - apply fromAdresses_from_not_adjacent.
Qed.

Lemma fromAdresses_ranges_maximal_witness :
  exists allocation,
    fromAdresses [StorageAddress.mk 1 5; StorageAddress.mk 1 6; StorageAddress.mk 2 0]
    = Normal allocation
    /\ Forall (fun r => 1 <= StorageAddressRange.length r) allocation.
Proof.
  eexists. split; [reflexivity|].
  exact (proj1 (fromAdresses_ranges_maximal
                  [StorageAddress.mk 1 5; StorageAddress.mk 1 6; StorageAddress.mk 2 0]
                  _ eq_refl)).
Defined.

Lemma range_addresses_length (range : StorageAddressRange.t) :
  0 <= StorageAddressRange.length range ->
  len (NodeAllocation.range_addresses range) = StorageAddressRange.length range.
Proof.
  intros H. unfold len, NodeAllocation.range_addresses.
  rewrite length_map, length_seq. lia.
Qed.

(** X3. With lengths that are not negative, [addresses] lists as many records
    as [totalAddresses] counts. *)
Theorem addresses_length_totalAddresses (ranges : NodeAllocation.t) :
  lengths_ok ranges ->
  len (NodeAllocation.addresses ranges) = NodeAllocation.totalAddresses ranges.
Proof.
  induction ranges as [|range ranges IH]; intros Hok.
  - reflexivity.
  - rewrite addresses_cons, totalAddresses_cons. unfold len in *.
    rewrite length_app, Nat2Z.inj_add, IH
      by (intros r Hr; apply Hok; right; exact Hr).
    pose proof (range_addresses_length range (Hok range (or_introl eq_refl))) as Hr.
    unfold len in Hr. lia.
Qed.

Lemma addresses_length_totalAddresses_witness :
  len (NodeAllocation.addresses
         [StorageAddressRange.mk 1 5 2; StorageAddressRange.mk 2 0 3])
  = 5.
Proof.
  apply (addresses_length_totalAddresses
           [StorageAddressRange.mk 1 5 2; StorageAddressRange.mk 2 0 3]).
  intros r [Hr|[Hr|[]]]; subst; simpl; lia.
Defined.

(** ** The chunks of the data stream *)

Lemma addresses_app (a b : NodeAllocation.t) :
  NodeAllocation.addresses (a ++ b) = NodeAllocation.addresses a ++ NodeAllocation.addresses b.
Proof. unfold NodeAllocation.addresses. rewrite map_app, concat_app. reflexivity. Qed.

Lemma split_chunk_addresses (chunk : StorageAddressRange.t) :
  NodeAllocation.addresses (split_chunk chunk) = NodeAllocation.range_addresses chunk.
Proof.
  funelim (split_chunk chunk).
  - rewrite addresses_cons, H.
    pose proof (proj1 (Z.ltb_lt _ _) Hlt) as Hlt'. clear -Hlt'.
    unfold maxRecordsPerChunk in *.
    destruct chunk as [pg rc ln].
    cbn [StorageAddressRange.pageNr StorageAddressRange.recordNr StorageAddressRange.length]
      in *.
    rewrite <- range_addresses_split by lia.
    replace (200 + (ln - 200)) with ln by lia. reflexivity.
  - rewrite addresses_cons. simpl. apply app_nil_r.
Qed.

Lemma split_chunk_bounded (chunk : StorageAddressRange.t) :
  Forall (fun c => StorageAddressRange.length c <= maxRecordsPerChunk) (split_chunk chunk).
Proof.
  funelim (split_chunk chunk).
  - constructor; [simpl; lia | exact H].
  - constructor; [|constructor]. clear Heqcall.
    destruct (maxRecordsPerChunk <? StorageAddressRange.length chunk) eqn:E; [discriminate|].
    apply Z.ltb_ge in E. exact E.
Qed.

Lemma range_chunks_addresses (i : nat) (range : StorageAddressRange.t) :
  NodeAllocation.addresses (range_chunks i range) = NodeAllocation.range_addresses range.
Proof.
  unfold range_chunks. case_match eqn:E.
  - apply andb_true_iff in E. destruct E as [_ E]. apply Z.ltb_lt in E.
    rewrite addresses_cons, split_chunk_addresses.
    destruct range as [pg rc ln].
    cbn [StorageAddressRange.pageNr StorageAddressRange.recordNr StorageAddressRange.length]
      in *.
    rewrite <- range_addresses_split by lia.
    replace (1 + (ln - 1)) with ln by lia. reflexivity.
  - apply split_chunk_addresses.
Qed.

Lemma range_chunks_bounded (i : nat) (range : StorageAddressRange.t) :
  Forall (fun c => StorageAddressRange.length c <= maxRecordsPerChunk) (range_chunks i range).
Proof.
  unfold range_chunks. case_match.
  - constructor; [unfold maxRecordsPerChunk; simpl; lia | apply split_chunk_bounded].
  - apply split_chunk_bounded.
Qed.

(** X5. The chunks [getDataStream] reads are the records of the allocation, each
    once and in the order of the allocation, and no chunk is longer than
    [maxRecordsPerChunk] records. *)
Theorem dataStream_chunks_cover (ranges : NodeAllocation.t) :
  NodeAllocation.addresses (dataStream_chunks ranges) = NodeAllocation.addresses ranges
  /\ Forall (fun c => StorageAddressRange.length c <= maxRecordsPerChunk)
       (dataStream_chunks ranges).
Proof.
  unfold dataStream_chunks.
  assert (G : forall (f : nat -> StorageAddressRange.t -> list StorageAddressRange.t),
             (forall i r, NodeAllocation.addresses (f i r) = NodeAllocation.range_addresses r) ->
             (forall i r, Forall (fun c => StorageAddressRange.length c <= maxRecordsPerChunk)
                            (f i r)) ->
             NodeAllocation.addresses (concat (imap f ranges)) = NodeAllocation.addresses ranges
             /\ Forall (fun c => StorageAddressRange.length c <= maxRecordsPerChunk)
                  (concat (imap f ranges))).
  { induction ranges as [|range ranges IH]; intros f Ha Hb.
    - split; [reflexivity | constructor].
    - rewrite imap_cons. simpl concat.
      destruct (IH (f ∘ S)) as [IHa IHb];
        [intros; apply Ha | intros; apply Hb |].
      split.
      + rewrite addresses_app, addresses_cons, Ha, IHa. reflexivity.
      + apply Forall_app. split; [apply Hb | exact IHb]. }
  apply G; [apply range_chunks_addresses | apply range_chunks_bounded].
Qed.

(** X6. Whatever the length of the first range (one record or more), the first
    chunk is its first record alone: the record that holds the header. *)
Theorem dataStream_first_chunk (first : StorageAddressRange.t) (rest : NodeAllocation.t) :
  1 <= StorageAddressRange.length first ->
  exists chunks,
    dataStream_chunks (first :: rest)
    = StorageAddressRange.mk (StorageAddressRange.pageNr first)
        (StorageAddressRange.recordNr first) 1
      :: chunks.
Proof.
  intros H. unfold dataStream_chunks. rewrite imap_cons. simpl concat.
  unfold range_chunks at 1.
  destruct (1 <? StorageAddressRange.length first) eqn:E.
  - rewrite bool_decide_eq_true_2 by reflexivity. simpl. eexists. reflexivity.
  - apply Z.ltb_ge in E. rewrite bool_decide_eq_true_2 by reflexivity. simpl.
    assert (Hone : StorageAddressRange.length first = 1) by lia.
    destruct first as [pg rc ln]. simpl in *. subst ln.
    rewrite split_chunk_equation_1. simpl. eexists. reflexivity.
Qed.

Lemma dataStream_first_chunk_witness :
  exists chunks,
    dataStream_chunks [StorageAddressRange.mk 3 7 450; StorageAddressRange.mk 4 0 2]
    = StorageAddressRange.mk 3 7 1 :: chunks.
Proof.
  apply (dataStream_first_chunk (StorageAddressRange.mk 3 7 450)
           [StorageAddressRange.mk 4 0 2]).
  simpl. lia.
Defined.

Lemma totalBytes_from (ranges l : NodeAllocation.t) (bytesPerRecord lastRecordLength : Z) :
  forall pre, ranges = pre ++ l -> l <> [] ->
  fold_left (fun totalBytes c => totalBytes + c)
    (imap (fun i => chunkLength ranges bytesPerRecord lastRecordLength (length pre + i)) l) 0
  = (NodeAllocation.totalAddresses l - 1) * bytesPerRecord + lastRecordLength.
Proof.
  induction l as [|range l IH]; intros pre Hpre Hne; [congruence|].
  rewrite imap_cons. simpl fold_left. rewrite sum_from, totalAddresses_cons.
  destruct l as [|range' l'].
  - simpl. unfold chunkLength, NodeAllocation.totalAddresses. simpl.
    rewrite bool_decide_eq_true_2; [lia|].
    subst ranges. unfold len. rewrite length_app. simpl. lia.
  - specialize (IH (pre ++ [range])).
    rewrite <- app_assoc in IH. specialize (IH Hpre ltac:(discriminate)).
    erewrite imap_ext; [rewrite IH|].
    + unfold chunkLength at 1. rewrite bool_decide_eq_false_2; [lia|].
      subst ranges. unfold len. rewrite length_app. simpl. lia.
    + intros i x _. simpl. rewrite length_app. simpl. f_equal. lia.
Qed.

(** The case of one record in [totalByteLength] gives what the general
    formula gives. *)
Lemma totalByteLength_formula (info : RecordInfo.t) :
  RecordInfo.totalByteLength info
  = (NodeAllocation.totalAddresses (RecordInfo.allocation info) - 1)
    * RecordInfo.bytesPerRecord info
    + RecordInfo.lastRecordLength info.
Proof.
  unfold RecordInfo.totalByteLength.
  destruct (RecordInfo.allocation info) as [|range [|range' l]]; try reflexivity.
  case_match eqn:E; [|reflexivity].
  apply bool_decide_eq_true in E.
  unfold NodeAllocation.totalAddresses. simpl. rewrite E. lia.
Qed.

(** X7. The byte count [getDataStream] adds up over the ranges is the
    [totalByteLength] of the record info: all records but the last one in
    full, and [lastRecordLength] bytes of the last one. *)
Theorem dataStream_totalBytes_totalByteLength (info : RecordInfo.t) :
  RecordInfo.allocation info <> [] ->
  dataStream_totalBytes (RecordInfo.allocation info) (RecordInfo.bytesPerRecord info)
    (RecordInfo.lastRecordLength info)
  = RecordInfo.totalByteLength info
  /\ RecordInfo.totalByteLength info
     = (NodeAllocation.totalAddresses (RecordInfo.allocation info) - 1)
       * RecordInfo.bytesPerRecord info
       + RecordInfo.lastRecordLength info.
Proof.
  intros Hne. split; [|apply totalByteLength_formula].
  rewrite totalByteLength_formula. unfold dataStream_totalBytes.
  exact (totalBytes_from (RecordInfo.allocation info) (RecordInfo.allocation info)
           (RecordInfo.bytesPerRecord info) (RecordInfo.lastRecordLength info)
           [] eq_refl Hne).
Qed.

Lemma dataStream_totalBytes_totalByteLength_witness :
  dataStream_totalBytes [StorageAddressRange.mk 3 7 2; StorageAddressRange.mk 4 0 2] 128 40
  = RecordInfo.totalByteLength
      (RecordInfo.mk [StorageAddressRange.mk 3 7 2; StorageAddressRange.mk 4 0 2] 16 40 128).
Proof.
  apply (dataStream_totalBytes_totalByteLength
           (RecordInfo.mk [StorageAddressRange.mk 3 7 2; StorageAddressRange.mk 4 0 2]
              16 40 128)).
  discriminate.
Defined.

(** ** Paths *)

Lemma every_key_matches_prefix (ancestorKeys descendantKeys : list PathKey) :
  every_key_matches ancestorKeys descendantKeys = true
  <-> ancestorKeys `prefix_of` descendantKeys.
Proof.
  revert descendantKeys.
  induction ancestorKeys as [|key ancestorKeys IH]; intros descendantKeys; simpl.
  - split; [intros _; apply prefix_nil | reflexivity].
  - destruct descendantKeys as [|key' descendantKeys].
    + split; [discriminate|]. intros [k Hk]. discriminate.
    + rewrite andb_true_iff, bool_decide_eq_true, IH. split.
      * intros [-> Hp]. apply prefix_cons. exact Hp.
      * intros [k Hk]. inversion Hk; subst. split; [reflexivity|].
        exists k. reflexivity.
Qed.

(** X8. [isAncestorOf] answers [true] for the root path, whatever the other
    path is (the root itself included); for any other path it answers
    [true] exactly when the two paths differ and its keys are the first
    keys of the other path. [isDescendantOf] is the same test with the two
    paths exchanged. *)
Theorem isAncestorOf_prefix (getPathKeys : string -> list PathKey) (path otherPath : string) :
  (NodePath.isAncestorOf getPathKeys path otherPath = true
   <-> path = ""
       \/ (path <> otherPath /\ getPathKeys path `prefix_of` getPathKeys otherPath))
  /\ NodePath.isDescendantOf getPathKeys otherPath path
     = NodePath.isAncestorOf getPathKeys path otherPath.
Proof.
  split.
  - unfold NodePath.isAncestorOf.
    destruct (decide (path = "")) as [->|Hroot].
    + rewrite bool_decide_eq_true_2 by reflexivity. split; [left; reflexivity | reflexivity].
    + rewrite bool_decide_eq_false_2 by exact Hroot.
      destruct (decide (path = otherPath)) as [->|Hne].
      * rewrite bool_decide_eq_true_2 by reflexivity.
        split; [discriminate|]. intros [H|[H _]]; congruence.
      * rewrite bool_decide_eq_false_2 by exact Hne.
        destruct (length (getPathKeys otherPath) <? length (getPathKeys path))%nat eqn:E.
        -- apply Nat.ltb_lt in E. split; [discriminate|].
           intros [H|[_ H]]; [congruence|].
           apply prefix_length in H. lia.
        -- rewrite every_key_matches_prefix. split.
           ++ intros H. right. split; assumption.
           ++ intros [H|[_ H]]; [congruence | exact H].
  - unfold NodePath.isDescendantOf, NodePath.isAncestorOf.
    destruct (bool_decide (path = "")); [reflexivity|].
    destruct (decide (path = otherPath)) as [->|Hne].
    + rewrite !bool_decide_eq_true_2 by reflexivity. reflexivity.
    + rewrite !bool_decide_eq_false_2 by congruence. reflexivity.
Qed.

(** ** The address cache: update, find and remove *)

Lemma cache_get_set_eq (c : Cache) (k : string) (e : NodeCacheEntry.t) :
  cache_get (cache_set c k e) k = Some e.
Proof.
  induction c as [|[k0 e0] c IH]; simpl.
  - rewrite bool_decide_eq_true_2 by reflexivity. reflexivity.
  - destruct (bool_decide (k0 = k)) eqn:E; simpl.
    + rewrite bool_decide_eq_true_2 by reflexivity. reflexivity.
    + rewrite E. exact IH.
Qed.

(** X9. After [NodeCache.update(address)] for a path other than the root,
    [NodeCache.find] of that path gives an address with the page and record
    number of [address], and what [find] gives for any other path is as
    before. *)
Theorem update_then_find (address : NodeAddress.t) (p : string) (c : Cache) :
  NodeAddress.path address = Some p -> p <> "" -> ~ In p Object_prototype_names ->
  (exists found,
     NodeCache.find p (NodeCache.update address c) = Some found
     /\ NodeAddress.pageNr found = NodeAddress.pageNr address
     /\ NodeAddress.recordNr found = NodeAddress.recordNr address)
  /\ forall q, q <> p ->
       NodeCache.find q (NodeCache.update address c) = NodeCache.find q c.
Proof.
  intros Hp Hroot _. unfold NodeCache.update, NodeCache.find.
  rewrite Hp. rewrite bool_decide_eq_false_2 by congruence. simpl.
  destruct (cache_get c p) as [entry|] eqn:E.
  - split.
    + rewrite cache_get_set_eq. simpl. eexists. repeat split.
    + intros q Hq. rewrite cache_get_set_ne by congruence. reflexivity.
  - split.
    + rewrite cache_get_set_eq. simpl. eexists. repeat split.
    + intros q Hq. rewrite cache_get_set_ne by congruence. reflexivity.
Qed.

Lemma update_then_find_witness :
  exists found,
    NodeCache.find "users/ewout"
      (NodeCache.update (NodeAddress.at_ "users/ewout" 3 14)
         [("users", NodeCacheEntry.mk (NodeAddress.at_ "users" 1 0));
          ("users/ewout", NodeCacheEntry.mk (NodeAddress.at_ "users/ewout" 2 7))])
    = Some found
    /\ NodeAddress.pageNr found = Some 3
    /\ NodeAddress.recordNr found = Some 14.
Proof.
  refine (proj1 (update_then_find (NodeAddress.at_ "users/ewout" 3 14) "users/ewout" _
                   eq_refl _ _)).
  - discriminate.
  - vm_compute. intuition discriminate.
Defined.

Lemma cache_get_not_key (c : Cache) (k : string) :
  ~ In k (Object_keys c) -> cache_get c k = None.
Proof.
  induction c as [|[k0 e0] c IH]; simpl; [reflexivity|].
  intros H. rewrite bool_decide_eq_false_2 by tauto. apply IH. tauto.
Qed.

Lemma cache_get_delete (c : Cache) (k q : string) :
  cache_ok c ->
  cache_get (cache_delete c k) q = if bool_decide (q = k) then None else cache_get c q.
Proof.
  unfold cache_ok. induction c as [|[k0 e0] c IH]; simpl; intros Hnd.
  - case_bool_decide; reflexivity.
  - inversion Hnd as [|? ? Hnotin Hnd']; subst. rewrite list_elem_of_In in Hnotin.
    destruct (decide (k0 = k)) as [->|Hk].
    + rewrite bool_decide_eq_true_2 by reflexivity.
      destruct (decide (q = k)) as [->|Hq].
      * rewrite bool_decide_eq_true_2 by reflexivity. apply cache_get_not_key. exact Hnotin.
      * rewrite bool_decide_eq_false_2 by exact Hq.
        rewrite bool_decide_eq_false_2 by congruence. reflexivity.
    + rewrite bool_decide_eq_false_2 by exact Hk. simpl.
      rewrite IH by exact Hnd'.
      repeat case_bool_decide; congruence.
Qed.

(** X10. After [NodeCache.remove(address)], [NodeCache.find] of the path of
    [address] gives [null], and what [find] gives for any other path is as
    before. *)
Theorem remove_then_find (address : NodeAddress.t) (p : string) (c : Cache) :
  NodeAddress.path address = Some p -> ~ In p Object_prototype_names -> cache_ok c ->
  NodeCache.find p (NodeCache.remove (ObjAddress address) c) = None
  /\ forall q, q <> p ->
       NodeCache.find q (NodeCache.remove (ObjAddress address) c) = NodeCache.find q c.
Proof.
  intros Hp _ Hok. unfold NodeCache.remove, NodeCache.find. simpl. rewrite Hp. simpl.
  destruct (cache_get c p) as [entry|] eqn:E.
  - split.
    + rewrite cache_get_delete by exact Hok.
      rewrite bool_decide_eq_true_2 by reflexivity. reflexivity.
    + intros q Hq. rewrite cache_get_delete by exact Hok.
      rewrite bool_decide_eq_false_2 by exact Hq. reflexivity.
  - split; [rewrite E; reflexivity | reflexivity].
Qed.

Lemma remove_then_find_witness :
  NodeCache.find "users/ewout"
    (NodeCache.remove (ObjAddress (NodeAddress.at_ "users/ewout" 2 7))
       [("users", NodeCacheEntry.mk (NodeAddress.at_ "users" 1 0));
        ("users/ewout", NodeCacheEntry.mk (NodeAddress.at_ "users/ewout" 2 7))])
  = None.
Proof.
  refine (proj1 (remove_then_find (NodeAddress.at_ "users/ewout" 2 7) "users/ewout" _
                   eq_refl _ _)).
  - vm_compute. intuition discriminate.
  - unfold cache_ok. simpl. repeat constructor; rewrite list_elem_of_In; simpl;
      intuition discriminate.
Defined.

Lemma NoDup_List_filter {A} (f : A -> bool) (l : list A) :
  NoDup l -> NoDup (List.filter f l).
Proof.
  induction l as [|a l IH]; simpl; intros H; [constructor|].
  apply NoDup_cons in H. destruct H as [Ha Hl].
  destruct (f a); [|apply IH, Hl].
  apply NoDup_cons. split; [|apply IH, Hl].
  rewrite list_elem_of_In in *. rewrite filter_In. tauto.
Qed.

Lemma cache_set_keys (c : Cache) (k : string) (e : NodeCacheEntry.t) :
  Object_keys (cache_set c k e)
  = if bool_decide (k ∈ Object_keys c) then Object_keys c else Object_keys c ++ [k].
Proof.
  unfold Object_keys. induction c as [|[k0 e0] c IH].
  - rewrite bool_decide_eq_false_2; [reflexivity|].
    rewrite list_elem_of_In. simpl. tauto.
  - cbn [cache_set map fst]. destruct (decide (k0 = k)) as [->|Hk].
    + rewrite bool_decide_eq_true_2 by reflexivity.
      rewrite bool_decide_eq_true_2; [reflexivity|].
      apply list_elem_of_In. left. reflexivity.
    + rewrite bool_decide_eq_false_2 by exact Hk. cbn [map fst]. rewrite IH.
      destruct (decide (k ∈ map fst c)) as [Hin|Hin].
      * rewrite (bool_decide_eq_true_2 _ Hin).
        rewrite bool_decide_eq_true_2; [reflexivity|].
        rewrite list_elem_of_In in *. right. exact Hin.
      * rewrite (bool_decide_eq_false_2 _ Hin).
        rewrite bool_decide_eq_false_2; [reflexivity|].
        rewrite list_elem_of_In in *. simpl. tauto.
Qed.

Lemma cache_delete_keys (c : Cache) (k : string) :
  cache_ok c ->
  Object_keys (cache_delete c k) = List.filter (fun k' => negb (bool_decide (k' = k)))
                                     (Object_keys c).
Proof.
  unfold cache_ok, Object_keys. induction c as [|[k0 e0] c IH]; simpl; intros Hnd.
  - reflexivity.
  - inversion Hnd as [|? ? Hnotin Hnd']; subst. rewrite list_elem_of_In in Hnotin.
    destruct (decide (k0 = k)) as [->|Hk].
    + rewrite bool_decide_eq_true_2 by reflexivity. simpl.
      symmetry. clear IH Hnd Hnd'. induction (map fst c) as [|x xs IHx]; simpl; [reflexivity|].
      rewrite bool_decide_eq_false_2 by (simpl in Hnotin; intros ->; tauto). simpl.
      f_equal. apply IHx. simpl in Hnotin. tauto.
    + rewrite bool_decide_eq_false_2 by exact Hk. simpl. rewrite IH by exact Hnd'.
      reflexivity.
Qed.

(** [update] and [remove] keep the cache an object: no key comes to occur
    twice. *)
Lemma cache_ok_kept (o : NodeAddress.t) (c : Cache) :
  cache_ok c ->
  cache_ok (NodeCache.update o c) /\ cache_ok (NodeCache.remove (ObjAddress o) c).
Proof.
  intros Hok. split.
  - unfold NodeCache.update. case_bool_decide; [exact Hok|].
    assert (G : forall e, cache_ok (cache_set c (propertyKey (NodeAddress.path o)) e)).
    { intros e. unfold cache_ok. rewrite cache_set_keys. case_bool_decide; [exact Hok|].
      apply NoDup_app. split; [exact Hok|]. split.
      - intros x Hx Hx'. apply list_elem_of_In in Hx'. destruct Hx' as [<-|[]].
        tauto.
      - apply NoDup_singleton. }
    destruct (cache_get c _); apply G.
  - unfold NodeCache.remove. destruct (cache_get c _); [|exact Hok].
    unfold cache_ok. rewrite cache_delete_keys by exact Hok.
    apply NoDup_List_filter. exact Hok.
Qed.

(** ** The lock list: exclusion on a path *)

Lemma in_modify (i : nat) (f : NodeLock.t -> NodeLock.t) (s : NodeLock.Store) (l' : NodeLock.t) :
  In l' (NodeLock._locks (NodeLock.modify i f s)) ->
  exists l, In l (NodeLock._locks s)
            /\ l' = if bool_decide (NodeLock.id l = i) then f l else l.
Proof.
  unfold NodeLock.modify, NodeLock.with_locks. simpl. rewrite in_map_iff.
  intros [l [<- Hl]]. exists l. split; [exact Hl | reflexivity].
Qed.

Lemma modify_ids (i : nat) (f : NodeLock.t -> NodeLock.t) (s : NodeLock.Store) :
  (forall l, NodeLock.id (f l) = NodeLock.id l) ->
  map NodeLock.id (NodeLock._locks (NodeLock.modify i f s))
  = map NodeLock.id (NodeLock._locks s).
Proof.
  intros Hf. unfold NodeLock.modify, NodeLock.with_locks. simpl.
  rewrite map_map. apply map_ext. intros l. case_bool_decide; [apply Hf | reflexivity].
Qed.

Lemma modify_ids_ok (i : nat) (f : NodeLock.t -> NodeLock.t) (s : NodeLock.Store) :
  (forall l, NodeLock.id (f l) = NodeLock.id l) ->
  ids_ok s -> ids_ok (NodeLock.modify i f s).
Proof.
  intros Hf [Hnd Hlt]. split.
  - rewrite modify_ids by exact Hf. exact Hnd.
  - rewrite Forall_forall in *. intros l' Hl'. apply list_elem_of_In in Hl'.
    apply in_modify in Hl'. destruct Hl' as [l [Hl ->]].
    unfold NodeLock.modify, NodeLock.with_locks. simpl.
    apply list_elem_of_In in Hl. specialize (Hlt l Hl).
    case_bool_decide; [rewrite Hf|]; exact Hlt.
Qed.

Lemma modify_modify (i : nat) (f g : NodeLock.t -> NodeLock.t) (s : NodeLock.Store) :
  (forall l, NodeLock.id (f l) = NodeLock.id l) ->
  NodeLock.modify i g (NodeLock.modify i f s) = NodeLock.modify i (fun l => g (f l)) s.
Proof.
  intros Hf. unfold NodeLock.modify, NodeLock.with_locks. simpl. f_equal.
  rewrite map_map. apply map_ext. intros l.
  destruct (decide (NodeLock.id l = i)) as [Hi|Hi].
  - rewrite (bool_decide_eq_true_2 _ Hi).
    rewrite bool_decide_eq_true_2 by (rewrite Hf; exact Hi). reflexivity.
  - rewrite (bool_decide_eq_false_2 _ Hi).
    rewrite bool_decide_eq_false_2 by exact Hi. reflexivity.
Qed.

Lemma same_id_same_lock (ls : list NodeLock.t) (l1 l2 : NodeLock.t) :
  NoDup (map NodeLock.id ls) -> In l1 ls -> In l2 ls ->
  NodeLock.id l1 = NodeLock.id l2 -> l1 = l2.
Proof.
  induction ls as [|a ls IH]; simpl; intros Hnd H1 H2 Hid; [destruct H1|].
  apply NoDup_cons in Hnd. destruct Hnd as [Ha Hnd].
  rewrite list_elem_of_In in Ha.
  destruct H1 as [<-|H1], H2 as [<-|H2].
  - reflexivity.
  - exfalso. apply Ha. rewrite Hid. apply in_map. exact H2.
  - exfalso. apply Ha. rewrite <- Hid. apply in_map. exact H1.
  - apply IH; assumption.
Qed.

Lemma get_Some_in (i : nat) (s : NodeLock.Store) (this : NodeLock.t) :
  NodeLock.get i s = Some this ->
  In this (NodeLock._locks s) /\ NodeLock.id this = i.
Proof.
  unfold NodeLock.get. intros H. apply find_some in H. destruct H as [Hin Hid].
  apply bool_decide_eq_true in Hid. split; assumption.
Qed.

(** Changing the lock [i] in place keeps the exclusion when its new version,
    if [LOCKED], shares its path with no [LOCKED] lock of another
    transaction unless both are for reading. *)
Lemma exclusive_modify (i : nat) (f : NodeLock.t -> NodeLock.t) (s : NodeLock.Store)
    (this : NodeLock.t) :
  NoDup (map NodeLock.id (NodeLock._locks s)) ->
  NodeLock.get i s = Some this ->
  (forall l, NodeLock.tid (f l) = NodeLock.tid l) ->
  (NodeLock.state (f this) = NodeLock.LOCKED ->
   forall l2, In l2 (NodeLock._locks s) -> NodeLock.id l2 <> i ->
     NodeLock.state l2 = NodeLock.LOCKED -> NodeLock.tid l2 <> NodeLock.tid this ->
     NodeLock.path l2 = NodeLock.path (f this) ->
     NodeLock.forWriting (f this) = false /\ NodeLock.forWriting l2 = false) ->
  exclusive (NodeLock._locks s) -> exclusive (NodeLock._locks (NodeLock.modify i f s)).
Proof.
  intros Hnd Hget Htid Hnew Hex l1' l2' H1 H2 Hs1 Hs2 Ht Hp.
  apply get_Some_in in Hget. destruct Hget as [Hthis Hid].
  apply in_modify in H1. destruct H1 as [l1 [H1 ->]].
  apply in_modify in H2. destruct H2 as [l2 [H2 ->]].
  destruct (decide (NodeLock.id l1 = i)) as [E1|E1];
    [rewrite (bool_decide_eq_true_2 _ E1) in * | rewrite (bool_decide_eq_false_2 _ E1) in *];
    (destruct (decide (NodeLock.id l2 = i)) as [E2|E2];
     [rewrite (bool_decide_eq_true_2 _ E2) in *
     | rewrite (bool_decide_eq_false_2 _ E2) in *]).
  - exfalso. apply Ht.
    rewrite (same_id_same_lock _ l1 l2 Hnd H1 H2) by congruence. reflexivity.
  - assert (l1 = this) by (apply (same_id_same_lock _ _ _ Hnd H1 Hthis); congruence).
    subst l1. rewrite Htid in Ht.
    apply (Hnew Hs1 l2 H2 E2 Hs2); [congruence | congruence].
  - assert (l2 = this) by (apply (same_id_same_lock _ _ _ Hnd H2 Hthis); congruence).
    subst l2. rewrite Htid in Ht.
    destruct (Hnew Hs2 l1 H1 E1 Hs1) as [Ha Hb]; [congruence | congruence |].
    split; assumption.
  - apply Hex; assumption.
Qed.

(** What [_allowLock] has checked when it allows a lock. *)
Lemma allowLock_no_clash getPathKeys (p tid_ : string) (forWriting_ : bool)
    (s : NodeLock.Store) :
  fst (NodeLock._allowLock getPathKeys p tid_ forWriting_ s) = true ->
  forall l, In l (NodeLock._locks s) ->
    NodeLock.state l = NodeLock.LOCKED -> NodeLock.tid l <> tid_ ->
    NodeLock.path l = p ->
    forWriting_ = false /\ NodeLock.forWriting l = false.
Proof.
  unfold NodeLock._allowLock. simpl.
  destruct (List.find _ _) as [c|] eqn:E.
  - rewrite bool_decide_eq_true_2 by eauto. discriminate.
  - intros _ l Hl Hs Ht Hp.
    rewrite find_filter_None in E. specialize (E l Hl).
    rewrite bool_decide_eq_false_2 in E by exact Ht.
    rewrite bool_decide_eq_true_2 in E by exact Hs. simpl in E.
    unfold NodeLock.clashes in E.
    rewrite (bool_decide_eq_true_2 (p = NodeLock.path l)) in E by congruence.
    simpl in E. rewrite andb_true_r in E. apply orb_false_iff in E. exact E.
Qed.

Lemma grant_as_modify (noTimeout : bool) (i : nat) (s : NodeLock.Store) :
  NodeLock.grant noTimeout i s
  = NodeLock.modify i
      (fun l =>
         let l := NodeLock.set_state NodeLock.LOCKED l in
         match NodeLock.granted l with
         | Some _ => l
         | None =>
             NodeLock.set_granted (Some (NodeLock.now s))
               (if noTimeout then NodeLock.expires l
                else Some (NodeLock.now s + LOCK_TIMEOUT)) l
         end) s.
Proof. reflexivity. Qed.

Lemma exclusive_filter (f : NodeLock.t -> bool) (ls : list NodeLock.t) :
  exclusive ls -> exclusive (List.filter f ls).
Proof.
  intros Hex l1 l2 H1 H2. apply filter_In in H1, H2.
  apply Hex; tauto.
Qed.

Lemma filter_ids_ok (f : NodeLock.t -> bool) (s : NodeLock.Store) :
  ids_ok s -> ids_ok (NodeLock.with_locks (List.filter f (NodeLock._locks s)) s).
Proof.
  intros [Hnd Hlt]. split; simpl.
  - clear Hlt. induction (NodeLock._locks s) as [|a ls IH]; simpl; [constructor|].
    simpl in Hnd. apply NoDup_cons in Hnd. destruct Hnd as [Ha Hnd].
    destruct (f a); [|apply IH, Hnd].
    simpl. apply NoDup_cons. split; [|apply IH, Hnd].
    rewrite list_elem_of_In in *. rewrite in_map_iff in *.
    intros [x [Hx Hin]]. apply Ha. exists x. apply filter_In in Hin. tauto.
  - rewrite Forall_forall in *. intros l Hl. apply Hlt.
    rewrite list_elem_of_In in *. apply filter_In in Hl. tauto.
Qed.

(** Granting a lock that [_allowLock] has just allowed. *)
Lemma checked_grant_keeps getPathKeys (i : nat) (f : NodeLock.t -> NodeLock.t)
    (s : NodeLock.Store) (this : NodeLock.t) :
  ids_ok s -> exclusive (NodeLock._locks s) ->
  NodeLock.get i s = Some this ->
  (forall l, NodeLock.id (f l) = NodeLock.id l /\ NodeLock.tid (f l) = NodeLock.tid l
             /\ NodeLock.path (f l) = NodeLock.path l
             /\ NodeLock.forWriting (f l) = NodeLock.forWriting l) ->
  fst (NodeLock._allowLock getPathKeys (NodeLock.path this) (NodeLock.tid this)
         (NodeLock.forWriting this) s) = true ->
  ids_ok (NodeLock.modify i f s) /\ exclusive (NodeLock._locks (NodeLock.modify i f s)).
Proof.
  intros Hids Hex Hget Hf Hallow. split.
  - apply modify_ids_ok; [intros l; apply Hf | exact Hids].
  - apply (exclusive_modify i f s this); [apply Hids | exact Hget | intros l; apply Hf | |
                                          exact Hex].
    intros _ l2 Hl2 _ Hs2 Ht2 Hp2.
    destruct (Hf this) as (_ & _ & Hfp & Hfw). rewrite Hfp in Hp2. rewrite Hfw.
    exact (allowLock_no_clash _ _ _ _ _ Hallow l2 Hl2 Hs2 Ht2 Hp2).
Qed.

Lemma process_one_keeps getPathKeys (i : nat) (s : NodeLock.Store) :
  ids_ok s -> exclusive (NodeLock._locks s) ->
  ids_ok (NodeLock.process_one getPathKeys i s)
  /\ exclusive (NodeLock._locks (NodeLock.process_one getPathKeys i s)).
Proof.
  intros Hids Hex. unfold NodeLock.process_one.
  destruct (NodeLock.get i s) as [this|] eqn:Hget; [|split; assumption].
  destruct (fst (NodeLock._allowLock getPathKeys _ _ _ s)) eqn:Hallow.
  - unfold NodeLock.lock_retry. cbn [snd]. rewrite grant_as_modify.
    rewrite !modify_modify by (intros l; reflexivity).
    apply (checked_grant_keeps getPathKeys i _ s this); try assumption.
    intros l. simpl. destruct (NodeLock.granted l); repeat split.
  - split.
    + apply modify_ids_ok; [reflexivity | exact Hids].
    + apply (exclusive_modify i _ s this); [apply Hids | exact Hget | reflexivity | | exact Hex].
      simpl. intros Hs l2 Hl2 Hi2 Hs2 Ht2 Hp2.
      apply get_Some_in in Hget. destruct Hget as [Hthis _].
      apply (Hex this l2 Hthis Hl2 Hs Hs2); congruence.
Qed.

Lemma processLockQueue_keeps getPathKeys sort_pending (s : NodeLock.Store) :
  ids_ok s -> exclusive (NodeLock._locks s) ->
  ids_ok (NodeLock._processLockQueue getPathKeys sort_pending s)
  /\ exclusive (NodeLock._locks (NodeLock._processLockQueue getPathKeys sort_pending s)).
Proof.
  unfold NodeLock._processLockQueue.
  generalize (sort_pending
                (List.filter
                   (fun l => bool_decide (NodeLock.state l = NodeLock.PENDING)
                             && match NodeLock.waitingFor l with
                                | Some w => negb (bool_decide (NodeLock.state_of w s
                                                               = NodeLock.LOCKED))
                                | None => true
                                end)
                   (NodeLock._locks s))).
  intros pending. revert s. induction pending as [|l pending IH]; intros s Hids Hex; simpl.
  - split; assumption.
  - destruct (process_one_keeps getPathKeys (NodeLock.id l) s Hids Hex) as [Hids' Hex'].
    apply IH; assumption.
Qed.

Lemma unlock_keeps getPathKeys sort_pending (i : nat) (processQueue : bool)
    (s : NodeLock.Store) :
  ids_ok s -> exclusive (NodeLock._locks s) ->
  ids_ok (snd (NodeLock.unlock getPathKeys sort_pending i processQueue s))
  /\ exclusive (NodeLock._locks (snd (NodeLock.unlock getPathKeys sort_pending i
                                        processQueue s))).
Proof.
  intros Hids Hex. unfold NodeLock.unlock.
  destruct (NodeLock.get i s); [|split; assumption]. cbn [snd].
  pose proof (filter_ids_ok (fun l => negb (bool_decide (NodeLock.id l = i))) s Hids) as Hids1.
  pose proof (exclusive_filter (fun l => negb (bool_decide (NodeLock.id l = i))) _ Hex)
    as Hex1.
  destruct processQueue; [|split; assumption].
  apply processLockQueue_keeps; assumption.
Qed.

Lemma get_fresh_last (ls : list NodeLock.t) (n : NodeLock.t) (next : nat) (t : Z) :
  (forall l, In l ls -> NodeLock.id l <> NodeLock.id n) ->
  NodeLock.get (NodeLock.id n) (NodeLock.mkStore (ls ++ [n]) next t) = Some n.
Proof.
  intros Hls. unfold NodeLock.get. simpl.
  induction ls as [|a ls IH]; simpl.
  - rewrite bool_decide_eq_true_2 by reflexivity. reflexivity.
  - rewrite bool_decide_eq_false_2 by (apply Hls; left; reflexivity).
    apply IH. intros l Hl. apply Hls. right. exact Hl.
Qed.

Lemma lock_keeps getPathKeys (p tid_ : string) (forWriting_ : bool) (comment_ : string)
    (withPriority noTimeout : bool) (s : NodeLock.Store) :
  ids_ok s -> exclusive (NodeLock._locks s) ->
  ids_ok (snd (NodeLock.lock getPathKeys p tid_ forWriting_ comment_ withPriority
                 noTimeout s))
  /\ exclusive (NodeLock._locks (snd (NodeLock.lock getPathKeys p tid_ forWriting_ comment_
                                        withPriority noTimeout s))).
Proof.
  intros Hids Hex. unfold NodeLock.lock.
  destruct (existsb _ _); [split; assumption|].
  cbv zeta.
  set (lock1 := NodeLock.set_comment comment_
                  (NodeLock.mk (NodeLock.next_id s) tid_ p forWriting_ withPriority
                     NodeLock.PENDING (NodeLock.now s) None None "" None)).
  set (s1 := NodeLock.mkStore (NodeLock._locks s ++ [lock1]) (S (NodeLock.next_id s))
               (NodeLock.now s)).
  destruct Hids as [Hnd Hlt].
  assert (Hfresh : forall l, In l (NodeLock._locks s) -> NodeLock.id l <> NodeLock.id lock1).
  { intros l Hl. rewrite Forall_forall in Hlt. apply list_elem_of_In in Hl.
    specialize (Hlt l Hl). simpl. lia. }
  assert (Hids1 : ids_ok s1).
  { split; simpl.
    - rewrite map_app. apply NoDup_app. split; [exact Hnd|]. split; [|apply NoDup_singleton].
      intros x Hx Hx'. apply list_elem_of_In in Hx, Hx'. simpl in Hx'.
      destruct Hx' as [<-|[]]. apply in_map_iff in Hx. destruct Hx as [l [Hid Hl]].
      apply (Hfresh l Hl). exact Hid.
    - apply Forall_app. split.
      + rewrite Forall_forall in *. intros l Hl. specialize (Hlt l Hl). lia.
      + constructor; [simpl; lia | constructor]. }
  assert (Hex1 : exclusive (NodeLock._locks s1)).
  { intros l1 l2 H1 H2 Hs1 Hs2. simpl in H1, H2.
    apply in_app_iff in H1, H2.
    destruct H1 as [H1|[<-|[]]]; [|discriminate].
    destruct H2 as [H2|[<-|[]]]; [|discriminate].
    apply Hex; assumption. }
  assert (Hget : NodeLock.get (NodeLock.next_id s) s1 = Some lock1).
  { apply (get_fresh_last (NodeLock._locks s) lock1). exact Hfresh. }
  destruct (fst (NodeLock._allowLock getPathKeys p tid_ forWriting_ s1)) eqn:Hallow; cbn [snd].
  - rewrite grant_as_modify. rewrite modify_modify by (intros l; reflexivity).
    apply (checked_grant_keeps getPathKeys _ _ s1 lock1); try assumption.
    intros l. simpl. destruct (NodeLock.granted l); repeat split.
  - split.
    + apply modify_ids_ok; [reflexivity | exact Hids1].
    + apply (exclusive_modify _ _ s1 lock1);
        [apply Hids1 | exact Hget | reflexivity | discriminate | exact Hex1].
Qed.

(** X11. [NodeLock.lock] keeps the exclusion on a path: if no two [LOCKED] locks
    of different transactions share a path unless both are for reading,
    this is still so after the call, whether the new lock was granted or
    queued. *)
Theorem lock_keeps_exclusive (getPathKeys : string -> list PathKey)
    (p tid_ : string) (forWriting_ : bool) (comment_ : string)
    (withPriority noTimeout : bool) (s : NodeLock.Store) :
  ids_ok s -> exclusive (NodeLock._locks s) ->
  exclusive (NodeLock._locks (snd (NodeLock.lock getPathKeys p tid_ forWriting_ comment_
                                     withPriority noTimeout s))).
Proof. intros Hids Hex. apply lock_keeps; assumption. Qed.

(** X12. [NodeLock.unlock], and so [lock.release], keeps the exclusion on a path,
    also through the pending locks that [_processLockQueue] grants once the
    lock is gone, in whatever order the queue is sorted. *)
Theorem unlock_keeps_exclusive (getPathKeys : string -> list PathKey)
    (sort_pending : list NodeLock.t -> list NodeLock.t)
    (i : nat) (processQueue : bool) (s : NodeLock.Store) :
  ids_ok s -> exclusive (NodeLock._locks s) ->
  exclusive (NodeLock._locks (snd (NodeLock.unlock getPathKeys sort_pending i
                                     processQueue s))).
Proof. intros Hids Hex. apply unlock_keeps; assumption. Qed.

(** X13. [lock.moveToParent()] keeps the exclusion on a path, both when the lock
    is moved in place and when it is released and requested again on the
    parent path. *)
Theorem moveToParent_keeps_exclusive (getPathKeys : string -> list PathKey)
    (sort_pending : list NodeLock.t -> list NodeLock.t)
    (i : nat) (parentPath : string) (s : NodeLock.Store) :
  ids_ok s -> exclusive (NodeLock._locks s) ->
  exclusive (NodeLock._locks (snd (NodeLock.moveToParent getPathKeys sort_pending i
                                     parentPath s))).
Proof.
  intros Hids Hex. unfold NodeLock.moveToParent.
  destruct (NodeLock.get i s) as [this|] eqn:Hget; [|exact Hex].
  destruct (fst (NodeLock._allowLock getPathKeys parentPath _ _ s)) eqn:Hallow; cbn [snd].
  - apply (exclusive_modify i _ s this); [apply Hids | exact Hget | reflexivity | | exact Hex].
    simpl. intros _ l2 Hl2 _ Hs2 Ht2 Hp2.
    exact (allowLock_no_clash _ _ _ _ _ Hallow l2 Hl2 Hs2 Ht2 Hp2).
  - destruct (unlock_keeps getPathKeys sort_pending i false s Hids Hex) as [Hids1 Hex1].
    apply lock_keeps; assumption.
Qed.

Lemma sample_locks_ok : ids_ok sample_locks /\ exclusive (NodeLock._locks sample_locks).
Proof.
  split; [split|].
  - simpl. repeat (apply NoDup_cons; split; [rewrite list_elem_of_In; simpl; lia|]).
    constructor.
  - simpl. repeat constructor; simpl; lia.
  - intros l1 l2 H1 H2 Hs1 Hs2 Ht Hp. simpl in H1, H2.
    destruct H1 as [<-|[<-|[<-|[]]]]; destruct H2 as [<-|[<-|[<-|[]]]];
      simpl in *; try congruence; try discriminate.
Defined.

Lemma lock_keeps_exclusive_witness :
  exclusive (NodeLock._locks
               (snd (NodeLock.lock slashPathKeys "users" "t3" false "read users" false false
                       sample_locks))).
Proof.
  apply (lock_keeps_exclusive slashPathKeys "users" "t3" false "read users" false false
           sample_locks);
    [exact (proj1 sample_locks_ok) | exact (proj2 sample_locks_ok)].
Defined.

Lemma unlock_keeps_exclusive_witness :
  exclusive (NodeLock._locks
               (snd (NodeLock.unlock slashPathKeys (fun pending => pending) 1 true
                       sample_locks))).
Proof.
  apply (unlock_keeps_exclusive slashPathKeys (fun pending => pending) 1 true sample_locks);
    [exact (proj1 sample_locks_ok) | exact (proj2 sample_locks_ok)].
Defined.

Lemma moveToParent_keeps_exclusive_witness :
  exclusive (NodeLock._locks
               (snd (NodeLock.moveToParent slashPathKeys (fun pending => pending) 1 "users"
                       sample_locks))).
Proof.
  apply (moveToParent_keeps_exclusive slashPathKeys (fun pending => pending) 1 "users"
           sample_locks);
    [exact (proj1 sample_locks_ok) | exact (proj2 sample_locks_ok)].
Defined.

(** ** Child entries: bounds and round trips *)

#[local] Arguments slice : simpl never.
#[local] Arguments new_Uint8Array : simpl never.

Lemma land_63_bounds (z : Z) : 0 <= Z.land z 63 < 64.
Proof.
  split.
  - apply Z.land_nonneg. right. lia.
  - assert (H : Z.land z 63 = z mod 2 ^ 6) by (apply (Z.land_ones z 6); lia).
    rewrite H. apply Z.mod_pos_bound. lia.
Qed.

Lemma getValueFromBinary_result
    (bytesToNumber : list Z -> number) (textDecoder_decode : list Z -> string)
    (isArray : bool) (this_address : NodeAddress.t)
    (child : NodeInfo.t) (binary : list Z) (index : Z) (child' : NodeInfo.t) (index' : Z) :
  getValueFromBinary bytesToNumber textDecoder_decode isArray this_address child binary index
  = Normal (child', index') ->
  index + 2 <= index' <= len binary
  /\ NodeInfo.type child' = Some (Z.shiftr (byte_at binary index) 4)
  /\ NodeInfo.key child' = NodeInfo.key child
  /\ NodeInfo.index child' = NodeInfo.index child
  /\ NodeInfo.path child' = NodeInfo.path child.
Proof.
  unfold getValueFromBinary, assert_bytes.
  destruct (index + 2 >? len binary) eqn:E2; cbn [mbind Completion_bind bindC];
    [discriminate|].
  assert (H2 : index + 2 <= len binary) by lia.
  pose proof (land_63_bounds (byte_at binary (index + 1))) as H63.
  repeat (case_match; cbn [mbind Completion_bind bindC]; try discriminate);
    intros Hret; inversion Hret; subst; clear Hret; simpl;
    (split; [lia | repeat split]).
Qed.

(** X14. When [getValueFromBinary] returns, it has moved the index forward by at
    least the two bytes of the entry head and not past the end of the data,
    it has set the type of the child from the first byte, and it has left
    the key, the index and the path of the child alone. *)
Theorem getValueFromBinary_advances
    (bytesToNumber : list Z -> number) (textDecoder_decode : list Z -> string)
    (isArray : bool) (this_address : NodeAddress.t)
    (child : NodeInfo.t) (binary : list Z) (index : Z) (child' : NodeInfo.t) (index' : Z) :
  getValueFromBinary bytesToNumber textDecoder_decode isArray this_address child binary index
  = Normal (child', index') ->
  index + 2 <= index' <= len binary
  /\ NodeInfo.type child' = Some (Z.shiftr (byte_at binary index) 4)
  /\ NodeInfo.key child' = NodeInfo.key child
  /\ NodeInfo.index child' = NodeInfo.index child
  /\ NodeInfo.path child' = NodeInfo.path child.
Proof. apply getValueFromBinary_result. Qed.

Lemma getValueFromBinary_advances_witness :
  exists child' index',
    getValueFromBinary (fun _ => S754_zero false) bytes_text false (NodeAddress.at_ "a" 1 2)
      (NodeInfo.mk (Some "a/b") None None (Some "b") true None None) [80; 129; 104; 105; 0] 0
    = Normal (child', index')
    /\ 0 + 2 <= index' <= len [80; 129; 104; 105; 0].
Proof.
  eexists. eexists. split; [reflexivity|].
  exact (proj1 (getValueFromBinary_advances (fun _ => S754_zero false) bytes_text false
                  (NodeAddress.at_ "a" 1 2)
                  (NodeInfo.mk (Some "a/b") None None (Some "b") true None None)
                  [80; 129; 104; 105; 0] 0 _ _ eq_refl)).
Defined.

#[local] Arguments byte_at : simpl never.

Lemma forall_below (P : Z -> bool) (k : nat) :
  forallb P (map Z.of_nat (seq 0 k)) = true ->
  forall n, 0 <= n < Z.of_nat k -> P n = true.
Proof.
  intros H n Hn. rewrite forallb_forall in H. apply H.
  apply in_map_iff. exists (Z.to_nat n). split; [lia|].
  apply in_seq. lia.
Qed.

Lemma value_info_inline (n : Z) :
  0 <= n < 64 ->
  ToUint8 (Z.lor 128 n) = 128 + n
  /\ Z.land (128 + n) 192 = 128
  /\ Z.land (128 + n) 63 = n.
Proof.
  intros Hn.
  pose proof (forall_below
                (fun n => (ToUint8 (Z.lor 128 n) =? 128 + n)
                          && (Z.land (128 + n) 192 =? 128)
                          && (Z.land (128 + n) 63 =? n))
                64 ltac:(vm_compute; reflexivity) n Hn) as H.
  simpl in H. rewrite !andb_true_iff, !Z.eqb_eq in H. tauto.
Qed.

Lemma new_Uint8Array_bytes (bs : list Z) : is_bytes bs -> new_Uint8Array bs = bs.
Proof.
  unfold new_Uint8Array, is_bytes. induction 1 as [|b bs Hb _ IH]; simpl; [reflexivity|].
  rewrite IH. unfold ToUint8. rewrite Z.mod_small by lia. reflexivity.
Qed.

Lemma new_Uint8Array_app (a b : list Z) :
  new_Uint8Array (a ++ b) = new_Uint8Array a ++ new_Uint8Array b.
Proof. unfold new_Uint8Array. apply map_app. Qed.

Lemma new_Uint8Array_length (a : list Z) : len (new_Uint8Array a) = len a.
Proof. unfold new_Uint8Array, len. rewrite length_map. reflexivity. Qed.

(** The layout of an inline value of [type] whose bytes are [elems]. *)
Lemma inline_layout (type : Z) (elems : list Z) :
  0 <= type < 16 -> 1 <= len elems <= 64 -> is_bytes elems ->
  let binary := new_Uint8Array ([Z.shiftl type 4; Z.lor 128 (len elems - 1)] ++ elems) in
  len binary = 2 + len elems
  /\ Z.shiftr (byte_at binary 0) 4 = type
  /\ Z.land (byte_at binary 0) 15 = 0
  /\ Z.land (byte_at binary 1) 192 = 128
  /\ Z.land (byte_at binary 1) 63 + 1 = len elems
  /\ slice binary 2 (2 + len elems) = elems.
Proof.
  intros Ht Hl Hb binary. subst binary.
  rewrite new_Uint8Array_app, (new_Uint8Array_bytes elems Hb).
  destruct (value_info_inline (len elems - 1) ltac:(lia)) as (V1 & V2 & V3).
  assert (T : ToUint8 (Z.shiftl type 4) = type * 16).
  { unfold ToUint8. rewrite Z.shiftl_mul_pow2 by lia. apply Z.mod_small. lia. }
  unfold new_Uint8Array. cbn [map app]. rewrite T, V1.
  repeat split.
  - unfold len. simpl. lia.
  - unfold byte_at. simpl. rewrite Z.shiftr_div_pow2 by lia.
    change (2 ^ 4) with 16. apply Z.div_mul. lia.
  - unfold byte_at. simpl.
    change 15 with (Z.ones 4). rewrite Z.land_ones by lia.
    change (2 ^ 4) with 16. apply Z.mod_mul. lia.
  - unfold byte_at. simpl. exact V2.
  - unfold byte_at. simpl. rewrite V3. lia.
  - unfold slice. replace (Z.to_nat (2 + len elems - 2)) with (length elems)
      by (unfold len; lia).
    simpl. apply firstn_all.
Qed.

(** Decoding an inline value of [type] with the bytes [elems]. *)
Lemma getValueFromBinary_inline
    (bytesToNumber : list Z -> number) (textDecoder_decode : list Z -> string)
    (isArray : bool) (this_address : NodeAddress.t) (child : NodeInfo.t)
    (type : Z) (elems : list Z) :
  1 <= type < 16 -> 1 <= len elems <= 64 -> is_bytes elems ->
  getValueFromBinary bytesToNumber textDecoder_decode isArray this_address child
    (new_Uint8Array ([Z.shiftl type 4; Z.lor 128 (len elems - 1)] ++ elems)) 0
  = let child := NodeInfo.set_type type child in
    let index := 2 + len elems in
    if type =? VALUE_TYPES.NUMBER
    then Normal (NodeInfo.set_value (VNumber (bytesToNumber elems)) child, index)
    else if type =? VALUE_TYPES.STRING
    then Normal (NodeInfo.set_value (VString (textDecoder_decode elems)) child, index)
    else if type =? VALUE_TYPES.DATETIME
    then Normal (NodeInfo.set_value (VDate (TimeClip (bytesToNumber elems))) child, index)
    else if type =? VALUE_TYPES.ARRAY
    then Throw (Error "Inline array deserialization not implemented")
    else if type =? VALUE_TYPES.OBJECT
    then Throw (Error "Inline object deserialization not implemented")
    else if type =? VALUE_TYPES.BINARY
    then Normal (NodeInfo.set_value (VArrayBuffer elems) child, index)
    else if type =? VALUE_TYPES.REFERENCE
    then Normal (NodeInfo.set_value (VPathReference (textDecoder_decode elems)) child, index)
    else Throw (ThrownString
                  ("Inline value deserialization method missing for value type "
                   +:+ pretty type)).
Proof.
  intros Ht Hl Hb.
  destruct (inline_layout type elems ltac:(lia) Hl Hb) as (L & T & _ & I & N & S).
  unfold getValueFromBinary, assert_bytes.
  change (0 + 1) with 1. change (0 + 2) with 2.
  rewrite L, T, I, N, S, (new_Uint8Array_bytes _ Hb).
  replace (2 >? 2 + len elems) with false by lia.
  cbn [mbind Completion_bind bindC].
  replace (type =? 0) with false by lia.
  change (128 =? 64) with false. change (128 =? 128) with true. cbv iota.
  replace (2 + len elems >? 2 + len elems) with false by lia.
  cbn [mbind Completion_bind bindC]. reflexivity.
Qed.

(** What [_getValueBytes] writes for a value that is neither tiny nor in a
    record of its own. *)
Lemma getValueBytes_inline (kvp : SerializedKeyValue.t) (elems : list Z) :
  tiny_value_of kvp = Normal (-1) ->
  SerializedKeyValue.record kvp = None ->
  (SerializedKeyValue.bytes kvp = Some (PlainArray elems)
   \/ SerializedKeyValue.bytes kvp = Some (TypedArray elems)
   \/ (SerializedKeyValue.bytes kvp = None /\ SerializedKeyValue.binary kvp = Some elems)) ->
  _getValueBytes kvp
  = Normal ([Z.shiftl (SerializedKeyValue.type kvp) 4; Z.lor 128 (len elems - 1)] ++ elems).
Proof.
  intros Htiny Hrec Hdata. unfold _getValueBytes. rewrite Htiny, Hrec.
  cbn [mbind Completion_bind bindC]. change (0 <=? -1) with false. cbv iota.
  destruct Hdata as [->|[->|[-> ->]]]; reflexivity.
Qed.

(** X16. Text of 1 to 64 encoded bytes that is stored inline comes back as it
    was, as a string and as a path reference: the child entry written by
    [_serializeValue] and [_getValueBytes] is decoded by
    [getValueFromBinary] to the same text. The decoder is assumed to invert
    the encoder on this text. *)
Theorem inline_text_round_trip
    (numberToBytes : number -> list Z) (bytesToNumber : list Z -> number)
    (textEncoder_encode : string -> list Z) (textDecoder_decode : list Z -> string)
    (maxInlineValueSize : Z) (this_address : NodeAddress.t) (key : string) (s : string) :
  is_bytes (textEncoder_encode s) ->
  textDecoder_decode (textEncoder_encode s) = s ->
  1 <= len (textEncoder_encode s) <= 64 ->
  len (textEncoder_encode s) <= maxInlineValueSize ->
  write_then_read numberToBytes bytesToNumber textEncoder_encode textDecoder_decode
    maxInlineValueSize this_address key (VString s)
  = Normal (Some (VString s))
  /\ write_then_read numberToBytes bytesToNumber textEncoder_encode textDecoder_decode
       maxInlineValueSize this_address key (VPathReference s)
     = Normal (Some (VPathReference s)).
Proof.
  intros Hb Hdec Hlen Hmax.
  assert (Hgt : (len (textEncoder_encode s) >? maxInlineValueSize) = false) by lia.
  assert (Hz : (len (textEncoder_encode s) =? 0) = false) by lia.
  split.
  - unfold write_then_read, _serializeValue. rewrite Hgt.
    cbn [mbind Completion_bind bindC].
    rewrite (getValueBytes_inline _ (textEncoder_encode s));
      [| unfold tiny_value_of, create; simpl; rewrite Hz; reflexivity
       | reflexivity
       | right; right; split; reflexivity].
    cbn [mbind Completion_bind bindC].
    rewrite getValueFromBinary_inline
      by first [assumption | vm_compute; split; [discriminate | reflexivity]].
    simpl. rewrite Hdec. reflexivity.
  - unfold write_then_read, _serializeValue. rewrite Hgt.
    cbn [mbind Completion_bind bindC].
    rewrite (getValueBytes_inline _ (textEncoder_encode s));
      [| unfold tiny_value_of, create; simpl; reflexivity
       | reflexivity
       | right; right; split; reflexivity].
    cbn [mbind Completion_bind bindC].
    rewrite getValueFromBinary_inline
      by first [assumption | vm_compute; split; [discriminate | reflexivity]].
    simpl. rewrite Hdec. reflexivity.
Qed.

Lemma is_bytes_text_bytes (s : string) : is_bytes (text_bytes s).
Proof.
  unfold is_bytes, text_bytes. apply Forall_forall. intros b Hb.
  apply list_elem_of_In, in_map_iff in Hb. destruct Hb as [c [<- _]].
  pose proof (nat_ascii_bounded c). lia.
Qed.

Lemma bytes_text_text_bytes (s : string) : bytes_text (text_bytes s) = s.
Proof.
  unfold bytes_text, text_bytes. rewrite map_map.
  rewrite (map_ext _ (fun c => c)).
  - rewrite map_id. apply string_of_list_ascii_of_string.
  - intros c. rewrite Nat2Z.id. apply ascii_nat_embedding.
Qed.

Lemma inline_text_round_trip_witness :
  write_then_read (fun _ => []) (fun _ => S754_zero false) text_bytes bytes_text 50
    (NodeAddress.at_ "users" 1 2) "name" (VString "Ewout")
  = Normal (Some (VString "Ewout")).
Proof.
  refine (proj1 (inline_text_round_trip (fun _ => []) (fun _ => S754_zero false)
                   text_bytes bytes_text 50 (NodeAddress.at_ "users" 1 2) "name" "Ewout"
                   _ _ _ _)).
  - apply is_bytes_text_bytes.
  - reflexivity.
  - vm_compute. split; discriminate.
  - vm_compute. discriminate.
Defined.

(** X17. A number that is not written as a tiny value comes back as it was,
    and so does a date whose time is a time value ([new Date(time)] leaves
    it as it is, as the time of every valid date): the eight bytes of
    [numberToBytes] are stored inline and read with [bytesToNumber], assumed
    to invert it on this number. *)
Theorem inline_number_round_trip
    (numberToBytes : number -> list Z) (bytesToNumber : list Z -> number)
    (textEncoder_encode : string -> list Z) (textDecoder_decode : list Z -> string)
    (maxInlineValueSize : Z) (this_address : NodeAddress.t) (key : string) (n : number) :
  is_bytes (numberToBytes n) ->
  len (numberToBytes n) = 8 ->
  bytesToNumber (numberToBytes n) = n ->
  (is_tiny_number (VNumber n) = false ->
   write_then_read numberToBytes bytesToNumber textEncoder_encode textDecoder_decode
     maxInlineValueSize this_address key (VNumber n)
   = Normal (Some (VNumber n)))
  /\ (TimeClip n = n ->
      write_then_read numberToBytes bytesToNumber textEncoder_encode textDecoder_decode
        maxInlineValueSize this_address key (VDate n)
      = Normal (Some (VDate n))).
Proof.
  intros Hb Hlen Hinv. split.
  - intros Htiny. unfold write_then_read, _serializeValue.
    cbn [mbind Completion_bind bindC].
    rewrite (getValueBytes_inline _ (numberToBytes n));
      [| unfold tiny_value_of, create;
         cbn [SerializedKeyValue.type SerializedKeyValue.ref];
         rewrite Htiny; reflexivity
       | reflexivity
       | left; reflexivity].
    cbn [mbind Completion_bind bindC].
    rewrite getValueFromBinary_inline
      by first [assumption | lia | vm_compute; split; [discriminate | reflexivity]].
    simpl. rewrite Hinv. reflexivity.
  - intros Htime. unfold write_then_read, _serializeValue.
    cbn [mbind Completion_bind bindC].
    rewrite (getValueBytes_inline _ (numberToBytes n));
      [| reflexivity | reflexivity | left; reflexivity].
    cbn [mbind Completion_bind bindC].
    rewrite getValueFromBinary_inline
      by first [assumption | lia | vm_compute; split; [discriminate | reflexivity]].
    simpl. rewrite Hinv, Htime. reflexivity.
Qed.

(** The number pi, and the date 1600000000000 milliseconds after the epoch. *)
Lemma inline_number_round_trip_witness :
  let pi := S754_finite false 7074237752028440 (-51) in
  let time := number_of_Z 1600000000000 in
  write_then_read (fun _ => [64; 9; 33; 251; 84; 68; 45; 24]) (fun _ => pi)
    text_bytes bytes_text 50 (NodeAddress.at_ "circle" 1 2) "ratio" (VNumber pi)
  = Normal (Some (VNumber pi))
  /\ TimeClip time = time
  /\ write_then_read (fun _ => [66; 119; 72; 118; 232; 0; 0; 0]) (fun _ => time)
       text_bytes bytes_text 50 (NodeAddress.at_ "users/ewout" 1 2) "created" (VDate time)
     = Normal (Some (VDate time)).
Proof.
  intros pi time.
  assert (Htime : TimeClip time = time) by (vm_compute; reflexivity).
  split; [|split; [exact Htime|]].
  - refine (proj1 (inline_number_round_trip (fun _ => [64; 9; 33; 251; 84; 68; 45; 24])
                     (fun _ => pi) text_bytes bytes_text 50
                     (NodeAddress.at_ "circle" 1 2) "ratio" pi _ _ _) _).
    + unfold is_bytes. repeat constructor; lia.
    + reflexivity.
    + reflexivity.
    + vm_compute. reflexivity.
  - refine (proj2 (inline_number_round_trip (fun _ => [66; 119; 72; 118; 232; 0; 0; 0])
                     (fun _ => time) text_bytes bytes_text 50
                     (NodeAddress.at_ "users/ewout" 1 2) "created" time _ _ _) Htime).
    + unfold is_bytes. repeat constructor; lia.
    + reflexivity.
    + reflexivity.
Defined.

(** X18. The values with a tiny form come back as they were: the integers 0 to
    15, the booleans, the empty string, the empty array and the empty
    object. *)
Theorem tiny_values_round_trip
    (numberToBytes : number -> list Z) (bytesToNumber : list Z -> number)
    (textEncoder_encode : string -> list Z) (textDecoder_decode : list Z -> string)
    (maxInlineValueSize : Z) (this_address : NodeAddress.t) (key : string)
    (k : Z) (b : bool) :
  0 <= k <= 15 -> textEncoder_encode "" = [] -> 0 <= maxInlineValueSize ->
  let run := write_then_read numberToBytes bytesToNumber textEncoder_encode
               textDecoder_decode maxInlineValueSize this_address key in
  run (VNumber (number_of_Z k)) = Normal (Some (VNumber (number_of_Z k)))
  /\ run (VBoolean b) = Normal (Some (VBoolean b))
  /\ run (VString "") = Normal (Some (VString ""))
  /\ run (VArray []) = Normal (Some (VArray []))
  /\ run (VObject []) = Normal (Some (VObject [])).
Proof.
  intros Hk Henc Hmax run. subst run. split; [|split; [|split; [|split]]].
  - assert (Hcases : k = 0 \/ k = 1 \/ k = 2 \/ k = 3 \/ k = 4 \/ k = 5 \/ k = 6 \/ k = 7
                     \/ k = 8 \/ k = 9 \/ k = 10 \/ k = 11 \/ k = 12 \/ k = 13 \/ k = 14
                     \/ k = 15) by lia.
    repeat (destruct Hcases as [->|Hcases]; [reflexivity|]). subst k. reflexivity.
  - destruct b; reflexivity.
  - unfold write_then_read, _serializeValue. rewrite Henc.
    replace (len (@nil Z) >? maxInlineValueSize) with false
      by (change (len (@nil Z)) with 0; lia).
    reflexivity.
  - reflexivity.
  - reflexivity.
Qed.

Lemma tiny_values_round_trip_witness :
  write_then_read (fun _ => []) (fun _ => S754_zero false) text_bytes bytes_text 50
    (NodeAddress.at_ "users" 1 2) "age" (VNumber (number_of_Z 7))
  = Normal (Some (VNumber (number_of_Z 7))).
Proof.
  refine (proj1 (tiny_values_round_trip (fun _ => []) (fun _ => S754_zero false)
                   text_bytes bytes_text 50 (NodeAddress.at_ "users" 1 2) "age" 7 true
                   _ _ _)).
  - lia.
  - reflexivity.
  - lia.
Defined.

Lemma uint32_value (v : Z) :
  0 <= v < 2 ^ 32 ->
  ((v / 2 ^ 24) mod 256) mod 256 * 2 ^ 24 + ((v / 2 ^ 16) mod 256) mod 256 * 2 ^ 16
  + ((v / 2 ^ 8) mod 256) mod 256 * 2 ^ 8 + (v mod 256) mod 256 = v.
Proof.
  intros Hv. rewrite !Z.mod_mod by lia.
  change (2 ^ 32) with 4294967296 in Hv.
  change (2 ^ 24) with 16777216. change (2 ^ 16) with 65536. change (2 ^ 8) with 256.
  Z.div_mod_to_equations. lia.
Qed.

Lemma uint16_value (v : Z) :
  0 <= v < 2 ^ 16 ->
  ((v / 2 ^ 8) mod 256) mod 256 * 2 ^ 8 + (v mod 256) mod 256 = v.
Proof.
  intros Hv. rewrite !Z.mod_mod by lia.
  change (2 ^ 16) with 65536 in Hv. change (2 ^ 8) with 256.
  Z.div_mod_to_equations. lia.
Qed.

Lemma uint_bytes_are_bytes (v : Z) : is_bytes (uint32_bytes v) /\ is_bytes (uint16_bytes v).
Proof.
  unfold is_bytes, uint32_bytes, uint16_bytes.
  split; repeat constructor; apply Z.mod_pos_bound; lia.
Qed.

(** What [_getValueBytes] writes for a child kept in a record of its own. *)
Lemma getValueBytes_record (keyOrIndex : PathKey) (type : Z) (address : NodeAddress.t) :
  type <> VALUE_TYPES.BOOLEAN ->
  _getValueBytes (create keyOrIndex (VInternalNodeReference type address) type None None
                    (Some address) None)
  = Normal ([Z.shiftl type 4; 192]
            ++ uint32_bytes (default 0 (NodeAddress.pageNr address))
            ++ uint16_bytes (default 0 (NodeAddress.recordNr address))).
Proof.
  intros Hb. unfold _getValueBytes, tiny_value_of, create.
  cbn [SerializedKeyValue.type SerializedKeyValue.binary SerializedKeyValue.bytes
       SerializedKeyValue.record SerializedKeyValue.ref SerializedKeyValue.bool_].
  replace (type =? VALUE_TYPES.BOOLEAN) with false by lia.
  cbn [is_tiny_number andb]. rewrite !andb_false_r.
  destruct (type =? VALUE_TYPES.ARRAY); cbn [mbind Completion_bind bindC prop_length];
    [rewrite bool_decide_eq_false_2 by discriminate|];
    (destruct (type =? VALUE_TYPES.OBJECT);
     cbn [mbind Completion_bind bindC Object_keys_length]; reflexivity).
Qed.

Lemma record_layout (type pageNr recordNr : Z) :
  0 <= pageNr < 2 ^ 32 -> 0 <= recordNr < 2 ^ 16 ->
  let binary := [type * 16; 192] ++ uint32_bytes pageNr ++ uint16_bytes recordNr in
  len binary = 8
  /\ byte_at binary 0 = type * 16
  /\ byte_at binary 1 = 192
  /\ getUint32 binary 2 = pageNr
  /\ getUint16 binary 6 = recordNr.
Proof.
  intros Hpage Hrec binary. subst binary.
  unfold uint32_bytes, uint16_bytes, getUint32, getUint16, ToUint8, byte_at.
  repeat split.
  - simpl. exact (uint32_value pageNr Hpage).
  - simpl. exact (uint16_value recordNr Hrec).
Qed.

(** X19. The address of a child kept in a record of its own comes back from its
    entry: [_getValueBytes] writes the page number in four bytes and the
    record number in two, and [getValueFromBinary] gives the child that
    address under the path of the child, and the type written, unless the
    address equals the address of the node being read. *)
Theorem record_address_round_trip
    (numberToBytes : number -> list Z) (bytesToNumber : list Z -> number)
    (textEncoder_encode : string -> list Z) (textDecoder_decode : list Z -> string)
    (maxInlineValueSize : Z) (isArray : bool) (this_address : NodeAddress.t)
    (keyOrIndex : PathKey) (type : Z) (address : NodeAddress.t) (pageNr recordNr : Z)
    (child : NodeInfo.t) :
  1 <= type < 16 -> type <> VALUE_TYPES.BOOLEAN ->
  NodeAddress.pageNr address = Some pageNr -> NodeAddress.recordNr address = Some recordNr ->
  0 <= pageNr < 2 ^ 32 -> 0 <= recordNr < 2 ^ 16 ->
  write_then_read_info numberToBytes bytesToNumber textEncoder_encode textDecoder_decode
    maxInlineValueSize isArray this_address keyOrIndex
    (VInternalNodeReference type address) child
  = let childAddress :=
      NodeAddress.new (childPath_of isArray this_address (NodeInfo.set_type type child))
        (Some pageNr) (Some recordNr) in
    if NodeAddress.equals childAddress this_address
    then Throw (Error "Circular reference in record data")
    else Normal (NodeInfo.set_address childAddress (NodeInfo.set_type type child), 8).
Proof.
  intros Ht Hb Hpg Hrc Hpage Hrec.
  unfold write_then_read_info, _serializeValue. cbn [mbind Completion_bind bindC].
  rewrite getValueBytes_record by exact Hb. rewrite Hpg, Hrc. cbn [from_option]. unfold id.
  cbn [mbind Completion_bind bindC].
  rewrite !new_Uint8Array_app.
  rewrite (new_Uint8Array_bytes _ (proj1 (uint_bytes_are_bytes pageNr))).
  rewrite (new_Uint8Array_bytes _ (proj2 (uint_bytes_are_bytes recordNr))).
  assert (T : ToUint8 (Z.shiftl type 4) = type * 16).
  { unfold ToUint8. rewrite Z.shiftl_mul_pow2 by lia. apply Z.mod_small. lia. }
  unfold new_Uint8Array. cbn [map]. rewrite T. change (ToUint8 192) with 192.
  destruct (record_layout type pageNr recordNr Hpage Hrec) as (L & B0 & B1 & P & R).
  unfold getValueFromBinary, assert_bytes.
  change (0 + 1) with 1. change (0 + 2 + 4) with 6. change (0 + 2 + 6) with 8.
  change (0 + 2) with 2.
  rewrite L, B0, B1, P, R.
  change (Z.land 192 192) with 192.
  change (192 =? 64) with false. change (192 =? 128) with false.
  change (192 =? 192) with true. cbv iota.
  change (2 >? 8) with false. change (2 + 6 >? 8) with false.
  cbn [mbind Completion_bind bindC].
  rewrite Z.shiftr_div_pow2 by lia. change (2 ^ 4) with 16. rewrite Z.div_mul by lia.
  replace (type =? 0) with false by lia.
  reflexivity.
Qed.

Lemma record_address_round_trip_witness :
  write_then_read_info (fun _ => []) (fun _ => S754_zero false) text_bytes bytes_text 50
    false (NodeAddress.at_ "users" 1 2) (KeyName "ewout")
    (VInternalNodeReference VALUE_TYPES.OBJECT (NodeAddress.at_ "users/ewout" 70000 300))
    (NodeInfo.mk (Some "users/ewout") None None (Some "ewout") true None None)
  = Normal
      (NodeInfo.mk (Some "users/ewout") (Some VALUE_TYPES.OBJECT) None (Some "ewout") true
         (Some (NodeAddress.at_ "users/ewout" 70000 300)) None,
       8).
Proof.
  apply (record_address_round_trip (fun _ => []) (fun _ => S754_zero false) text_bytes
           bytes_text 50 false (NodeAddress.at_ "users" 1 2) (KeyName "ewout")
           VALUE_TYPES.OBJECT (NodeAddress.at_ "users/ewout" 70000 300) 70000 300
           (NodeInfo.mk (Some "users/ewout") None None (Some "ewout") true None None)).
  - vm_compute. split; [discriminate | reflexivity].
  - discriminate.
  - reflexivity.
  - reflexivity.
  - vm_compute. split; [discriminate | reflexivity].
  - vm_compute. split; [discriminate | reflexivity].
Defined.

(** ** Storage needs *)

Lemma ceil_div_bounds (a b : Z) :
  0 < b -> (ceil_div a b - 1) * b < a <= ceil_div a b * b.
Proof.
  intros Hb. unfold ceil_div.
  pose proof (Z.div_mod (a + b - 1) b ltac:(lia)) as Hdm.
  pose proof (Z.mod_pos_bound (a + b - 1) b Hb) as Hm. nia.
Qed.

Lemma storage_needs_bounds (bytes_length bytesPerRecord nrOfChunks : Z) :
  4 <= bytesPerRecord -> 0 <= bytes_length -> 1 <= nrOfChunks ->
  let needs := calculateStorageNeeds bytes_length bytesPerRecord nrOfChunks in
  StorageNeeds.totalBytes needs = bytes_length + StorageNeeds.headerBytes needs
  /\ 1 <= StorageNeeds.requiredRecords needs
  /\ (StorageNeeds.requiredRecords needs - 1) * bytesPerRecord < StorageNeeds.totalBytes needs
  /\ StorageNeeds.totalBytes needs <= StorageNeeds.requiredRecords needs * bytesPerRecord
  /\ 0 <= StorageNeeds.lastChunkSize needs <= bytesPerRecord
  /\ (StorageNeeds.requiredRecords needs = 1 ->
      StorageNeeds.headerBytes needs = 4
      /\ StorageNeeds.lastChunkSize needs = bytes_length)
  /\ (1 < StorageNeeds.requiredRecords needs ->
      StorageNeeds.headerBytes needs = 7 + (nrOfChunks - 1) * 9
      /\ (StorageNeeds.requiredRecords needs - 1) * bytesPerRecord
         + StorageNeeds.lastChunkSize needs
         = StorageNeeds.totalBytes needs).
Proof.
  intros Hbpr Hlen Hn needs. subst needs. unfold calculateStorageNeeds.
  pose proof (ceil_div_bounds (bytes_length + 4) bytesPerRecord ltac:(lia)) as B0.
  pose proof (ceil_div_bounds (bytes_length + (4 + 3 + (nrOfChunks - 1) * 9)) bytesPerRecord
                ltac:(lia)) as B1.
  destruct (1 <? ceil_div (bytes_length + 4) bytesPerRecord) eqn:E; cbv zeta beta iota.
  - apply Z.ltb_lt in E.
    assert (R : 1 < ceil_div (bytes_length + (4 + 3 + (nrOfChunks - 1) * 9)) bytesPerRecord)
      by nia.
    replace (ceil_div (bytes_length + (4 + 3 + (nrOfChunks - 1) * 9)) bytesPerRecord =? 1)
      with false by lia.
    pose proof (Z.mod_pos_bound (bytes_length + (4 + 3 + (nrOfChunks - 1) * 9))
                  bytesPerRecord ltac:(lia)) as Hm.
    pose proof (Z.div_mod (bytes_length + (4 + 3 + (nrOfChunks - 1) * 9)) bytesPerRecord
                  ltac:(lia)) as Hdm.
    set (total := bytes_length + (4 + 3 + (nrOfChunks - 1) * 9)) in *.
    set (rr := ceil_div total bytesPerRecord) in *.
    assert (Hlast : (rr - 1) * bytesPerRecord
                    + (if (total mod bytesPerRecord =? 0) && (0 <? bytes_length)
                       then bytesPerRecord else total mod bytesPerRecord)
                    = total).
    { destruct (total mod bytesPerRecord =? 0) eqn:Ez; cbn [andb].
      - apply Z.eqb_eq in Ez.
        assert (Hq : total / bytesPerRecord = rr).
        { assert (rr - 1 < total / bytesPerRecord)
            by (apply (Z.mul_lt_mono_pos_r bytesPerRecord); lia).
          assert (total / bytesPerRecord <= rr)
            by (apply (Z.mul_le_mono_pos_r _ _ bytesPerRecord); lia).
          lia. }
        assert (Hpos : 0 < bytes_length).
        { destruct (Z.eq_dec bytes_length 0) as [Hz|Hz]; [|lia].
          exfalso. subst total rr. rewrite Hz in *.
          unfold ceil_div in E. simpl in E.
          assert (Hsmall : (0 + 4 + bytesPerRecord - 1) / bytesPerRecord = 1).
          { symmetry. apply (Z.div_unique _ _ 1 3); lia. }
          lia. }
        replace (0 <? bytes_length) with true by lia.
        rewrite <- Hq. lia.
      - apply Z.eqb_neq in Ez.
        assert (Hq : total / bytesPerRecord = rr - 1).
        { assert (rr - 2 < total / bytesPerRecord)
            by (apply (Z.mul_lt_mono_pos_r bytesPerRecord); lia).
          assert (total / bytesPerRecord < rr)
            by (apply (Z.mul_lt_mono_pos_r bytesPerRecord); lia).
          lia. }
        rewrite <- Hq. lia. }
    cbn [StorageNeeds.totalBytes StorageNeeds.headerBytes StorageNeeds.requiredRecords
         StorageNeeds.lastChunkSize].
    repeat split; try lia;
      destruct ((total mod bytesPerRecord =? 0) && (0 <? bytes_length)); lia.
  - apply Z.ltb_ge in E.
    assert (R : ceil_div (bytes_length + 4) bytesPerRecord = 1) by nia.
    rewrite R. change (1 =? 1) with true. cbv iota.
    cbn [StorageNeeds.totalBytes StorageNeeds.headerBytes StorageNeeds.requiredRecords
         StorageNeeds.lastChunkSize].
    assert (Hlast : (if (bytes_length =? 0) && (0 <? bytes_length)
                     then bytesPerRecord else bytes_length) = bytes_length).
    { destruct (bytes_length =? 0) eqn:Ez; simpl; [|reflexivity].
      apply Z.eqb_eq in Ez. replace (0 <? bytes_length) with false by lia. reflexivity. }
    rewrite Hlast. repeat split; lia.
Qed.

(** X21. For records of at least four bytes, [calculateStorageNeeds] asks for as
    many records as the header and the data fill, no more; the length it
    gives for the last record is not above the record size; a node that
    fits one record gets the header of four bytes and the length of its
    data, and a larger node gets the header with its chunk table and a last
    record that ends where the header and the data end. *)
Theorem storage_needs_consistent (bytes_length bytesPerRecord nrOfChunks : Z) :
  4 <= bytesPerRecord -> 0 <= bytes_length -> 1 <= nrOfChunks ->
  let needs := calculateStorageNeeds bytes_length bytesPerRecord nrOfChunks in
  StorageNeeds.totalBytes needs = bytes_length + StorageNeeds.headerBytes needs
  /\ 1 <= StorageNeeds.requiredRecords needs
  /\ (StorageNeeds.requiredRecords needs - 1) * bytesPerRecord < StorageNeeds.totalBytes needs
  /\ StorageNeeds.totalBytes needs <= StorageNeeds.requiredRecords needs * bytesPerRecord
  /\ 0 <= StorageNeeds.lastChunkSize needs <= bytesPerRecord
  /\ (StorageNeeds.requiredRecords needs = 1 ->
      StorageNeeds.headerBytes needs = 4
      /\ StorageNeeds.lastChunkSize needs = bytes_length)
  /\ (1 < StorageNeeds.requiredRecords needs ->
      StorageNeeds.headerBytes needs = 7 + (nrOfChunks - 1) * 9
      /\ (StorageNeeds.requiredRecords needs - 1) * bytesPerRecord
         + StorageNeeds.lastChunkSize needs
         = StorageNeeds.totalBytes needs).
Proof.
  intros Hbpr Hlen Hn. apply storage_needs_bounds; assumption.
Qed.

Lemma storage_needs_consistent_witness :
  calculateStorageNeeds 300 128 1 = StorageNeeds.mk 7 307 3 51
  /\ (StorageNeeds.requiredRecords (calculateStorageNeeds 300 128 1) - 1) * 128
     < StorageNeeds.totalBytes (calculateStorageNeeds 300 128 1).
Proof.
  split; [reflexivity|].
  exact (proj1 (proj2 (proj2 (storage_needs_consistent 300 128 1
                                ltac:(lia) ltac:(lia) ltac:(lia))))).
Defined.

(** X22. A record written with the storage needs of its allocation is read back
    with the byte length its writer gave it: [totalByteLength] is the length
    of the data alone when the node fits one record, and the length of the
    header and the data together otherwise. *)
Theorem written_record_totalByteLength (allocation : NodeAllocation.t)
    (bytes_length bytesPerRecord : Z) :
  4 <= bytesPerRecord -> 0 <= bytes_length -> allocation <> [] ->
  let needs := calculateStorageNeeds bytes_length bytesPerRecord (len allocation) in
  NodeAllocation.totalAddresses allocation = StorageNeeds.requiredRecords needs ->
  RecordInfo.totalByteLength
    (RecordInfo.mk allocation (StorageNeeds.headerBytes needs)
       (StorageNeeds.lastChunkSize needs) bytesPerRecord)
  = if StorageNeeds.requiredRecords needs =? 1
    then bytes_length
    else bytes_length + StorageNeeds.headerBytes needs.
Proof.
  intros Hbpr Hlen Hne needs Htotal.
  assert (Hn : 1 <= len allocation).
  { destruct allocation; [congruence | unfold len; simpl; lia]. }
  pose proof (storage_needs_bounds bytes_length bytesPerRecord (len allocation)
                Hbpr Hlen Hn) as H.
  fold needs in H. destruct H as (Ht & Hrr & _ & _ & _ & H1 & Hmany).
  rewrite totalByteLength_formula. cbn [RecordInfo.allocation RecordInfo.bytesPerRecord
                                        RecordInfo.lastRecordLength].
  rewrite Htotal.
  destruct (StorageNeeds.requiredRecords needs =? 1) eqn:E.
  - apply Z.eqb_eq in E. destruct (H1 E) as [_ ->]. rewrite E. lia.
  - apply Z.eqb_neq in E. destruct (Hmany ltac:(lia)) as [_ ->]. exact Ht.
Qed.

Lemma written_record_totalByteLength_witness :
  RecordInfo.totalByteLength
    (RecordInfo.mk [StorageAddressRange.mk 1 0 2; StorageAddressRange.mk 70000 5 1]
       16 60 128)
  = 300 + 16.
Proof.
  apply (written_record_totalByteLength
           [StorageAddressRange.mk 1 0 2; StorageAddressRange.mk 70000 5 1] 300 128).
  - lia.
  - lia.
  - discriminate.
  - reflexivity.
Defined.

(** ** The header written and read back *)

Lemma imap_entry2 (l : list StorageAddressRange.t) :
  forall g : nat -> nat, (forall i, g i <> 0%nat) ->
  imap (fun index range =>
          NodeChunkTableRange.mk (if bool_decide (g index = 0%nat) then 1 else 2)
            (StorageAddressRange.pageNr range) (StorageAddressRange.recordNr range)
            (StorageAddressRange.length range)) l
  = map entry2 l.
Proof.
  induction l as [|r l IH]; intros g Hg; [reflexivity|].
  rewrite imap_cons. simpl map. f_equal.
  - rewrite bool_decide_eq_false_2 by apply Hg. reflexivity.
  - apply (IH (fun i => g (S i))). intros i. apply Hg.
Qed.

Lemma toChunkTable_shape (first : StorageAddressRange.t) (rest : list StorageAddressRange.t) :
  rest <> [] \/ StorageAddressRange.length first <> 1 ->
  NodeAllocation.toChunkTable (first :: rest)
  = NodeChunkTableRange.mk 1 (StorageAddressRange.pageNr first)
      (StorageAddressRange.recordNr first) (StorageAddressRange.length first)
    :: map entry2 rest.
Proof.
  intros H. unfold NodeAllocation.toChunkTable. destruct rest as [|second rest].
  - destruct H as [H|H]; [congruence|].
    rewrite bool_decide_eq_false_2 by exact H. reflexivity.
  - rewrite imap_cons. rewrite bool_decide_eq_true_2 by reflexivity. f_equal.
    apply (imap_entry2 (second :: rest) S). intros i. discriminate.
Qed.

Lemma getUint16_at (h : list Z) (o v : Z) :
  0 <= v < 2 ^ 16 ->
  byte_at h o = byte_at (uint16_bytes v) 0 ->
  byte_at h (o + 1) = byte_at (uint16_bytes v) 1 ->
  getUint16 h o = v.
Proof.
  intros Hv H0 H1. unfold getUint16. rewrite H0, H1.
  unfold uint16_bytes, byte_at, ToUint8. simpl. apply uint16_value. exact Hv.
Qed.

Lemma getUint32_at (h : list Z) (o v : Z) :
  0 <= v < 2 ^ 32 ->
  byte_at h o = byte_at (uint32_bytes v) 0 ->
  byte_at h (o + 1) = byte_at (uint32_bytes v) 1 ->
  byte_at h (o + 2) = byte_at (uint32_bytes v) 2 ->
  byte_at h (o + 3) = byte_at (uint32_bytes v) 3 ->
  getUint32 h o = v.
Proof.
  intros Hv H0 H1 H2 H3. unfold getUint32. rewrite H0, H1, H2, H3.
  unfold uint32_bytes, byte_at, ToUint8. simpl. apply uint32_value. exact Hv.
Qed.

Lemma getUint16_agree (h1 h2 : list Z) (o : Z) :
  byte_at h2 o = byte_at h1 o -> byte_at h2 (o + 1) = byte_at h1 (o + 1) ->
  getUint16 h2 o = getUint16 h1 o.
Proof. intros H0 H1. unfold getUint16. rewrite H0, H1. reflexivity. Qed.

Lemma getUint32_agree (h1 h2 : list Z) (o : Z) :
  byte_at h2 o = byte_at h1 o -> byte_at h2 (o + 1) = byte_at h1 (o + 1) ->
  byte_at h2 (o + 2) = byte_at h1 (o + 2) -> byte_at h2 (o + 3) = byte_at h1 (o + 3) ->
  getUint32 h2 o = getUint32 h1 o.
Proof. intros H0 H1 H2 H3. unfold getUint32. rewrite H0, H1, H2, H3. reflexivity. Qed.

Lemma table_at_agree (h1 h2 : list Z) (rest : list StorageAddressRange.t) :
  forall o, 0 <= o ->
  (forall i, 0 <= i < o + 9 * len rest -> byte_at h2 i = byte_at h1 i) ->
  table_at h1 o rest -> table_at h2 o rest.
Proof.
  induction rest as [|r rest IH]; intros o Ho Hagree; simpl; [tauto|].
  assert (Hlen : len (r :: rest) = 1 + len rest) by (unfold len; simpl; lia).
  rewrite Hlen in Hagree.
  assert (Hrest : 0 <= len rest) by (unfold len; lia).
  intros (T & P & R & L & Tl).
  split; [rewrite Hagree by lia; exact T|].
  split; [rewrite <- P; apply getUint32_agree; apply Hagree; lia|].
  split; [rewrite <- R; apply getUint16_agree; apply Hagree; lia|].
  split; [rewrite <- L; apply getUint16_agree; apply Hagree; lia|].
  apply IH; [lia | | exact Tl]. intros i Hi. apply Hagree. lia.
Qed.

(** An entry of type 2 as it lies in the header once written. *)
Lemma write_entry2 (r : StorageAddressRange.t) (h : list Z) (o : Z) (h' : list Z) (o' : Z) :
  encodable r ->
  write_chunk_entry (entry2 r) (h, o) = Normal (h', o') ->
  0 <= o /\ o' = o + 9 /\ o + 9 <= len h' /\ len h' = len h
  /\ table_at h' o [r]
  /\ forall i, 0 <= i < o -> byte_at h' i = byte_at h i.
Proof.
  intros (Hp & Hr & Hl). unfold write_chunk_entry, entry2.
  cbn [NodeChunkTableRange.type NodeChunkTableRange.pageNr NodeChunkTableRange.recordNr
       NodeChunkTableRange.length].
  destruct (view_set h o _) as [h0|] eqn:E0; cbn [mbind Completion_bind bindC];
    [|discriminate].
  change (2 =? 0) with false. change (2 =? 1) with false. change (2 =? 2) with true.
  cbv iota.
  destruct (view_set h0 (o + 1) _) as [h1|] eqn:E1; cbn [mbind Completion_bind bindC];
    [|discriminate].
  destruct (view_set h1 (o + 5) _) as [h2|] eqn:E2; cbn [mbind Completion_bind bindC];
    [|discriminate].
  destruct (view_set h2 (o + 7) _) as [h3|] eqn:E3; cbn [mbind Completion_bind bindC];
    [|discriminate].
  intros Hw. inversion Hw; subst h3 o'. clear Hw.
  apply view_set_spec in E0. destruct E0 as (O0 & _ & L0 & B0 & A0).
  apply view_set_spec in E1. destruct E1 as (_ & _ & L1 & B1 & A1).
  apply view_set_spec in E2. destruct E2 as (_ & _ & L2 & B2 & A2).
  apply view_set_spec in E3. destruct E3 as (_ & W3 & L3 & B3 & A3).
  assert (len16 : forall v, len (uint16_bytes v) = 2) by reflexivity.
  assert (len32 : forall v, len (uint32_bytes v) = 4) by reflexivity.
  rewrite len16 in *. rewrite len32 in *.
  assert (len1 : len [ToUint8 2] = 1) by reflexivity. rewrite len1 in *.
  split; [exact O0|]. split; [reflexivity|]. split; [lia|]. split; [lia|].
  split.
  - simpl. split; [|split; [|split; [|split; [|exact I]]]].
    + rewrite B3, B2, B1 by lia. replace o with (o + 0) at 1 by lia.
      rewrite A0 by lia. reflexivity.
    + apply getUint32_at; [exact Hp | | | |].
      * rewrite B3, B2 by lia. replace (o + 1) with (o + 1 + 0) at 1 by lia.
        apply A1. lia.
      * rewrite B3, B2 by lia. apply A1. lia.
      * rewrite B3, B2 by lia. apply A1. lia.
      * rewrite B3, B2 by lia. apply A1. lia.
    + apply getUint16_at; [exact Hr | |].
      * rewrite B3 by lia. replace (o + 5) with (o + 5 + 0) at 1 by lia. apply A2. lia.
      * rewrite B3 by lia. apply A2. lia.
    + apply getUint16_at; [exact Hl | |].
      * replace (o + 7) with (o + 7 + 0) at 1 by lia. apply A3. lia.
      * apply A3. lia.
  - intros i Hi. rewrite B3, B2, B1, B0 by lia. reflexivity.
Qed.

Lemma write_table2 (rest : list StorageAddressRange.t) :
  forall (h : list Z) (o : Z) (h' : list Z) (o' : Z),
  Forall encodable rest -> 0 <= o ->
  write_chunk_table (map entry2 rest) (h, o) = Normal (h', o') ->
  o' = o + 9 * len rest /\ len h' = len h
  /\ table_at h' o rest
  /\ forall i, 0 <= i < o -> byte_at h' i = byte_at h i.
Proof.
  induction rest as [|r rest IH]; intros h o h' o' Henc Ho.
  - simpl. intros H. inversion H; subst. unfold len. simpl.
    split; [lia|]. split; [reflexivity|]. split; [exact I | reflexivity].
  - simpl map. rewrite write_chunk_table_cons.
    destruct (write_chunk_entry (entry2 r) (h, o)) as [[h1 o1]|] eqn:E1; simpl; [|discriminate].
    intros H. inversion Henc as [|? ? Hr Hrest]; subst.
    apply (write_entry2 r h o h1 o1 Hr) in E1.
    destruct E1 as (_ & -> & W1 & L1 & T1 & B1).
    apply IH in H; [|exact Hrest|lia]. destruct H as (-> & L2 & T2 & B2).
    assert (Hlen : len (r :: rest) = 1 + len rest) by (unfold len; simpl; lia).
    split; [lia|]. split; [lia|]. split.
    + assert (T1' : table_at h' o [r]).
      { apply (table_at_agree h1 h' [r] o Ho); [|exact T1].
        intros i Hi. apply B2. unfold len in Hi. simpl in Hi. lia. }
      simpl in T1'. simpl. tauto.
    + intros i Hi. rewrite B2 by lia. apply B1. exact Hi.
Qed.

(** Reading the entries of type 2 and the terminator that follows them. *)
Lemma read_table2 (readRecord : Z -> Z -> list Z) (pageSize : Z) (data : list Z)
    (first : StorageAddressRange.t) (idx : Z) (rest : list StorageAddressRange.t) :
  forall (o : Z) (more : list StorageAddressRange.t) (fuel : nat),
  0 <= o -> table_at data o rest ->
  byte_at data (o + 9 * len rest) = 0 ->
  o + 9 * len rest + 11 < len data ->
  (length rest < fuel)%nat ->
  readAllocationTable readRecord pageSize fuel (HeaderReader.mk data o first more idx)
  = Some (Normal (HeaderReader.mk data (o + 9 * len rest + 1) first (more ++ rest) idx)).
Proof.
  induction rest as [|r rest IH]; intros o more fuel Ho Ht Hz Hlen Hfuel.
  - destruct fuel as [|fuel]; [simpl in Hfuel; lia|].
    assert (Hnil : len (@nil StorageAddressRange.t) = 0) by reflexivity.
    rewrite Hnil in *. replace (o + 9 * 0) with o in * by lia.
    cbn [readAllocationTable]. unfold readAllocationTable_step.
    cbn [HeaderReader.data HeaderReader.offset HeaderReader.firstRange
         HeaderReader.moreRanges HeaderReader.readingRecordIndex].
    replace (len data <=? o + 9 + 2) with false by lia.
    rewrite Hz. change (0 =? 0) with true. cbv iota.
    rewrite app_nil_r. reflexivity.
  - destruct fuel as [|fuel]; [simpl in Hfuel; lia|].
    assert (Hl : len (r :: rest) = 1 + len rest) by (unfold len; simpl; lia).
    assert (Hrest : 0 <= len rest) by (unfold len; lia).
    rewrite Hl in *. simpl in Ht. destruct Ht as (T & P & R & L & Tl).
    cbn [readAllocationTable]. unfold readAllocationTable_step.
    cbn [HeaderReader.data HeaderReader.offset HeaderReader.firstRange
         HeaderReader.moreRanges HeaderReader.readingRecordIndex].
    replace (len data <=? o + 9 + 2) with false by lia.
    rewrite T. change (2 =? 0) with false. change (2 =? 1) with false.
    change (2 =? 2) with true. cbv iota. rewrite P, R, L.
    replace (StorageAddressRange.mk (StorageAddressRange.pageNr r)
               (StorageAddressRange.recordNr r) (StorageAddressRange.length r))
      with r by (destruct r; reflexivity).
    rewrite (IH (o + 9) (more ++ [r]) fuel); [| lia | exact Tl | | lia | simpl in Hfuel; lia].
    + rewrite <- app_assoc. simpl. do 3 f_equal. lia.
    + rewrite <- Hz. f_equal. lia.
Qed.

Lemma byte_at_app_l (a b : list Z) (i : Z) :
  0 <= i < len a -> byte_at (a ++ b) i = byte_at a i.
Proof.
  intros Hi. unfold byte_at. rewrite !nth_lookup.
  rewrite lookup_app_l by (unfold len in Hi; lia). reflexivity.
Qed.

Lemma flags_byte (type : Z) (hasKeyTree : bool) :
  0 <= type < 16 ->
  let byte0 := ToUint8 (if hasKeyTree then Z.lor type FLAG_KEY_TREE else type) in
  Z.land byte0 FLAG_VALUE_TYPE = type
  /\ (Z.land byte0 FLAG_KEY_TREE =? FLAG_KEY_TREE) = hasKeyTree.
Proof.
  intros Ht.
  pose proof (forall_below
                (fun type =>
                   (Z.land (ToUint8 (Z.lor type FLAG_KEY_TREE)) FLAG_VALUE_TYPE =? type)
                   && (Z.land (ToUint8 (Z.lor type FLAG_KEY_TREE)) FLAG_KEY_TREE
                       =? FLAG_KEY_TREE)
                   && (Z.land (ToUint8 type) FLAG_VALUE_TYPE =? type)
                   && negb (Z.land (ToUint8 type) FLAG_KEY_TREE =? FLAG_KEY_TREE))
                16 ltac:(vm_compute; reflexivity) type Ht) as H.
  simpl in H. rewrite !andb_true_iff, negb_true_iff, !Z.eqb_eq in H.
  destruct H as (((H1 & H2) & H3) & H4).
  destruct hasKeyTree; simpl; split; try assumption.
  rewrite H2. reflexivity.
Qed.

Lemma readAllocationTable_S (readRecord : Z -> Z -> list Z) (pageSize : Z) (fuel : nat)
    (st : HeaderReader.t) :
  readAllocationTable readRecord pageSize (S fuel) st
  = match readAllocationTable_step readRecord pageSize st with
    | Continue st' => readAllocationTable readRecord pageSize fuel st'
    | Break st' => Some (Normal st')
    | Fault e => Some (Throw e)
    end.
Proof. reflexivity. Qed.

(** X23. The header that [_write] builds is read back by [readHeader]: the loop
    of [readAllocationTable] ends after one turn for each range and one for
    the terminator, without reading a further record; the ranges it has
    collected are those of the allocation written; the two bytes at the
    offset it stops at hold the length of the last record; and the first
    byte gives back the value type and the key-tree flag. The ranges fit
    their fields, and the first record read holds nine bytes or more after
    the header. *)
Theorem header_round_trip
    (readRecord : Z -> Z -> list Z) (pageSize : Z) (type : Z) (hasKeyTree : bool)
    (first : StorageAddressRange.t) (rest : list StorageAddressRange.t)
    (bytes_length bytesPerRecord : Z) (header body : list Z) :
  _write_header type hasKeyTree (first :: rest) bytes_length bytesPerRecord = Normal header ->
  0 <= type < 16 ->
  0 <= StorageAddressRange.length first < 2 ^ 16 ->
  Forall encodable rest ->
  0 <= StorageNeeds.lastChunkSize
         (calculateStorageNeeds bytes_length bytesPerRecord (len (first :: rest))) < 2 ^ 16 ->
  9 <= len body ->
  exists st,
    readAllocationTable readRecord pageSize (S (S (length rest)))
      (readHeader_start
         (StorageAddress.mk (StorageAddressRange.pageNr first)
            (StorageAddressRange.recordNr first))
         (header ++ body))
    = Some (Normal st)
    /\ HeaderReader.data st = header ++ body
    /\ HeaderReader.ranges st = first :: rest
    /\ HeaderReader.offset st + 2 <= len header
    /\ getUint16 (header ++ body) (HeaderReader.offset st)
       = StorageNeeds.lastChunkSize
           (calculateStorageNeeds bytes_length bytesPerRecord (len (first :: rest)))
    /\ header_valueType (header ++ body) = type
    /\ header_hasKeyIndex (header ++ body) = hasKeyTree.
Proof.
  intros Hwrite Htype Hfirst Hrest Hlast Hbody.
  pose proof (write_header_byte0 _ _ _ _ _ _ Hwrite) as Hbyte0.
  unfold _write_header in Hwrite. cbv zeta in Hwrite.
  set (lcs := StorageNeeds.lastChunkSize
                (calculateStorageNeeds bytes_length bytesPerRecord (len (first :: rest))))
    in *.
  destruct (view_set _ 0 _) as [h0|] eqn:E0;
    cbn [mbind Completion_bind bindC] in Hwrite; [|discriminate].
  destruct (write_chunk_table _ (h0, 1)) as [[h2 o2]|] eqn:E2;
    cbn [mbind Completion_bind bindC] in Hwrite; [|discriminate].
  destruct (view_set h2 o2 _) as [h3|] eqn:E3;
    cbn [mbind Completion_bind bindC] in Hwrite; [|discriminate].
  destruct (view_set h3 (o2 + 1) _) as [h4|] eqn:E4;
    cbn [mbind Completion_bind bindC] in Hwrite; [|discriminate].
  inversion Hwrite; subst h4. clear Hwrite.
  apply view_set_spec in E3. destruct E3 as (O3 & W3 & L3 & B3 & A3).
  apply view_set_spec in E4. destruct E4 as (_ & W4 & L4 & B4 & A4).
  assert (len16 : forall v, len (uint16_bytes v) = 2) by reflexivity.
  rewrite len16 in *.
  assert (len1 : len [0] = 1) by reflexivity. rewrite len1 in *.
  assert (Hterm : byte_at header o2 = 0).
  { rewrite B4 by lia. replace o2 with (o2 + 0) at 1 by lia. rewrite A3 by lia. reflexivity. }
  assert (Hlcs : getUint16 header (o2 + 1) = lcs).
  { apply getUint16_at; [exact Hlast | |].
    - replace (o2 + 1) with (o2 + 1 + 0) at 1 by lia. apply A4. lia.
    - apply A4. lia. }
  assert (Hhead : forall i, 0 <= i < len header ->
                            byte_at (header ++ body) i = byte_at header i)
    by (intros i Hi; apply byte_at_app_l; exact Hi).
  assert (Hdata : len (header ++ body) = len header + len body)
    by (unfold len; rewrite length_app; lia).
  assert (Hlcs' : getUint16 (header ++ body) (o2 + 1) = lcs).
  { rewrite <- Hlcs. apply getUint16_agree; apply Hhead; lia. }
  assert (Hflags : header_valueType (header ++ body) = type
                   /\ header_hasKeyIndex (header ++ body) = hasKeyTree).
  { unfold header_valueType, header_hasKeyIndex.
    rewrite Hhead by lia. rewrite Hbyte0. apply flags_byte. exact Htype. }
  destruct (decide (rest = [] /\ StorageAddressRange.length first = 1)) as [[-> Hone]|Hmore].
  - (* one record: no chunk table *)
    assert (o2 = 1 /\ forall i, 0 <= i < 1 -> byte_at h2 i = byte_at h0 i) as [-> _].
    { unfold NodeAllocation.toChunkTable in E2.
      rewrite bool_decide_eq_true_2 in E2 by exact Hone.
      rewrite write_chunk_table_cons in E2.
      unfold write_chunk_entry in E2. cbn [NodeChunkTableRange.type] in E2.
      destruct (view_set h0 1 _) as [h1|] eqn:E1; cbn [mbind Completion_bind bindC] in E2;
        [|discriminate].
      change (0 =? 0) with true in E2. cbv iota in E2. simpl in E2.
      inversion E2; subst. split; [reflexivity|].
      intros i Hi. apply (view_set_below _ _ _ _ 1 E1); lia. }
    exists (HeaderReader.mk (header ++ body) 2 first [] 0).
    split; [|split; [reflexivity|split; [reflexivity|split; [simpl; lia|split;
      [exact Hlcs'|exact Hflags]]]]].
    rewrite readAllocationTable_S. unfold readAllocationTable_step, readHeader_start.
    cbn [HeaderReader.data HeaderReader.offset HeaderReader.firstRange
         HeaderReader.moreRanges HeaderReader.readingRecordIndex].
    replace (len (header ++ body) <=? 1 + 9 + 2) with false by lia.
    rewrite Hhead by lia. rewrite Hterm. change (0 =? 0) with true. cbv iota.
    destruct first as [pg rc ln]. simpl in Hone. subst ln. reflexivity.
  - (* a chunk table: the first range, then the others *)
    rewrite toChunkTable_shape in E2
      by (destruct rest; [right; intros H1; apply Hmore; split; [reflexivity|exact H1]
                         | left; discriminate]).
    rewrite write_chunk_table_cons in E2.
    destruct (write_chunk_entry _ (h0, 1)) as [[h1 o1]|] eqn:E1; simpl in E2; [|discriminate].
    apply write_first_entry in E1. destruct E1 as (-> & F1 & F2 & F3).
    apply write_table2 in E2; [|exact Hrest|lia].
    destruct E2 as (-> & L2 & T2 & B2).
    assert (Hrest0 : 0 <= len rest) by (unfold len; lia).
    assert (G1 : byte_at (header ++ body) 1 = 1).
    { rewrite Hhead by lia. rewrite B4, B3, B2 by lia. exact F1. }
    assert (G2 : getUint16 (header ++ body) 2 = StorageAddressRange.length first).
    { apply getUint16_at; [exact Hfirst | |].
      - rewrite Hhead by lia. rewrite B4, B3, B2 by lia. exact F2.
      - rewrite Hhead by lia. rewrite B4, B3, B2 by lia. exact F3. }
    assert (T : table_at (header ++ body) 4 rest).
    { apply (table_at_agree h2); [lia | | exact T2].
      intros i Hi. rewrite Hhead by lia. rewrite B4, B3 by lia. reflexivity. }
    assert (Z0 : byte_at (header ++ body) (4 + 9 * len rest) = 0).
    { rewrite Hhead by lia. exact Hterm. }
    exists (HeaderReader.mk (header ++ body) (4 + 9 * len rest + 1) first rest 0).
    split; [|split; [reflexivity|split; [reflexivity|split; [simpl; lia|split;
      [exact Hlcs'|exact Hflags]]]]].
    rewrite readAllocationTable_S. unfold readAllocationTable_step, readHeader_start.
    cbn [HeaderReader.data HeaderReader.offset HeaderReader.firstRange
         HeaderReader.moreRanges HeaderReader.readingRecordIndex
         StorageAddressRange.pageNr StorageAddressRange.recordNr].
    replace (len (header ++ body) <=? 1 + 9 + 2) with false by lia.
    rewrite G1. change (1 =? 0) with false. change (1 =? 1) with true. cbv iota.
    change (1 + 1) with 2. change (1 + 3) with 4. rewrite G2.
    cbn [StorageAddress.pageNr StorageAddress.recordNr].
    replace (StorageAddressRange.mk (StorageAddressRange.pageNr first)
               (StorageAddressRange.recordNr first) (StorageAddressRange.length first))
      with first by (destruct first; reflexivity).
    rewrite (read_table2 readRecord pageSize (header ++ body) first 0 rest 4 []
               (S (length rest)) ltac:(lia) T Z0 ltac:(lia) ltac:(lia)).
    reflexivity.
Qed.

Lemma header_round_trip_witness :
  let first := StorageAddressRange.mk 1 0 2 in
  let second := StorageAddressRange.mk 70000 5 1 in
  exists header st,
    _write_header VALUE_TYPES.OBJECT false [first; second] 300 128 = Normal header
    /\ readAllocationTable (fun _ _ => []) 1 3
         (readHeader_start (StorageAddress.mk 1 0) (header ++ repeat 7 (9%nat)))
       = Some (Normal st)
    /\ HeaderReader.ranges st = [first; second].
Proof.
  intros first second.
  destruct (header_round_trip (fun _ _ => []) 1 VALUE_TYPES.OBJECT false first [second]
              300 128 [1; 1; 0; 2; 2; 0; 1; 17; 112; 0; 5; 0; 1; 0; 0; 60]
              (repeat 7 (9%nat)))
    as [st (Hread & _ & Hranges & _)].
  - reflexivity.
  - vm_compute. split; [discriminate | reflexivity].
  - vm_compute. split; [discriminate | reflexivity].
  - repeat constructor; vm_compute; discriminate || reflexivity.
  - vm_compute. split; [discriminate | reflexivity].
  - vm_compute. discriminate.
  - eexists. exists st. split; [reflexivity|]. split; assumption.
Defined.

(** ** Children stored as a linear list *)

Lemma len_skipn (b : list Z) (i : Z) :
  0 <= i <= len b -> len (skipn (Z.to_nat i) b) = len b - i.
Proof. intros Hi. unfold len in *. rewrite length_skipn. lia. Qed.

Lemma byte_at_skipn (b : list Z) (i j : Z) :
  0 <= i -> 0 <= j -> byte_at (skipn (Z.to_nat i) b) j = byte_at b (i + j).
Proof.
  intros Hi Hj. unfold byte_at. rewrite nth_skipn. f_equal. lia.
Qed.

Lemma slice_skipn (b : list Z) (i j k : Z) :
  0 <= i -> 0 <= j -> slice (skipn (Z.to_nat i) b) j k = slice b (i + j) (i + k).
Proof.
  intros Hi Hj. unfold slice. rewrite skipn_skipn. f_equal; [lia|]. f_equal. lia.
Qed.

Lemma getUint16_skipn (b : list Z) (i j : Z) :
  0 <= i -> 0 <= j -> getUint16 (skipn (Z.to_nat i) b) j = getUint16 b (i + j).
Proof.
  intros Hi Hj. unfold getUint16. rewrite !byte_at_skipn by lia.
  rewrite Z.add_assoc. reflexivity.
Qed.

Lemma getUint32_skipn (b : list Z) (i j : Z) :
  0 <= i -> 0 <= j -> getUint32 (skipn (Z.to_nat i) b) j = getUint32 b (i + j).
Proof.
  intros Hi Hj. unfold getUint32. rewrite !byte_at_skipn by lia.
  rewrite !Z.add_assoc. reflexivity.
Qed.

Lemma len_app (a b : list Z) : len (a ++ b) = len a + len b.
Proof. unfold len. rewrite length_app. lia. Qed.

Lemma slice_app_l (a b : list Z) (j k : Z) :
  0 <= j -> k <= len a -> slice (a ++ b) j k = slice a j k.
Proof.
  intros Hj Hk. unfold slice, len in *.
  destruct (Z_le_gt_dec j (Z.of_nat (length a))) as [Hle|Hgt].
  - rewrite drop_app_le by lia. rewrite take_app_le; [reflexivity|].
    rewrite length_drop. lia.
  - replace (Z.to_nat (k - j)) with 0%nat by lia. reflexivity.
Qed.

Section LinearFacts.
Variable bytesToNumber : list Z -> number.
Variable textDecoder_decode : list Z -> string.
Variable this_address : NodeAddress.t.
Variable KIT_keys : Z -> option string.
Variable getChildPath : option string -> option PathKey -> string.
Variable keyFilter : option (list PathKey).

#[local] Abbreviation loop := (children_loop bytesToNumber textDecoder_decode this_address KIT_keys
                    getChildPath keyFilter).
#[local] Abbreviation readChild := (read_child bytesToNumber textDecoder_decode this_address KIT_keys
                         getChildPath).
#[local] Abbreviation passes := (passes_keyFilter keyFilter).
#[local] Abbreviation decodeValue := (getValueFromBinary bytesToNumber textDecoder_decode).

(** One turn of the loop. *)
Lemma children_loop_turn (isArray : bool) (binary : list Z) (index childCount : Z)
    (children : list NodeInfo.t) :
  loop isArray binary index childCount children
  = if index <? len binary
    then match readChild isArray binary index (childCount + 1) with
         | Normal (child, index') =>
             loop isArray binary index' (childCount + 1)
               (if passes isArray child then children ++ [child] else children)
         | Throw (TruncatedDataError _) =>
             Normal (children,
                     ChunkReader.mk (Some (skipn (Z.to_nat index) binary)) (childCount + 1))
         | Throw err => Throw err
         end
    else Normal (children, ChunkReader.mk None childCount).
Proof.
  funelim (loop isArray binary index childCount children);
    repeat match goal with
           | H : (_ <? _) = _ |- _ => rewrite H
           | H : read_child _ _ _ _ _ _ _ _ _ = _ |- _ => rewrite H
           end; reflexivity.
Qed.

(** The decoder looks at the data from the index on only: the same bytes
    further on in another array give the same child. *)
Lemma getValueFromBinary_congr (isArray : bool) (c : NodeInfo.t)
    (b1 : list Z) (i1 : Z) (b2 : list Z) (i2 : Z) :
  len b1 - i1 = len b2 - i2 ->
  byte_at b2 i2 = byte_at b1 i1 ->
  byte_at b2 (i2 + 1) = byte_at b1 (i1 + 1) ->
  (forall n, slice b2 (i2 + 2) (i2 + 2 + n) = slice b1 (i1 + 2) (i1 + 2 + n)) ->
  getUint32 b2 (i2 + 2) = getUint32 b1 (i1 + 2) ->
  getUint16 b2 (i2 + 2 + 4) = getUint16 b1 (i1 + 2 + 4) ->
  decodeValue isArray this_address c b2 i2
  = shift_index (i2 - i1) (decodeValue isArray this_address c b1 i1).
Proof.
  intros Hlen H0 H1 Hslice H32 H16.
  unfold getValueFromBinary, assert_bytes.
  rewrite H0, H1, Hslice, H32, H16.
  replace (i2 + 2 >? len b2) with (i1 + 2 >? len b1) by lia.
  destruct (i1 + 2 >? len b1); cbn [mbind Completion_bind bindC shift_index]; [reflexivity|].
  replace (i2 + 2 + (Z.land (byte_at b1 (i1 + 1)) 63 + 1) >? len b2)
    with (i1 + 2 + (Z.land (byte_at b1 (i1 + 1)) 63 + 1) >? len b1) by lia.
  replace (i2 + 2 + 6 >? len b2) with (i1 + 2 + 6 >? len b1) by lia.
  repeat (case_match; cbn [mbind Completion_bind bindC shift_index]; try reflexivity);
    f_equal; f_equal; lia.
Qed.

Lemma getValueFromBinary_skip (isArray : bool) (c : NodeInfo.t) (binary : list Z)
    (index j : Z) :
  0 <= index <= len binary -> 0 <= j ->
  decodeValue isArray this_address c binary (index + j)
  = shift_index index
      (decodeValue isArray this_address c (skipn (Z.to_nat index) binary) j).
Proof.
  intros Hi Hj.
  rewrite (getValueFromBinary_congr isArray c (skipn (Z.to_nat index) binary) j
             binary (index + j)).
  - f_equal. lia.
  - rewrite len_skipn by lia. lia.
  - rewrite byte_at_skipn by lia. reflexivity.
  - rewrite byte_at_skipn by lia. f_equal. lia.
  - intros n. rewrite slice_skipn by lia. f_equal; lia.
  - rewrite getUint32_skipn by lia. f_equal. lia.
  - rewrite getUint16_skipn by lia. f_equal. lia.
Qed.

(** More data after the end changes nothing for a child that was decoded,
    or refused, without running out of data. *)
Lemma getValueFromBinary_more (isArray : bool) (c : NodeInfo.t) (binary more : list Z)
    (index : Z) (r : Completion (NodeInfo.t * Z)) :
  0 <= index ->
  decodeValue isArray this_address c binary index = r ->
  (forall msg, r <> Throw (TruncatedDataError msg)) ->
  decodeValue isArray this_address c (binary ++ more) index = r.
Proof.
  intros Hi. unfold getValueFromBinary, assert_bytes.
  assert (Hmore : 0 <= len more) by (unfold len; lia).
  destruct (index + 2 >? len binary) eqn:E1; cbn [mbind Completion_bind bindC].
  { intros <- Hnt. exfalso. eapply Hnt. reflexivity. }
  replace (index + 2 >? len (binary ++ more)) with false by (rewrite len_app; lia).
  cbn [mbind Completion_bind bindC].
  rewrite !byte_at_app_l by lia.
  destruct (Z.shiftr (byte_at binary index) 4 =? 0); [intros <- _; reflexivity|].
  destruct (Z.land (byte_at binary (index + 1)) 192 =? 64); [intros <- _; reflexivity|].
  pose proof (land_63_bounds (byte_at binary (index + 1))) as H63.
  destruct (Z.land (byte_at binary (index + 1)) 192 =? 128).
  { destruct (index + 2 + (Z.land (byte_at binary (index + 1)) 63 + 1) >? len binary) eqn:E2;
      cbn [mbind Completion_bind bindC].
    { intros <- Hnt. exfalso. eapply Hnt. reflexivity. }
    replace (index + 2 + (Z.land (byte_at binary (index + 1)) 63 + 1)
             >? len (binary ++ more)) with false by (rewrite len_app; lia).
    cbn [mbind Completion_bind bindC]. rewrite slice_app_l by lia.
    intros <- _. reflexivity. }
  destruct (Z.land (byte_at binary (index + 1)) 192 =? 192); [|intros <- _; reflexivity].
  destruct (index + 2 + 6 >? len binary) eqn:E3; cbn [mbind Completion_bind bindC].
  { intros <- Hnt. exfalso. eapply Hnt. reflexivity. }
  replace (index + 2 + 6 >? len (binary ++ more)) with false by (rewrite len_app; lia).
  cbn [mbind Completion_bind bindC].
  unfold getUint32, getUint16. rewrite !byte_at_app_l by lia.
  intros <- _. reflexivity.
Qed.

Lemma read_child_skip (isArray : bool) (binary : list Z) (index childCount : Z) :
  0 <= index <= len binary ->
  readChild isArray binary index childCount
  = shift_index index (readChild isArray (skipn (Z.to_nat index) binary) 0 childCount).
Proof.
  intros Hi. unfold read_child, assert_bytes. destruct isArray.
  - pose proof (getValueFromBinary_skip true
                  (NodeInfo.mk
                     (Some (getChildPath (NodeAddress.path this_address)
                              (Some (KeyIndex (childCount - 1)))))
                     None (Some (childCount - 1)) None true None None)
                  binary index 0 Hi ltac:(lia)) as H.
    rewrite Z.add_0_r in H. exact H.
  - rewrite len_skipn by lia. rewrite !byte_at_skipn by lia.
    change (0 + 1) with 1. change (0 + 2) with 2. rewrite Z.add_0_r.
    replace (2 >? len binary - index) with (index + 2 >? len binary) by lia.
    destruct (index + 2 >? len binary); cbn [mbind Completion_bind bindC shift_index];
      [reflexivity|].
    destruct (0 <=? _).
    + apply getValueFromBinary_skip; lia.
    + set (L := Z.land (byte_at binary index) 127 + 1).
      assert (HL : 0 <= L).
      { subst L. assert (0 <= Z.land (byte_at binary index) 127)
          by (apply Z.land_nonneg; right; lia). lia. }
      replace (1 + L >? len binary - index) with (index + 1 + L >? len binary) by lia.
      destruct (index + 1 + L >? len binary); cbn [mbind Completion_bind bindC shift_index];
        [reflexivity|].
      rewrite slice_skipn by lia.
      replace (index + (1 + L)) with (index + 1 + L) by lia.
      rewrite <- getValueFromBinary_skip by lia.
      replace (index + (1 + L)) with (index + 1 + L) by lia. reflexivity.
Qed.

Lemma read_child_more (isArray : bool) (binary more : list Z) (index childCount : Z)
    (r : Completion (NodeInfo.t * Z)) :
  0 <= index ->
  readChild isArray binary index childCount = r ->
  (forall msg, r <> Throw (TruncatedDataError msg)) ->
  readChild isArray (binary ++ more) index childCount = r.
Proof.
  intros Hi. unfold read_child, assert_bytes.
  assert (Hmore : 0 <= len more) by (unfold len; lia).
  destruct isArray.
  - apply getValueFromBinary_more. exact Hi.
  - destruct (index + 2 >? len binary) eqn:E1; cbn [mbind Completion_bind bindC].
    { intros <- Hnt. exfalso. eapply Hnt. reflexivity. }
    replace (index + 2 >? len (binary ++ more)) with false by (rewrite len_app; lia).
    cbn [mbind Completion_bind bindC].
    rewrite !byte_at_app_l by lia.
    destruct (0 <=? _).
    + apply getValueFromBinary_more. lia.
    + set (L := Z.land (byte_at binary index) 127 + 1).
      assert (HL : 0 <= L).
      { subst L. assert (0 <= Z.land (byte_at binary index) 127)
          by (apply Z.land_nonneg; right; lia). lia. }
      destruct (index + 1 + L >? len binary) eqn:E2; cbn [mbind Completion_bind bindC].
      { intros <- Hnt. exfalso. eapply Hnt. reflexivity. }
      replace (index + 1 + L >? len (binary ++ more)) with false by (rewrite len_app; lia).
      cbn [mbind Completion_bind bindC]. rewrite slice_app_l by lia.
      apply getValueFromBinary_more. lia.
Qed.

(** The loop looks at the data from its index on only. *)
Lemma children_loop_skip (isArray : bool) (n : nat) :
  forall (binary : list Z) (index childCount : Z) (children : list NodeInfo.t),
  (Z.to_nat (len binary - index) < n)%nat -> 0 <= index <= len binary ->
  loop isArray binary index childCount children
  = loop isArray (skipn (Z.to_nat index) binary) 0 childCount children.
Proof.
  induction n as [|n IH]; intros binary index childCount children Hn Hi; [lia|].
  rewrite (children_loop_turn isArray binary), (children_loop_turn isArray (skipn _ _)).
  rewrite len_skipn by lia.
  replace (0 <? len binary - index) with (index <? len binary) by lia.
  destruct (index <? len binary) eqn:Elt; [|reflexivity].
  rewrite read_child_skip by lia.
  destruct (readChild isArray (skipn (Z.to_nat index) binary) 0 (childCount + 1))
    as [[child j]|err] eqn:E; cbn [shift_index].
  - apply read_child_advances in E. rewrite len_skipn in E by lia.
    rewrite (IH binary (index + j)) by lia.
    rewrite (IH (skipn (Z.to_nat index) binary) j)
      by (rewrite ?len_skipn by lia; lia).
    rewrite skipn_skipn. do 2 f_equal. lia.
  - destruct err; reflexivity.
Qed.

(** The children pushed before the loop starts stay in front. *)
Lemma children_loop_acc (isArray : bool) (n : nat) :
  forall (binary : list Z) (index childCount : Z) (acc : list NodeInfo.t),
  (Z.to_nat (len binary - index) < n)%nat ->
  loop isArray binary index childCount acc
  = with_children acc (loop isArray binary index childCount []).
Proof.
  induction n as [|n IH]; intros binary index childCount acc Hn; [lia|].
  rewrite (children_loop_turn isArray binary index childCount acc),
    (children_loop_turn isArray binary index childCount []).
  destruct (index <? len binary) eqn:Elt;
    [|cbn [with_children]; rewrite app_nil_r; reflexivity].
  destruct (readChild isArray binary index (childCount + 1)) as [[child j]|err] eqn:E.
  - apply read_child_advances in E.
    rewrite (IH binary j (childCount + 1) (if passes isArray child then acc ++ [child]
                                           else acc)) by lia.
    rewrite (IH binary j (childCount + 1) (if passes isArray child then [] ++ [child]
                                           else [])) by lia.
    destruct (loop isArray binary j (childCount + 1) []) as [[cs st]|e];
      cbn [with_children]; [|reflexivity].
    destruct (passes isArray child); rewrite ?app_nil_r, <- ?app_assoc; reflexivity.
  - destruct err; cbn [with_children]; rewrite ?app_nil_r; reflexivity.
Qed.

Lemma same_children_refl (r : Completion (list NodeInfo.t * ChunkReader.t)) :
  same_children r r.
Proof. destruct r as [[c s]|e]; simpl; auto. Qed.

(** For an object the loop does not look at [childCount]. *)
Lemma object_loop_childCount (n : nat) :
  forall (binary : list Z) (index cc cc' : Z) (acc : list NodeInfo.t),
  (Z.to_nat (len binary - index) < n)%nat ->
  same_children (loop false binary index cc acc) (loop false binary index cc' acc).
Proof.
  induction n as [|n IH]; intros binary index cc cc' acc Hn; [lia|].
  rewrite (children_loop_turn false binary index cc),
    (children_loop_turn false binary index cc').
  destruct (index <? len binary) eqn:Elt; [|simpl; auto].
  change (readChild false binary index (cc' + 1))
    with (readChild false binary index (cc + 1)).
  destruct (readChild false binary index (cc + 1)) as [[child j]|err] eqn:E.
  - apply read_child_advances in E. apply IH. lia.
  - destruct err; simpl; auto.
Qed.

Lemma same_children_trans (r1 r2 r3 : Completion (list NodeInfo.t * ChunkReader.t)) :
  same_children r1 r2 -> same_children r2 r3 -> same_children r1 r3.
Proof.
  destruct r1 as [[c1 s1]|e1], r2 as [[c2 s2]|e2], r3 as [[c3 s3]|e3]; simpl;
    intuition congruence.
Qed.

(** Reading an object in two chunks: what the loop does on the first chunk,
    and then on what it left followed by the second chunk, is what it does
    on the two chunks joined. *)
Lemma object_loop_chunks (b : list Z) (n : nat) :
  forall (a : list Z) (index cc cc' : Z) (acc : list NodeInfo.t),
  (Z.to_nat (len a - index) < n)%nat -> 0 <= index <= len a ->
  match loop false a index cc acc with
  | Throw e => loop false (a ++ b) index cc' acc = Throw e
  | Normal (c1, st1) =>
      same_children
        (loop false (a ++ b) index cc' acc)
        (loop false
           (match ChunkReader.incompleteData st1 with
            | Some incompleteData => incompleteData ++ b
            | None => b
            end)
           0 (ChunkReader.childCount st1) c1)
  end.
Proof.
  induction n as [|n IH]; intros a index cc cc' acc Hn Hi; [lia|].
  assert (Hb : 0 <= len b) by (unfold len; lia).
  rewrite (children_loop_turn false a index cc acc).
  destruct (index <? len a) eqn:Elt.
  - destruct (readChild false a index (cc + 1)) as [[child j]|err] eqn:E.
    + pose proof (read_child_advances _ _ _ _ _ _ _ _ _ _ _ E) as Hadv.
      apply (read_child_more false a b) in E; [|lia|discriminate].
      specialize (IH a j (cc + 1) (cc' + 1)
                    (if passes false child then acc ++ [child] else acc)
                    ltac:(lia) ltac:(lia)).
      rewrite (children_loop_turn false (a ++ b) index cc' acc).
      replace (index <? len (a ++ b)) with true by (rewrite len_app; lia).
      change (readChild false (a ++ b) index (cc' + 1))
        with (readChild false (a ++ b) index (cc + 1)).
      rewrite E. exact IH.
    + destruct err as [msg|msg|msg|msg];
        try (apply (read_child_more false a b) in E; [|lia|discriminate];
             rewrite (children_loop_turn false (a ++ b) index cc' acc);
             replace (index <? len (a ++ b)) with true by (rewrite len_app; lia);
             change (readChild false (a ++ b) index (cc' + 1))
               with (readChild false (a ++ b) index (cc + 1));
             rewrite E; reflexivity).
      cbn [ChunkReader.incompleteData ChunkReader.childCount].
      rewrite (children_loop_skip false (S (Z.to_nat (len (a ++ b) - index))) (a ++ b) index)
        by (rewrite ?len_app; lia).
      rewrite drop_app_le by (unfold len in *; lia).
      apply (object_loop_childCount (S (Z.to_nat (len (skipn (Z.to_nat index) a ++ b))))).
      lia.
  - cbn [ChunkReader.incompleteData ChunkReader.childCount].
    assert (index = len a) by lia. subst index.
    rewrite (children_loop_skip false (S (Z.to_nat (len (a ++ b) - len a))) (a ++ b) (len a))
      by (rewrite ?len_app; lia).
    replace (Z.to_nat (len a)) with (length a) by (unfold len; lia).
    rewrite drop_app_length.
    apply (object_loop_childCount (S (Z.to_nat (len b)))). lia.
Qed.
End LinearFacts.

(** X24. Reading the children of an object in two chunks gives what reading the
    joined data gives: the children of the first chunk followed by those of
    the second, the bytes of an entry cut by the end of the first chunk
    being kept and read again with the second; and an error thrown in
    either chunk is the error thrown on the joined data. *)
Theorem object_chunks_compose
    (bytesToNumber : list Z -> number) (textDecoder_decode : list Z -> string)
    (this_address : NodeAddress.t) (KIT_keys : Z -> option string)
    (getChildPath : option string -> option PathKey -> string)
    (keyFilter : option (list PathKey)) (a b : list Z) (st : ChunkReader.t) :
  let read := getChildrenFromChunk bytesToNumber textDecoder_decode this_address KIT_keys
                getChildPath keyFilter VALUE_TYPES.OBJECT in
  match read a st with
  | Throw e => read (a ++ b) st = Throw e
  | Normal (c1, st1) =>
      match read b st1 with
      | Throw e => read (a ++ b) st = Throw e
      | Normal (c2, st2) =>
          exists childCount,
            read (a ++ b) st
            = Normal (c1 ++ c2, ChunkReader.mk (ChunkReader.incompleteData st2) childCount)
      end
  end.
Proof.
  intros read. subst read. unfold getChildrenFromChunk.
  change ((VALUE_TYPES.OBJECT =? VALUE_TYPES.OBJECT)
          || (VALUE_TYPES.OBJECT =? VALUE_TYPES.ARRAY)) with true.
  change (VALUE_TYPES.OBJECT =? VALUE_TYPES.ARRAY) with false. cbv iota zeta.
  set (a0 := match ChunkReader.incompleteData st with
             | Some incompleteData => incompleteData ++ a
             | None => a
             end).
  assert (Hwhole : match ChunkReader.incompleteData st with
                   | Some incompleteData => incompleteData ++ a ++ b
                   | None => a ++ b
                   end = a0 ++ b).
  { subst a0. destruct (ChunkReader.incompleteData st); [apply app_assoc | reflexivity]. }
  rewrite Hwhole.
  pose proof (object_loop_chunks bytesToNumber textDecoder_decode this_address KIT_keys
                getChildPath keyFilter b (S (Z.to_nat (len a0))) a0 0
                (ChunkReader.childCount st) (ChunkReader.childCount st) []
                ltac:(lia) ltac:(unfold len; lia)) as H.
  destruct (children_loop _ _ _ _ _ _ false a0 0 _ []) as [[c1 st1]|e]; [|exact H].
  rewrite (children_loop_acc bytesToNumber textDecoder_decode this_address KIT_keys
             getChildPath keyFilter false
             (S (Z.to_nat (len (match ChunkReader.incompleteData st1 with
                                | Some incompleteData => incompleteData ++ b
                                | None => b
                                end))))
             _ 0 (ChunkReader.childCount st1) c1) in H by lia.
  destruct (children_loop _ _ _ _ _ _ false _ 0 (ChunkReader.childCount st1) [])
    as [[c2 st2]|e]; cbn [with_children same_children] in H.
  - destruct (children_loop _ _ _ _ _ _ false (a0 ++ b) 0 _ []) as [[c s]|e];
      [|contradiction].
    destruct H as [-> Hs]. exists (ChunkReader.childCount s). rewrite <- Hs.
    destruct s; reflexivity.
  - destruct (children_loop _ _ _ _ _ _ false (a0 ++ b) 0 _ []) as [[c s]|e'];
      [contradiction|]. rewrite H. reflexivity.
Qed.

(** ** The linear list written and read back *)

Lemma key_index_bytes (i : Z) :
  0 <= i < 32768 ->
  let b0 := ToUint8 (Z.lor 128 (Z.land (Z.shiftr i 8) 127)) in
  let b1 := ToUint8 (Z.land i 255) in
  (Z.land b0 128 =? 0) = false
  /\ Z.lor (Z.shiftl (Z.land b0 127) 8) b1 = i.
Proof.
  intros Hi.
  pose (P := fun i =>
               negb (Z.land (ToUint8 (Z.lor 128 (Z.land (Z.shiftr i 8) 127))) 128 =? 0)
               && (Z.lor (Z.shiftl (Z.land (ToUint8 (Z.lor 128 (Z.land (Z.shiftr i 8) 127)))
                                      127) 8)
                     (ToUint8 (Z.land i 255)) =? i)).
  assert (H : P i = true).
  { pose proof (forall_below
                  (fun hi => forallb (fun lo => P (hi * 256 + lo)) (map Z.of_nat (seq 0 256)))
                  128 ltac:(vm_compute; reflexivity) (i / 256)
                  ltac:(split; [apply Z.div_pos; lia | apply Z.div_lt_upper_bound; lia]))
      as Hhi.
    rewrite forallb_forall in Hhi.
    specialize (Hhi (i mod 256)).
    replace (i / 256 * 256 + i mod 256) with i in Hhi
      by (pose proof (Z.div_mod i 256 ltac:(lia)); lia).
    apply Hhi. apply in_map_iff. exists (Z.to_nat (i mod 256)).
    pose proof (Z.mod_pos_bound i 256 ltac:(lia)).
    split; [lia | apply in_seq; lia]. }
  subst P. cbv beta in H. rewrite andb_true_iff, negb_true_iff, Z.eqb_eq in H. exact H.
Qed.

Lemma key_length_byte (n : Z) :
  1 <= n <= 128 ->
  ToUint8 (n - 1) = n - 1
  /\ (Z.land (n - 1) 128 =? 0) = true
  /\ Z.land (n - 1) 127 + 1 = n.
Proof.
  intros Hn.
  pose proof (forall_below
                (fun m => (ToUint8 m =? m) && (Z.land m 128 =? 0) && (Z.land m 127 =? m))
                128 ltac:(vm_compute; reflexivity) (n - 1) ltac:(lia)) as H.
  cbv beta in H. rewrite !andb_true_iff, !Z.eqb_eq in H.
  destruct H as ((H1 & H2) & H3). rewrite H1, H2, H3. repeat split. lia.
Qed.

Lemma key_name_bytes_ok (key : string) (codes : list Z) :
  is_bytes codes -> forall i, key_name_bytes key i codes = Normal codes.
Proof.
  induction 1 as [|charCode codes Hc _ IH]; intros i; simpl.
  - reflexivity.
  - replace (charCode >? 255) with false by lia.
    rewrite IH. reflexivity.
Qed.

Lemma len_nonneg {A} (l : list A) : 0 <= len l.
Proof. unfold len. lia. Qed.

Lemma len_cons {A} (x : A) (l : list A) : len (x :: l) = 1 + len l.
Proof. unfold len. simpl. lia. Qed.

Section LinearRoundTripFacts.
Variable bytesToNumber : list Z -> number.
Variable textDecoder_decode : list Z -> string.
Variable this_address : NodeAddress.t.
Variable KIT_getOrAdd : string -> Z.
Variable KIT_keys : Z -> option string.
Variable getChildPath : option string -> option PathKey -> string.

(** One property written by [_writeNode] and read by the loop of
    [getChildrenFromChunk]. *)
Lemma entry_written_and_read (kvp : SerializedKeyValue.t) (child : NodeInfo.t) :
  kvp_decodes bytesToNumber textDecoder_decode this_address KIT_getOrAdd KIT_keys
    getChildPath kvp child ->
  exists bytes,
    entry_bytes KIT_getOrAdd false kvp = Normal bytes
    /\ 0 < len bytes
    /\ forall childCount,
         read_child bytesToNumber textDecoder_decode this_address KIT_keys getChildPath
           false (new_Uint8Array bytes) 0 childCount
         = Normal (child, len bytes).
Proof.
  intros (key & vb & Hkey & Hlen & Hkit & Hinline & Hvb & Hdec).
  pose proof (getValueFromBinary_result _ _ _ _ _ _ _ _ _ Hdec) as (Hadv & _).
  rewrite new_Uint8Array_length in Hadv.
  unfold entry_bytes. rewrite Hkey, Hvb. unfold key_info_bytes.
  replace (string_length key >? 128) with false by lia.
  destruct (0 <=? KIT_getOrAdd key) eqn:Ek; cbn [mbind Completion_bind bindC].
  - (* the key has an index *)
    apply Z.leb_le in Ek. destruct (Hkit Ek) as [Hi Hk].
    destruct (key_index_bytes (KIT_getOrAdd key) ltac:(lia)) as [K0 K1].
    cbv zeta in K0, K1.
    eexists. split; [reflexivity|].
    split; [unfold len; rewrite length_app; cbn [length]; lia|].
    intros childCount. rewrite new_Uint8Array_app.
    set (V := new_Uint8Array vb) in *.
    unfold new_Uint8Array at 1. cbn [map].
    set (b0 := ToUint8 (Z.lor 128 (Z.land (Z.shiftr (KIT_getOrAdd key) 8) 127))) in *.
    set (b1 := ToUint8 (Z.land (KIT_getOrAdd key) 255)) in *.
    assert (HV : len V = len vb) by (subst V; apply new_Uint8Array_length).
    assert (Hall : len ([b0; b1] ++ V) = 2 + len vb).
    { rewrite len_app, !len_cons, HV. change (len (@nil Z)) with 0. lia. }
    unfold read_child, assert_bytes. rewrite Hall.
    replace (0 + 2 >? 2 + len vb) with false by lia.
    cbn [mbind Completion_bind bindC].
    change (byte_at ([b0; b1] ++ V) 0) with b0.
    change (byte_at ([b0; b1] ++ V) (0 + 1)) with b1.
    rewrite K0, K1. replace (0 <=? KIT_getOrAdd key) with true by lia.
    rewrite Hk. cbn [fmap option_fmap option_map].
    change (0 + 2) with (2 + 0).
    rewrite (getValueFromBinary_skip bytesToNumber textDecoder_decode this_address false _
               ([b0; b1] ++ V) 2 0) by (rewrite ?Hall; lia).
    change (skipn (Z.to_nat 2) ([b0; b1] ++ V)) with V.
    rewrite Hdec. cbn [shift_index]. do 2 f_equal.
    rewrite len_app, !len_cons. change (len (@nil Z)) with 0. lia.
  - (* the key is written inline *)
    apply Z.leb_gt in Ek. destruct (Hinline Ek) as [Cb Cs].
    assert (Cl : len (charCodes key) = string_length key) by reflexivity.
    rewrite (key_name_bytes_ok key _ Cb). cbn [mbind Completion_bind bindC].
    destruct (key_length_byte (string_length key) Hlen) as (L0 & L1 & L2).
    eexists. split; [reflexivity|].
    split; [unfold len; rewrite length_app; cbn [length]; lia|].
    intros childCount. rewrite new_Uint8Array_app.
    set (V := new_Uint8Array vb) in *.
    assert (HV : len V = len vb) by (subst V; apply new_Uint8Array_length).
    unfold new_Uint8Array at 1. cbn [map]. fold (new_Uint8Array (charCodes key)).
    rewrite (new_Uint8Array_bytes _ Cb), L0.
    set (n := string_length key) in *.
    assert (Hall : len (((n - 1) :: charCodes key) ++ V) = 1 + n + len vb).
    { rewrite len_app, len_cons, HV, Cl. lia. }
    unfold read_child, assert_bytes. rewrite Hall.
    replace (0 + 2 >? 1 + n + len vb) with false by lia.
    cbn [mbind Completion_bind bindC].
    change (byte_at (((n - 1) :: charCodes key) ++ V) 0) with (n - 1).
    rewrite L1. cbv iota. change (0 <=? -1) with false. cbv iota.
    rewrite L2.
    replace (0 + 1 + n >? 1 + n + len vb) with false by lia.
    cbn [mbind Completion_bind bindC].
    assert (Hslice : slice (((n - 1) :: charCodes key) ++ V) (0 + 1) (0 + 1 + n)
                     = charCodes key).
    { unfold slice. replace (Z.to_nat (0 + 1 + n - (0 + 1))) with (length (charCodes key))
        by (unfold len in Cl; lia).
      change (skipn (Z.to_nat (0 + 1)) (((n - 1) :: charCodes key) ++ V))
        with (charCodes key ++ V).
      apply take_app_length. }
    rewrite Hslice, Cs.
    replace (0 + 1 + n) with (1 + n + 0) by lia.
    rewrite (getValueFromBinary_skip bytesToNumber textDecoder_decode this_address false _
               (((n - 1) :: charCodes key) ++ V) (1 + n) 0) by (rewrite ?Hall; lia).
    assert (Hskip : skipn (Z.to_nat (1 + n)) (((n - 1) :: charCodes key) ++ V) = V).
    { replace (Z.to_nat (1 + n)) with (S (length (charCodes key)))
        by (unfold len in Cl; lia).
      simpl. apply drop_app_length. }
    rewrite Hskip, Hdec. cbn [shift_index]. do 2 f_equal.
    rewrite len_app, len_cons, Cl. lia.
Qed.

Lemma linear_data_read (serialized : list SerializedKeyValue.t) (children : list NodeInfo.t) :
  Forall2 (kvp_decodes bytesToNumber textDecoder_decode this_address KIT_getOrAdd KIT_keys
             getChildPath) serialized children ->
  forall (pre : list Z) (acc : list NodeInfo.t) (childCount : Z),
  exists more,
    linear_data KIT_getOrAdd false serialized pre = Normal (pre ++ more)
    /\ children_loop bytesToNumber textDecoder_decode this_address KIT_keys getChildPath None
         false (pre ++ more) (len pre) childCount acc
       = Normal (acc ++ children, ChunkReader.mk None (childCount + len serialized)).
Proof.
  induction 1 as [|kvp child serialized children Hkvp _ IH]; intros pre acc childCount.
  - exists []. split; [simpl; rewrite app_nil_r; reflexivity|].
    rewrite children_loop_turn. rewrite !app_nil_r.
    replace (len pre <? len pre) with false by lia.
    change (len (@nil SerializedKeyValue.t)) with 0. rewrite Z.add_0_r. reflexivity.
  - destruct (entry_written_and_read kvp child Hkvp) as (bytes & Hbytes & Hpos & Hread).
    destruct (IH (pre ++ new_Uint8Array bytes) (acc ++ [child]) (childCount + 1))
      as (more & Hdata & Hloop).
    exists (new_Uint8Array bytes ++ more). rewrite app_assoc.
    split.
    + cbn [linear_data]. rewrite Hbytes. cbn [mbind Completion_bind bindC]. exact Hdata.
    + assert (Heb : len (new_Uint8Array bytes) = len bytes)
        by apply new_Uint8Array_length.
      pose proof (len_nonneg more) as Hmore. pose proof (len_nonneg pre) as Hpre.
      rewrite children_loop_turn.
      replace (len pre <? len ((pre ++ new_Uint8Array bytes) ++ more)) with true
        by (rewrite !len_app; lia).
      rewrite read_child_skip by (rewrite !len_app; lia).
      replace (Z.to_nat (len pre)) with (length pre) by (unfold len; lia).
      rewrite <- app_assoc, drop_app_length.
      rewrite (read_child_more _ _ _ _ _ false (new_Uint8Array bytes) more 0
                 (childCount + 1) (Normal (child, len bytes)) ltac:(lia)
                 (Hread (childCount + 1)) ltac:(discriminate)).
      cbn [shift_index passes_keyFilter].
      rewrite app_assoc.
      replace (len pre + len bytes) with (len (pre ++ new_Uint8Array bytes))
        by (rewrite len_app; lia).
      rewrite Hloop. rewrite <- app_assoc. cbn [app]. do 3 f_equal.
      rewrite len_cons. lia.
Qed.
End LinearRoundTripFacts.

(** X25. The properties of an object written as a linear list by [_writeNode]
    are read back by [getChildrenFromChunk], one child for each property
    and in the order written, when each property can be stored and read on
    its own: the key has 1 to 128 characters and is framed by its index in
    the key index table or, when the table has none for it, by its length,
    each of its char codes being at most 255 (for a larger one [_writeNode]
    throws); the value bytes follow. Nothing is left over as incomplete
    data. *)
Theorem linear_object_round_trip
    (bytesToNumber : list Z -> number) (textDecoder_decode : list Z -> string)
    (this_address : NodeAddress.t) (KIT_getOrAdd : string -> Z)
    (KIT_keys : Z -> option string)
    (getChildPath : option string -> option PathKey -> string)
    (serialized : list SerializedKeyValue.t) (children : list NodeInfo.t) :
  Forall2 (kvp_decodes bytesToNumber textDecoder_decode this_address KIT_getOrAdd KIT_keys
             getChildPath) serialized children ->
  exists data,
    linear_data KIT_getOrAdd false serialized [] = Normal data
    /\ getChildrenFromChunk bytesToNumber textDecoder_decode this_address KIT_keys
         getChildPath None VALUE_TYPES.OBJECT data (ChunkReader.mk None 0)
       = Normal (children, ChunkReader.mk None (len serialized)).
Proof.
  intros H.
  destruct (linear_data_read bytesToNumber textDecoder_decode this_address KIT_getOrAdd
              KIT_keys getChildPath serialized children H [] [] 0) as (more & Hdata & Hloop).
  exists more. split; [exact Hdata|].
  unfold getChildrenFromChunk. cbn [ChunkReader.incompleteData ChunkReader.childCount].
  change ((VALUE_TYPES.OBJECT =? VALUE_TYPES.OBJECT)
          || (VALUE_TYPES.OBJECT =? VALUE_TYPES.ARRAY)) with true.
  change (VALUE_TYPES.OBJECT =? VALUE_TYPES.ARRAY) with false. cbv iota.
  exact Hloop.
Qed.

Lemma linear_object_round_trip_witness :
  exists data,
    linear_data sample_getOrAdd false sample_serialized [] = Normal data
    /\ getChildrenFromChunk (fun _ => S754_zero false) bytes_text
         (NodeAddress.at_ "users/ewout" 1 2) sample_keys sample_getChildPath None
         VALUE_TYPES.OBJECT data (ChunkReader.mk None 0)
       = Normal (sample_children, ChunkReader.mk None 2).
Proof.
  apply (linear_object_round_trip (fun _ => S754_zero false) bytes_text
           (NodeAddress.at_ "users/ewout" 1 2) sample_getOrAdd sample_keys
           sample_getChildPath sample_serialized sample_children).
  constructor; [|constructor; [|constructor]].
  - exists "name", [80; 132; 69; 119; 111; 117; 116].
    split; [reflexivity|]. split; [vm_compute; split; discriminate|].
    split; [intros H; vm_compute in H; exfalso; apply H; reflexivity|].
    split.
    { intros _. split; [|reflexivity].
      change (charCodes "name") with [110; 97; 109; 101].
      unfold is_bytes. repeat constructor; lia. }
    split; reflexivity.
  - exists "age", [55; 64].
    split; [reflexivity|]. split; [vm_compute; split; discriminate|].
    split; [intros _; split; reflexivity|].
    split; [intros H; vm_compute in H; discriminate|].
    split; reflexivity.
Defined.

(** A key with a character beyond code 255 that the key index table does
    not hold is refused: the euro sign (the bytes 226, 130, 172 in UTF-8)
    has the char code 8364. *)
Lemma key_with_wide_character_is_refused :
  let key := String_fromCharCodes [8364] in
  charCodes key = [8364]
  /\ key_info_bytes (fun _ => -1) key
     = Throw (ThrownString ("Invalid character in key " +:+ key +:+ " at char 1")).
Proof. split; reflexivity. Qed.

(** ** Array indexes across chunks *)

Lemma array_loop_indexes
    (bytesToNumber : list Z -> number) (textDecoder_decode : list Z -> string)
    (this_address : NodeAddress.t) (KIT_keys : Z -> option string)
    (getChildPath : option string -> option PathKey -> string) (n : nat) :
  forall (binary : list Z) (index childCount : Z) (cs : list NodeInfo.t)
         (st : ChunkReader.t),
  (Z.to_nat (len binary - index) < n)%nat ->
  children_loop bytesToNumber textDecoder_decode this_address KIT_keys getChildPath None
    true binary index childCount [] = Normal (cs, st) ->
  map NodeInfo.index cs
  = map (fun i => Some (childCount + Z.of_nat i)) (seq 0 (length cs))
  /\ ChunkReader.childCount st
     = childCount + len cs
       + match ChunkReader.incompleteData st with Some _ => 1 | None => 0 end.
Proof.
  induction n as [|n IH]; intros binary index childCount cs st Hn; [lia|].
  rewrite children_loop_turn.
  destruct (index <? len binary) eqn:Elt.
  - destruct (read_child _ _ _ _ _ true binary index (childCount + 1))
      as [[child j]|err] eqn:E.
    + pose proof (read_child_advances _ _ _ _ _ _ _ _ _ _ _ E) as Hadv.
      assert (Hidx : NodeInfo.index child = Some childCount).
      { unfold read_child in E. apply getValueFromBinary_result in E.
        destruct E as (_ & _ & _ & Hi & _). rewrite Hi. simpl. f_equal. lia. }
      cbn [passes_keyFilter app].
      rewrite (children_loop_acc _ _ _ _ _ _ true (S (Z.to_nat (len binary - j))))
        by lia.
      destruct (children_loop _ _ _ _ _ _ true binary j (childCount + 1) [])
        as [[cs' st']|e] eqn:E'; cbn [with_children]; [|discriminate].
      intros Hret. inversion Hret; subst cs st. clear Hret.
      apply IH in E'; [|lia]. destruct E' as [Hmap Hcount].
      split.
      * cbn [app map length seq]. rewrite Hidx, Hmap. f_equal; [f_equal; lia|].
        rewrite <- seq_shift, map_map. apply map_ext. intros i. f_equal. lia.
      * rewrite Hcount. cbn [app]. rewrite len_cons. lia.
    + destruct err; try discriminate.
      intros Hret. inversion Hret; subst. simpl. split; [reflexivity|].
      change (len (@nil NodeInfo.t)) with 0. lia.
  - intros Hret. inversion Hret; subst. simpl. split; [reflexivity|].
    change (len (@nil NodeInfo.t)) with 0. lia.
Qed.

(** X26. The children that [getChildrenFromChunk] reads from a chunk of an array
    get the indexes [childCount], [childCount + 1], ... in their order, and
    the call leaves [childCount] advanced by the number of children read,
    and by one more when the chunk ends inside an entry: the turn of the
    loop that ran out of data has counted too, so the entry read again with
    the next chunk gets an index one higher than its position. *)
Theorem array_indexes_follow_childCount
    (bytesToNumber : list Z -> number) (textDecoder_decode : list Z -> string)
    (this_address : NodeAddress.t) (KIT_keys : Z -> option string)
    (getChildPath : option string -> option PathKey -> string)
    (binary : list Z) (st : ChunkReader.t) (children : list NodeInfo.t)
    (st' : ChunkReader.t) :
  getChildrenFromChunk bytesToNumber textDecoder_decode this_address KIT_keys getChildPath
    None VALUE_TYPES.ARRAY binary st = Normal (children, st') ->
  map NodeInfo.index children
  = map (fun i => Some (ChunkReader.childCount st + Z.of_nat i)) (seq 0 (length children))
  /\ ChunkReader.childCount st'
     = ChunkReader.childCount st + len children
       + match ChunkReader.incompleteData st' with Some _ => 1 | None => 0 end.
Proof.
  unfold getChildrenFromChunk.
  change ((VALUE_TYPES.ARRAY =? VALUE_TYPES.OBJECT)
          || (VALUE_TYPES.ARRAY =? VALUE_TYPES.ARRAY)) with true.
  change (VALUE_TYPES.ARRAY =? VALUE_TYPES.ARRAY) with true. cbv iota zeta.
  set (data := match ChunkReader.incompleteData st with
               | Some incompleteData => incompleteData ++ binary
               | None => binary
               end).
  intros H.
  exact (array_loop_indexes bytesToNumber textDecoder_decode this_address KIT_keys
           getChildPath (S (Z.to_nat (len data - 0))) data 0 _ _ _ ltac:(lia) H).
Qed.

Lemma array_indexes_follow_childCount_witness :
  exists children st',
    getChildrenFromChunk (fun _ => S754_zero false) bytes_text
      (NodeAddress.at_ "scores" 1 2) sample_keys sample_getChildPath None
      VALUE_TYPES.ARRAY [55; 64; 80; 129; 104] (ChunkReader.mk None 0)
    = Normal (children, st')
    /\ ChunkReader.incompleteData st' = Some [80; 129; 104]
    /\ len children = 1
    /\ ChunkReader.childCount st' = 2.
Proof.
  assert (Hread :
            getChildrenFromChunk (fun _ => S754_zero false) bytes_text
              (NodeAddress.at_ "scores" 1 2) sample_keys sample_getChildPath None
              VALUE_TYPES.ARRAY [55; 64; 80; 129; 104] (ChunkReader.mk None 0)
            = Normal
                ([NodeInfo.mk (Some "scores/0") (Some VALUE_TYPES.NUMBER) (Some 0) None true
                    None (Some (VNumber (number_of_Z 7)))],
                 ChunkReader.mk (Some [80; 129; 104]) 2)).
  { unfold getChildrenFromChunk.
    cbn [ChunkReader.incompleteData ChunkReader.childCount].
    change ((VALUE_TYPES.ARRAY =? VALUE_TYPES.OBJECT)
            || (VALUE_TYPES.ARRAY =? VALUE_TYPES.ARRAY)) with true.
    change (VALUE_TYPES.ARRAY =? VALUE_TYPES.ARRAY) with true. cbv iota.
    rewrite children_loop_turn.
    change (0 <? len [55; 64; 80; 129; 104]) with true. cbv iota.
    change (read_child (fun _ => S754_zero false) bytes_text (NodeAddress.at_ "scores" 1 2)
              sample_keys sample_getChildPath true [55; 64; 80; 129; 104] 0 (0 + 1))
      with (Normal
              (NodeInfo.mk (Some "scores/0") (Some VALUE_TYPES.NUMBER) (Some 0) None true
                 None (Some (VNumber (number_of_Z 7))),
               2)).
    cbv iota beta. cbn [passes_keyFilter app].
    rewrite children_loop_turn.
    change (2 <? len [55; 64; 80; 129; 104]) with true. cbv iota.
    change (read_child (fun _ => S754_zero false) bytes_text (NodeAddress.at_ "scores" 1 2)
              sample_keys sample_getChildPath true [55; 64; 80; 129; 104] 2 (0 + 1 + 1))
      with (@Throw (NodeInfo.t * Z) (TruncatedDataError "truncated data")).
    reflexivity. }
  eexists. eexists. split; [exact Hread|]. split; [reflexivity|]. split; [reflexivity|].
  exact (proj2 (array_indexes_follow_childCount (fun _ => S754_zero false) bytes_text
                  (NodeAddress.at_ "scores" 1 2) sample_keys sample_getChildPath
                  [55; 64; 80; 129; 104] (ChunkReader.mk None 0) _ _ Hread)).
Defined.

(** ** Tree data in the records of a node *)

Lemma array_slice_length {A} (l : list A) (from to : Z) :
  0 <= from ->
  len (array_slice l from to) = Z.max 0 (Z.min (to - from) (len l - from)).
Proof.
  intros Hfrom. unfold len, array_slice. rewrite length_firstn, length_skipn. lia.
Qed.

Lemma array_slice_first {A} (l : list A) (from to : Z) (a : A) :
  0 <= from < to -> l !! Z.to_nat from = Some a ->
  exists rest, array_slice l from to = a :: rest.
Proof.
  intros Hft Ha. unfold array_slice.
  destruct (skipn (Z.to_nat from) l) as [|b rest] eqn:E.
  - apply (f_equal (fun x => x !! 0%nat)) in E. rewrite lookup_drop in E.
    rewrite Nat.add_0_r in E. simpl in E. congruence.
  - apply (f_equal (fun x => x !! 0%nat)) in E. rewrite lookup_drop in E.
    rewrite Nat.add_0_r in E. simpl in E. assert (b = a) by congruence. subst b.
    destruct (Z.to_nat (to - from)) eqn:En; [lia|]. simpl. eexists. reflexivity.
Qed.

Lemma fromAdresses_from_head (records : list StorageAddress.t) :
  forall range, exists r ranges,
    fromAdresses_from range records = r :: ranges
    /\ StorageAddressRange.pageNr r = StorageAddressRange.pageNr range
    /\ StorageAddressRange.recordNr r = StorageAddressRange.recordNr range.
Proof.
  induction records as [|record records IH]; intros range; simpl.
  - eauto.
  - case_match.
    + eauto.
    + destruct (IH (StorageAddressRange.mk (StorageAddressRange.pageNr range)
                      (StorageAddressRange.recordNr range)
                      (StorageAddressRange.length range + 1)))
        as (r & ranges & -> & Hp & Hr). eauto.
Qed.

Lemma fromAdresses_from_total (records : list StorageAddress.t) :
  forall range, 0 <= StorageAddressRange.length range ->
  NodeAllocation.totalAddresses (fromAdresses_from range records)
  = StorageAddressRange.length range + len records.
Proof.
  induction records as [|record records IH]; intros range Hlen; simpl.
  - rewrite totalAddresses_cons. reflexivity.
  - case_match.
    + rewrite totalAddresses_cons, IH by (simpl; lia). simpl. unfold len. cbn [length]. lia.
    + rewrite IH by (simpl; lia). simpl. unfold len. cbn [length]. lia.
Qed.

Section TreeDataFacts.

Variable getRecordFileIndex : Z -> Z -> Z.
Variable recordSize : Z.
Hypothesis recordSize_positive : 0 < recordSize.

Lemma tree_writes_sum (length startOffset : Z) (writeRanges : list StorageAddressRange.t) :
  0 <= startOffset < recordSize ->
  Forall (fun r => 1 <= StorageAddressRange.length r) writeRanges ->
  forall (first : bool) (bOffset : Z),
  0 <= bOffset <= length ->
  consecutive bOffset
    (tree_writes getRecordFileIndex recordSize length startOffset first writeRanges bOffset)
  /\ transferred
       (tree_writes getRecordFileIndex recordSize length startOffset first writeRanges bOffset)
     = Z.min (NodeAllocation.totalAddresses writeRanges * recordSize
              - (if first then match writeRanges with [] => 0 | _ => startOffset end else 0))
             (length - bOffset).
Proof.
  intros Hso Hpos. induction Hpos as [|range ranges Hr Hpos IH]; intros first bOffset Hb.
  - simpl. split; [exact I|]. unfold transferred. simpl.
    change (NodeAllocation.totalAddresses []) with 0. destruct first; lia.
  - cbn [tree_writes]. cbv zeta.
    set (c := if first then StorageAddressRange.length range * recordSize - startOffset
              else StorageAddressRange.length range * recordSize).
    assert (Hc : 0 <= c).
    { assert (recordSize <= StorageAddressRange.length range * recordSize) by nia.
      unfold c. destruct first; lia. }
    set (bLength := if bOffset + c >? length then length - bOffset else c).
    assert (HbL : bLength = Z.min c (length - bOffset)).
    { unfold bLength. destruct (Z.gtb_spec (bOffset + c) length); lia. }
    assert (Htot : 0 <= NodeAllocation.totalAddresses ranges).
    { clear -Hpos. induction Hpos as [|r rs Hr Hpos IH].
      - change (NodeAllocation.totalAddresses []) with 0. lia.
      - rewrite totalAddresses_cons. lia. }
    destruct (IH false (bOffset + bLength) ltac:(lia)) as [Hcons Hsum].
    split.
    + cbn [consecutive DataTransfer.bOffset DataTransfer.bLength].
      split; [reflexivity|]. split; [lia|]. exact Hcons.
    + unfold transferred in *. cbn [map fold_right DataTransfer.bLength].
      rewrite Hsum, totalAddresses_cons.
      assert (0 <= NodeAllocation.totalAddresses ranges * recordSize) by nia.
      unfold c in *. destruct first; nia.
Qed.

Lemma tree_reads_sum (startOffset : Z) (readRanges : list StorageAddressRange.t) :
  0 <= startOffset < recordSize ->
  Forall (fun r => 1 <= StorageAddressRange.length r) readRanges ->
  forall (first : bool) (bOffset : Z),
  consecutive bOffset
    (tree_reads getRecordFileIndex recordSize startOffset first readRanges bOffset)
  /\ transferred
       (tree_reads getRecordFileIndex recordSize startOffset first readRanges bOffset)
     = NodeAllocation.totalAddresses readRanges * recordSize
       - (if first then match readRanges with [] => 0 | _ => startOffset end else 0).
Proof.
  intros Hso Hpos. induction Hpos as [|range ranges Hr Hpos IH]; intros first bOffset.
  - simpl. split; [exact I|]. unfold transferred. simpl.
    change (NodeAllocation.totalAddresses []) with 0. destruct first; lia.
  - cbn [tree_reads]. cbv zeta.
    set (c := if first then StorageAddressRange.length range * recordSize - startOffset
              else StorageAddressRange.length range * recordSize).
    assert (Hc : 0 <= c).
    { assert (recordSize <= StorageAddressRange.length range * recordSize) by nia.
      unfold c. destruct first; lia. }
    destruct (IH false (bOffset + c)) as [Hcons Hsum].
    split.
    + cbn [consecutive DataTransfer.bOffset DataTransfer.bLength].
      split; [reflexivity|]. split; [lia|]. exact Hcons.
    + unfold transferred in *. cbn [map fold_right DataTransfer.bLength].
      rewrite Hsum, totalAddresses_cons. unfold c. destruct first; lia.
Qed.

End TreeDataFacts.

(** The records that [_treeDataWriter] and [_treeDataReader] work on, when
    [index] lies in the allocation and the allocated records reach the end
    of the [length] bytes: the ranges found by [fromAdresses] start at the
    record [a] that holds byte [index], and have room for the bytes. *)
Lemma tree_data_ranges (recordSize headerLength : Z) (allocation : NodeAllocation.t)
    (index length : Z) (a : StorageAddress.t) :
  0 < recordSize -> 0 <= headerLength -> 0 <= index -> 0 <= length ->
  NodeAllocation.addresses allocation !! Z.to_nat ((headerLength + index) / recordSize) = Some a ->
  headerLength + index + length <= len (NodeAllocation.addresses allocation) * recordSize ->
  let records :=
    array_slice (NodeAllocation.addresses allocation) ((headerLength + index) / recordSize)
      ((headerLength + index + length) / recordSize + 1) in
  exists r ranges,
    fromAdresses records = Normal (r :: ranges)
    /\ StorageAddressRange.pageNr r = StorageAddress.pageNr a
    /\ StorageAddressRange.recordNr r = StorageAddress.recordNr a
    /\ Forall (fun r => 1 <= StorageAddressRange.length r) (r :: ranges)
    /\ NodeAllocation.totalAddresses (r :: ranges) = len records
    /\ 0 <= Z.rem (headerLength + index) recordSize < recordSize
    /\ length <= len records * recordSize - Z.rem (headerLength + index) recordSize.
Proof.
  intros Hrs Hh Hi Hl Ha Hfit records.
  set (s := headerLength + index) in *.
  assert (Hs : 0 <= s) by (unfold s; lia).
  assert (Hrem : Z.rem s recordSize = s mod recordSize) by (apply Z.rem_mod_nonneg; lia).
  assert (Hsn : 0 <= s / recordSize) by (apply Z.div_pos; lia).
  assert (Hmono : s / recordSize <= (s + length) / recordSize)
    by (apply Z.div_le_mono; lia).
  pose proof (Z.mod_pos_bound s recordSize Hrs) as Hmod.
  pose proof (Z.div_mod s recordSize ltac:(lia)) as Hdm.
  pose proof (Z.mod_pos_bound (s + length) recordSize Hrs) as Hmod2.
  pose proof (Z.div_mod (s + length) recordSize ltac:(lia)) as Hdm2.
  destruct (array_slice_first (NodeAllocation.addresses allocation) (s / recordSize)
              ((s + length) / recordSize + 1) a ltac:(lia) Ha) as [rest Hrec].
  assert (Hlen : len records
                 = Z.min ((s + length) / recordSize + 1 - s / recordSize)
                     (len (NodeAllocation.addresses allocation) - s / recordSize)).
  { unfold records. rewrite array_slice_length by lia.
    apply lookup_lt_Some in Ha. unfold len. lia. }
  unfold records in *. rewrite Hrec in *. cbn [fromAdresses].
  destruct (fromAdresses_from_head rest
              (StorageAddressRange.mk (StorageAddress.pageNr a) (StorageAddress.recordNr a) 1))
    as (r & ranges & Hfrom & Hp & Hr).
  exists r, ranges. rewrite <- Hfrom.
  split; [reflexivity|]. split; [exact Hp|]. split; [exact Hr|].
  split; [apply fromAdresses_from_positive; simpl; lia|].
  split.
  { rewrite fromAdresses_from_total by (simpl; lia). simpl. unfold len.
    cbn [Datatypes.length]. lia. }
  split; [lia|].
  rewrite Hlen, Hrem.
  set (L := len (NodeAllocation.addresses allocation)) in *.
  destruct (Z.min_spec ((s + length) / recordSize + 1 - s / recordSize) (L - s / recordSize))
    as [[_ ->]|[_ ->]]; nia.
Qed.

(** X27. When byte [index] of the tree data lies in the allocation and the
    allocated records reach the end of the [length] bytes given,
    [_treeDataWriter] writes all of them: the first write goes to the record
    that holds byte [index], at its offset in that record, every write takes
    the bytes after those of the write before it, and the lengths add up to
    [length]. *)
Theorem treeDataWriter_writes_all (getRecordFileIndex : Z -> Z -> Z)
    (recordSize headerLength : Z) (allocation : NodeAllocation.t)
    (length index : Z) (a : StorageAddress.t) :
  0 < recordSize -> 0 <= headerLength -> 0 <= index -> 0 <= length ->
  NodeAllocation.addresses allocation !! Z.to_nat ((headerLength + index) / recordSize) = Some a ->
  headerLength + index + length <= len (NodeAllocation.addresses allocation) * recordSize ->
  exists w writes,
    _treeDataWriter getRecordFileIndex recordSize headerLength allocation length index
    = Normal (w :: writes)
    /\ DataTransfer.fIndex w
       = getRecordFileIndex (StorageAddress.pageNr a) (StorageAddress.recordNr a)
         + (headerLength + index) mod recordSize
    /\ consecutive 0 (w :: writes)
    /\ transferred (w :: writes) = length.
Proof.
  intros Hrs Hh Hi Hl Ha Hfit.
  destruct (tree_data_ranges recordSize headerLength allocation index length a
              Hrs Hh Hi Hl Ha Hfit)
    as (r & ranges & Hfrom & Hp & Hr & Hpos & Htot & Hso & Hroom).
  unfold _treeDataWriter. cbv zeta. rewrite Hfrom. cbn [mbind Completion_bind bindC].
  destruct (tree_writes_sum getRecordFileIndex recordSize Hrs length _ (r :: ranges)
              Hso Hpos true 0 ltac:(lia)) as [Hcons Hsum].
  rewrite Htot in Hsum.
  cbn [tree_writes] in *. cbv zeta in *.
  eexists _, _. split; [reflexivity|].
  split; [|split].
  - cbn [DataTransfer.fIndex]. rewrite Hp, Hr, Z.rem_mod_nonneg by lia. reflexivity.
  - exact Hcons.
  - rewrite Hsum. lia.
Qed.

Lemma treeDataWriter_writes_all_witness :
  exists w writes,
    _treeDataWriter (fun pageNr recordNr => 1000 * pageNr + 10 * recordNr) 10 4
      [StorageAddressRange.mk 0 5 2; StorageAddressRange.mk 3 1 2] 15 9
    = Normal (w :: writes)
    /\ DataTransfer.fIndex w = 1000 * 0 + 10 * 6 + (4 + 9) mod 10
    /\ consecutive 0 (w :: writes)
    /\ transferred (w :: writes) = 15.
Proof.
  apply (treeDataWriter_writes_all (fun pageNr recordNr => 1000 * pageNr + 10 * recordNr) 10 4
           [StorageAddressRange.mk 0 5 2; StorageAddressRange.mk 3 1 2] 15 9
           (StorageAddress.mk 0 6)); try lia; try reflexivity.
  vm_compute. discriminate.
Defined.

(** X28. Under the same conditions [_treeDataReader] fills the buffer it
    allocates: the first read starts in the record that holds byte [index],
    at its offset, the reads follow each other in the buffer, their lengths
    add up to the buffer's length, and the buffer holds at least the
    [length] bytes asked for. *)
Theorem treeDataReader_fills_buffer (getRecordFileIndex : Z -> Z -> Z)
    (recordSize headerLength : Z) (allocation : NodeAllocation.t)
    (index length : Z) (a : StorageAddress.t) :
  0 < recordSize -> 0 <= headerLength -> 0 <= index -> 0 <= length ->
  NodeAllocation.addresses allocation !! Z.to_nat ((headerLength + index) / recordSize) = Some a ->
  headerLength + index + length <= len (NodeAllocation.addresses allocation) * recordSize ->
  exists totalLength r reads,
    _treeDataReader getRecordFileIndex recordSize headerLength allocation index length
    = Normal (totalLength, r :: reads)
    /\ DataTransfer.fIndex r
       = getRecordFileIndex (StorageAddress.pageNr a) (StorageAddress.recordNr a)
         + (headerLength + index) mod recordSize
    /\ consecutive 0 (r :: reads)
    /\ transferred (r :: reads) = totalLength
    /\ length <= totalLength.
Proof.
  intros Hrs Hh Hi Hl Ha Hfit.
  destruct (tree_data_ranges recordSize headerLength allocation index length a
              Hrs Hh Hi Hl Ha Hfit)
    as (r & ranges & Hfrom & Hp & Hr & Hpos & Htot & Hso & Hroom).
  unfold _treeDataReader. cbv zeta. rewrite Hfrom. cbn [mbind Completion_bind bindC].
  destruct (tree_reads_sum getRecordFileIndex recordSize Hrs _ (r :: ranges)
              Hso Hpos true 0) as [Hcons Hsum].
  rewrite Htot in Hsum.
  cbn [tree_reads] in *. cbv zeta in *.
  eexists _, _, _. split; [reflexivity|].
  split; [|split; [|split]].
  - cbn [DataTransfer.fIndex]. rewrite Hp, Hr, Z.rem_mod_nonneg by lia. reflexivity.
  - exact Hcons.
  - exact Hsum.
  - exact Hroom.
Qed.

Lemma treeDataReader_fills_buffer_witness :
  exists totalLength r reads,
    _treeDataReader (fun pageNr recordNr => 1000 * pageNr + 10 * recordNr) 10 4
      [StorageAddressRange.mk 0 5 2; StorageAddressRange.mk 3 1 2] 9 15
    = Normal (totalLength, r :: reads)
    /\ DataTransfer.fIndex r = 1000 * 0 + 10 * 6 + (4 + 9) mod 10
    /\ consecutive 0 (r :: reads)
    /\ transferred (r :: reads) = totalLength
    /\ 15 <= totalLength.
Proof.
  apply (treeDataReader_fills_buffer (fun pageNr recordNr => 1000 * pageNr + 10 * recordNr) 10 4
           [StorageAddressRange.mk 0 5 2; StorageAddressRange.mk 3 1 2] 9 15
           (StorageAddress.mk 0 6)); try lia; try reflexivity.
  vm_compute. discriminate.
Defined.

(** ** The facts above at work *)

(** Three touching ranges of page 1 and one of page 2, given out of order. *)
Lemma normalize_keeps_addresses_witness :
  Permutation
    (NodeAllocation.addresses
       (NodeAllocation.normalize
          [StorageAddressRange.mk 1 4 2; StorageAddressRange.mk 2 0 1;
           StorageAddressRange.mk 1 1 3]))
    (NodeAllocation.addresses
       [StorageAddressRange.mk 1 4 2; StorageAddressRange.mk 2 0 1;
        StorageAddressRange.mk 1 1 3]).
Proof.
  apply (normalize_keeps_addresses
           [StorageAddressRange.mk 1 4 2; StorageAddressRange.mk 2 0 1;
            StorageAddressRange.mk 1 1 3]).
  intros r [Hr|[Hr|[Hr|[]]]]; subst; simpl; lia.
Defined.

(** The child entry of claim C9, read in the record of [a]. *)
Lemma no_circular_error_below_root_witness :
  never_throws (Error "Circular reference in record data")
    (getValueFromBinary (fun _ => S754_zero false) bytes_text false
       (NodeAddress.new (Some "a") (Some 1) (Some 2))
       (NodeInfo.mk None None None (Some "b") true None None)
       [16; 192; 0; 0; 0; 1; 0; 2] 0).
Proof.
  apply (no_circular_error_below_root (fun _ => S754_zero false) bytes_text false "a"
           (Some 1) (Some 2) (NodeInfo.mk None None None (Some "b") true None None)
           [16; 192; 0; 0; 0; 1; 0; 2] 0).
  discriminate.
Defined.
